(** * Dynamic segment tree (gogagum/lazy-segment-tree)

    A shallow embedding of the dynamic segment tree of [include/dst] and of
    the older tree of [include/dynamic_segment_tree.hpp], with the properties
    their specification states about them.

    Conventions of the embedding.
    - [KeyT] is an integral type; a key is a [Z].  The only arithmetic the
      trees do on keys is [(currBegin + currEnd) / 2]: the sum is taken in the
      integral type, where it wraps around ([keyWrap]), and the division
      truncates towards zero ([Z.quot], not [Z.div]).  A theorem that needs
      the midpoint inside the span says so by [spanFits]: the sum of two keys
      of the range fits the type.
    - A node is the C++ object: either its buffer holds a value ([ptr] is
      null) or it owns a block of two children, and in both cases it has the
      [updateValue_] slot.
    - [ValueT]'s copy and move constructors and the user's functors are pure
      and do not throw, except in the module [InitChildren], which models
      [initChildrenSiftingValue] statement by statement with the failures the
      source guards against.
    - A recursive routine that is not structural on the node runs on fuel;
      an [assert] of the source that does not hold is an outcome of its own.
    - The tree is a template in its node.  The walks are written out at the
      node with an optional update argument ([DST]) and at the node with a
      flag ([NullaryTree]).
    - Members that the headers at hand call but do not define are marked
      where they are modelled: [updateImpl_] and [optionalSiftNodeUpdate_] of
      the update variation base, and the node class of the older header.

    Part I holds the programs, Part II their properties. *)

From Stdlib Require Import ZArith List Lia Bool String Ascii.
From Stdlib Require Import DecimalString DecimalPos DecimalZ.
Import ListNotations.
Local Open Scope Z_scope.

Set Warnings "-notation-for-abbreviation".

(** * Part I.  The programs *)

(** ** Outcomes of a routine *)

Inductive outcome (X : Type) : Type :=
| Done (x : X)
| AssertFailed
| OutOfFuel.

Arguments Done {X} x.
Arguments AssertFailed {X}.
Arguments OutOfFuel {X}.

Definition bind {X Y : Type} (c : outcome X) (k : X -> outcome Y) : outcome Y :=
  match c with
  | Done x => k x
  | AssertFailed => AssertFailed
  | OutOfFuel => OutOfFuel
  end.

Notation "x <- c ;; k" := (bind c (fun x => k))
  (at level 61, c at next level, right associativity).

Definition omap {X Y : Type} (f : X -> Y) (c : outcome X) : outcome Y :=
  match c with
  | Done x => Done (f x)
  | AssertFailed => AssertFailed
  | OutOfFuel => OutOfFuel
  end.

(** [assert(c)] of <cassert>. *)
Definition assert (c : bool) : outcome unit :=
  if c then Done tt else AssertFailed.

(** ** The key type and the midpoint of a span *)

(** An integral type: signed or not, and its width in bits.  For [KeyT] it
    is the type in which [currBegin + currEnd] is computed: [KeyT] itself,
    or [int] when [KeyT] is narrower than [int] (integer promotion). *)
Class KeyT : Type := mkKeyT {
  keySigned : bool;
  keyBits : positive
}.

Definition keyMin {K : KeyT} : Z :=
  if keySigned then - 2 ^ (Z.pos keyBits - 1) else 0.

Definition keyMax {K : KeyT} : Z := keyMin + 2 ^ Z.pos keyBits - 1.

(** The value of a sum in the type.  An unsigned sum is reduced modulo two
    to the width.  A signed sum that overflows is undefined in C++; it is
    given the value that two's complement hardware computes. *)
Definition keyWrap {K : KeyT} (x : Z) : Z :=
  (x - keyMin) mod 2 ^ Z.pos keyBits + keyMin.

(** [(currBegin + currEnd) / 2]. *)
Definition midpoint {K : KeyT} (currBegin currEnd : Z) : Z :=
  keyWrap (currBegin + currEnd) ÷ 2.

(** The sum of any two keys between [begin] and [end] fits the type: no
    [currBegin + currEnd] of a walk over the range overflows. *)
Definition spanFits {K : KeyT} (begin end' : Z) : Prop :=
  keyMin <= begin + begin /\ end' + end' <= keyMax.

(** [int] and [unsigned int] where they have 32 bits. *)
Definition int32 : KeyT := mkKeyT true 32.

Definition uint32 : KeyT := mkKeyT false 32.

(** ** Nodes: [dst::impl::Node<T, std::optional<UpdateT>, Allocator>] *)

Module Impl.

Section NodeDef.

Variables T A : Type.

(** [ptr == nullptr]: the buffer holds [value]; otherwise [ptr] points to a
    block of two nodes, [getLeft() = ptr] and [getRight() = ptr + 1]. *)
Inductive Node : Type :=
| Leaf (value : T) (updateValue_ : option A)
| Inner (left right : Node) (updateValue_ : option A).

End NodeDef.

Arguments Leaf {T A} value updateValue_.
Arguments Inner {T A} left right updateValue_.

Section NodeOps.

Context {K : KeyT} {T A : Type}.

(** The update functor, [updateOp(value, arg)]. *)
Variable updateOp : T -> A -> T.

Notation Node := (Node T A).

Definition isLeaf (n : Node) : bool :=
  match n with
  | Leaf _ _ => true
  | Inner _ _ _ => false
  end.

Definition updateValue (n : Node) : option A :=
  match n with
  | Leaf _ u => u
  | Inner _ _ u => u
  end.

(** [BaseNode::clearChildren]: destroys the subtrees below a node that has
    children and hands their blocks back; the result is the number of
    two-node blocks passed to [deallocate]. *)
Fixpoint clearChildren (n : Node) : nat :=
  match n with
  | Leaf _ _ => 0
  | Inner l r _ => (clearChildren l + clearChildren r + 1)%nat
  end.

(** Two-node blocks that the subtree holds from the allocator. *)
Fixpoint allocatedBlocks (n : Node) : nat :=
  match n with
  | Leaf _ _ => 0
  | Inner l r _ => (1 + allocatedBlocks l + allocatedBlocks r)%nat
  end.

(** [BaseNode::setOrConstructValue] (the [Base_::setValue] of node.hpp): a
    leaf is assigned the value; otherwise [clearChildren] and the value is
    constructed in the buffer. *)
Definition setOrConstructValue (val : T) (n : Node) : Node :=
  match n with
  | Leaf _ u => Leaf val u
  | Inner _ _ u => Leaf val u
  end.

Definition withUpdateValue (u : option A) (n : Node) : Node :=
  match n with
  | Leaf v _ => Leaf v u
  | Inner l r _ => Inner l r u
  end.

(** [Node::setValue]: [Base_::setValue(value); updateValue_ = std::nullopt]. *)
Definition setValue (val : T) (n : Node) : Node :=
  withUpdateValue None (setOrConstructValue val n).

(** [Node::update(updateOp, updateVal)]. *)
Fixpoint update (updateVal : A) (n : Node) : Node :=
  match n with
  | Inner l r u =>
      match u with
      | Some old => Inner (update old l) (update old r) (Some updateVal)
      | None => Inner l r (Some updateVal)
      end
  | Leaf v u => Leaf (updateOp v updateVal) u
  end.

(** [Node::siftOptUpdate(updateOp)]. *)
Definition siftOptUpdate (n : Node) : outcome Node :=
  match updateValue n with
  | Some a =>
      match n with
      | Leaf _ _ => AssertFailed
      | Inner l r _ => Done (Inner (update a l) (update a r) None)
      end
  | None => Done n
  end.

(** [BaseNode::initChildrenSiftingValue] (the [initChildren] of the tree)
    when nothing throws: both children are default-constructed nodes that
    receive the value; [updateValue_] of the node itself is not touched. *)
Definition initChildren (n : Node) : outcome Node :=
  match n with
  | Leaf v u => Done (Inner (Leaf v None) (Leaf v None) u)
  | Inner _ _ _ => AssertFailed
  end.

(** *** What a node says about a key

    The value of key [k] in the subtree of a node with span
    [currBegin, currEnd): the leaf on the path of [k], with the pending
    updates of the path applied innermost first. *)
Fixpoint valueAt (n : Node) (currBegin currEnd k : Z) : T :=
  match n with
  | Leaf v _ => v
  | Inner l r u =>
      let mid := midpoint currBegin currEnd in
      let below := if k >=? mid then valueAt r mid currEnd k
                   else valueAt l currBegin mid k in
      match u with
      | Some a => updateOp below a
      | None => below
      end
  end.

(** Invariant 2 of the data model: only a node with children has a pending
    update. *)
Fixpoint leavesClean (n : Node) : Prop :=
  match n with
  | Leaf _ u => u = None
  | Inner l r _ => leavesClean l /\ leavesClean r
  end.

(** The topology of a subtree: which nodes exist. *)
Inductive Shape : Type :=
| SLeaf
| SInner (l r : Shape).

Fixpoint shape (n : Node) : Shape :=
  match n with
  | Leaf _ _ => SLeaf
  | Inner l r _ => SInner (shape l) (shape r)
  end.

End NodeOps.

End Impl.

Import Impl.

(** ** Nodes of a tree with a nullary update: [dst::impl::Node<T, bool, Allocator>] *)

Module Nullary.

Section NodeDef.

Variable T : Type.

(** As [Impl.Node], with the flag [toUpdate_] in the place of the optional
    argument. *)
Inductive Node : Type :=
| Leaf (value : T) (toUpdate_ : bool)
| Inner (left right : Node) (toUpdate_ : bool).

End NodeDef.

Arguments Leaf {T} value toUpdate_.
Arguments Inner {T} left right toUpdate_.

Section NodeOps.

Context {T : Type}.

(** The update functor, [updateOp(value)]. *)
Variable updateOp : T -> T.

Notation Node := (Node T).

Definition toUpdate (n : Node) : bool :=
  match n with
  | Leaf _ u => u
  | Inner _ _ u => u
  end.

(** [Node<T, bool, Allocator>::update(updateOp)]. *)
Fixpoint update (n : Node) : Node :=
  match n with
  | Inner l r u =>
      if u then Inner (update l) (update r) true
      else Inner l r true
  | Leaf v u => Leaf (updateOp v) u
  end.

(** [Node<T, bool, Allocator>::siftOptUpdate(updateOp)]. *)
Definition siftOptUpdate (n : Node) : outcome Node :=
  if toUpdate n then
    match n with
    | Leaf _ _ => AssertFailed
    | Inner l r _ => Done (Inner (update l) (update r) false)
    end
  else Done n.

(** [BaseNode::initChildrenSiftingValue] at this node when nothing throws:
    the children are default-constructed, [toUpdate_{false}]. *)
Definition initChildren (n : Node) : outcome Node :=
  match n with
  | Leaf v u => Done (Inner (Leaf v false) (Leaf v false) u)
  | Inner _ _ _ => AssertFailed
  end.

(** [BaseNode::setOrConstructValue] at this node: it knows nothing of
    [toUpdate_]. *)
Definition setOrConstructValue (val : T) (n : Node) : Node :=
  Leaf val (toUpdate n).

(** [currNode->setValue(toUpdate)] at this node.  The class declares no
    [setValue] of its own in node.hpp: the call reaches the setter of the
    base class, which leaves [toUpdate_] as it is. *)
Definition setValue (val : T) (n : Node) : Node :=
  setOrConstructValue val n.

(** The nullary operator as an operator with an argument that says nothing. *)
Definition asBinary (v : T) (_ : unit) : T := updateOp v.

(** The node with an optional argument of type [unit] that stands for a
    node with a flag. *)
Fixpoint toOptional (n : Node) : Impl.Node T unit :=
  match n with
  | Leaf v u => Impl.Leaf v (if u then Some tt else None)
  | Inner l r u =>
      Impl.Inner (toOptional l) (toOptional r) (if u then Some tt else None)
  end.

End NodeOps.

End Nullary.

(** ** The tree of [include/dst/dynamic_segment_tree.hpp] *)

Module DST.

Section Tree.

Context {K : KeyT} {T A G : Type}.

(** [UpdateOp], as [updateOp_(value, arg)]. *)
Variable updateOp : T -> A -> T.

(** [RangeGetInitVariationBase_::initGet_(begin, end, value)] and
    [RangeGetCombineVariationBase_::combineGet_(left, right, leftBegin,
    separation, rightEnd)]: what the recursion calls, whichever form the
    configured functors have. *)
Variable initGet_ : Z -> Z -> T -> G.
Variable combineGet_ : G -> G -> Z -> Z -> Z -> G.

Notation Node := (Node T A).

Record DynamicSegmentTree : Type := mkTree {
  rootNode_ : Node;
  begin_ : Z;
  end_ : Z
}.

(** The constructor: [rootNode_(value), begin_(begin), end_(end)]. *)
Definition make (begin end' : Z) (value : T) : DynamicSegmentTree :=
  mkTree (Leaf value None) begin end'.

(** [currNode->getValue()]; the buffer of a node with children holds no
    object. *)
Definition getValue (n : Node) : outcome T :=
  match n with
  | Leaf v _ => Done v
  | Inner _ _ _ => AssertFailed
  end.

(** [if (currNode->isLeaf()) currNode->initChildren();] *)
Definition initChildrenIfLeaf (n : Node) : outcome Node :=
  if isLeaf n then initChildren n else Done n.

(** Modelled from the spec: [optionalSiftNodeUpdate_] is a member of
    DynamicSegmentTreeUpdateVariationBase, whose header
    (dst/impl/dynamic_segment_tree_update_variation_base.hpp) is not among
    the sources.  By 4.3 it is the call of [sift(U)] on the node when update
    is enabled, that is [Node::siftOptUpdate] with the configured operator. *)
Definition optionalSiftNodeUpdate_ (n : Node) : outcome Node :=
  siftOptUpdate updateOp n.

(** [setImpl_(begin, end, currBegin, currEnd, currNode, const ValueT&)]. *)
Fixpoint setImpl_ (fuel : nat) (begin end' currBegin currEnd : Z)
    (currNode : Node) (toUpdate : T) : outcome Node :=
  match fuel with
  | O => OutOfFuel
  | S fuel' =>
      _ <- assert (currBegin <? end') ;;
      _ <- assert (currEnd >? begin) ;;
      _ <- assert (begin <? end') ;;
      if (end' >=? currEnd) && (begin <=? currBegin) then
        Done (setValue toUpdate currNode)
      else
        n1 <- initChildrenIfLeaf currNode ;;
        let mid := midpoint currBegin currEnd in
        n2 <- optionalSiftNodeUpdate_ n1 ;;
        match n2 with
        | Leaf _ _ => AssertFailed
        | Inner l r u =>
            l' <- (if mid >? begin
                   then setImpl_ fuel' begin end' currBegin mid l toUpdate
                   else Done l) ;;
            r' <- (if mid <? end'
                   then setImpl_ fuel' begin end' mid currEnd r toUpdate
                   else Done r) ;;
            Done (Inner l' r' u)
        end
  end.

(** [setImpl_(begin, end, currBegin, currEnd, currNode, ValueT&&)]: the
    overload that moves the value into the only side it visits. *)
Fixpoint setImpl_rvalue (fuel : nat) (begin end' currBegin currEnd : Z)
    (currNode : Node) (toUpdate : T) : outcome Node :=
  match fuel with
  | O => OutOfFuel
  | S fuel' =>
      _ <- assert (currBegin <? end') ;;
      _ <- assert (currEnd >? begin) ;;
      _ <- assert (begin <? end') ;;
      if (end' >=? currEnd) && (begin <=? currBegin) then
        Done (setValue toUpdate currNode)
      else
        n1 <- initChildrenIfLeaf currNode ;;
        let mid := midpoint currBegin currEnd in
        n2 <- optionalSiftNodeUpdate_ n1 ;;
        match n2 with
        | Leaf _ _ => AssertFailed
        | Inner l r u =>
            if mid >=? end' then
              l' <- setImpl_rvalue fuel' begin end' currBegin mid l toUpdate ;;
              Done (Inner l' r u)
            else if mid <=? begin then
              r' <- setImpl_rvalue fuel' begin end' mid currEnd r toUpdate ;;
              Done (Inner l r' u)
            else
              l' <- setImpl_ fuel' begin end' currBegin mid l toUpdate ;;
              r' <- setImpl_rvalue fuel' begin end' mid currEnd r toUpdate ;;
              Done (Inner l' r' u)
        end
  end.

(** Modelled from the spec: [updateImpl_] is a member of
    DynamicSegmentTreeUpdateVariationBase, whose header is not among the
    sources.  By 4.3 it has the shape of [setImpl_] with
    [currNode->update(updateOp_, toUpdate)] in the place of [setValue].  The
    facade's [update] forwards to it without any test of the range, so the
    test for a span that the range does not meet stands at the head of the
    recursion, written as in [_updateImpl] of the older header. *)
Fixpoint updateImpl_ (fuel : nat) (begin end' currBegin currEnd : Z)
    (currNode : Node) (toUpdate : A) : outcome Node :=
  match fuel with
  | O => OutOfFuel
  | S fuel' =>
      if (begin >=? currEnd) || (currBegin >=? end') then Done currNode
      else if (end' >=? currEnd) && (begin <=? currBegin) then
        Done (Impl.update updateOp toUpdate currNode)
      else
        n1 <- initChildrenIfLeaf currNode ;;
        let mid := midpoint currBegin currEnd in
        n2 <- optionalSiftNodeUpdate_ n1 ;;
        match n2 with
        | Leaf _ _ => AssertFailed
        | Inner l r u =>
            l' <- (if mid >? begin
                   then updateImpl_ fuel' begin end' currBegin mid l toUpdate
                   else Done l) ;;
            r' <- (if mid <? end'
                   then updateImpl_ fuel' begin end' mid currEnd r toUpdate
                   else Done r) ;;
            Done (Inner l' r' u)
        end
  end.

(** [getImpl_(key, currBegin, currEnd, currNode)]: the value and the node as
    the sifting leaves it ([rootNode_] is mutable). *)
Fixpoint getImpl_ (fuel : nat) (key currBegin currEnd : Z) (currNode : Node)
    : outcome (T * Node) :=
  match fuel with
  | O => OutOfFuel
  | S fuel' =>
      if isLeaf currNode then
        v <- getValue currNode ;;
        Done (v, currNode)
      else
        n <- optionalSiftNodeUpdate_ currNode ;;
        match n with
        | Leaf _ _ => AssertFailed
        | Inner l r u =>
            let mid := midpoint currBegin currEnd in
            if key >=? mid then
              vr <- getImpl_ fuel' key mid currEnd r ;;
              Done (fst vr, Inner l (snd vr) u)
            else
              vl <- getImpl_ fuel' key currBegin mid l ;;
              Done (fst vl, Inner (snd vl) r u)
        end
  end.

(** [rangeGetImpl_(begin, end, currBegin, currEnd, currNode)]. *)
Fixpoint rangeGetImpl_ (fuel : nat) (begin end' currBegin currEnd : Z)
    (currNode : Node) : outcome (G * Node) :=
  match fuel with
  | O => OutOfFuel
  | S fuel' =>
      if (begin >? currEnd) || (currBegin >? end') then AssertFailed
      else if (end' >=? currEnd) && (begin <=? currBegin) && isLeaf currNode
      then
        v <- getValue currNode ;;
        Done (initGet_ currBegin currEnd v, currNode)
      else
        n1 <- initChildrenIfLeaf currNode ;;
        n2 <- optionalSiftNodeUpdate_ n1 ;;
        let mid := midpoint currBegin currEnd in
        match n2 with
        | Leaf _ _ => AssertFailed
        | Inner l r u =>
            if begin >=? mid then
              gr <- rangeGetImpl_ fuel' begin end' mid currEnd r ;;
              Done (fst gr, Inner l (snd gr) u)
            else if end' <=? mid then
              gl <- rangeGetImpl_ fuel' begin end' currBegin mid l ;;
              Done (fst gl, Inner (snd gl) r u)
            else
              rVal <- rangeGetImpl_ fuel' begin end' mid currEnd r ;;
              lVal <- rangeGetImpl_ fuel' begin end' currBegin mid l ;;
              Done (combineGet_ (fst lVal) (fst rVal)
                      (Z.max currBegin begin) mid (Z.min currEnd end'),
                    Inner (snd lVal) (snd rVal) u)
        end
  end.

(** *** The facade *)

(** Recursion budgets: a walk that splits nodes goes down at most once per
    key of the span, a walk that only follows the tree once per level. *)
Definition spanFuel (t : DynamicSegmentTree) : nat :=
  S (Z.to_nat (end_ t - begin_ t)).

Fixpoint height (n : Node) : nat :=
  match n with
  | Leaf _ _ => 0
  | Inner l r _ => S (Nat.max (height l) (height r))
  end.

Definition withRoot (t : DynamicSegmentTree) (n : Node) : DynamicSegmentTree :=
  mkTree n (begin_ t) (end_ t).

(** [set(begin, end, const ValueT& toSet)]. *)
Definition set (t : DynamicSegmentTree) (begin end' : Z) (toSet : T)
    : outcome DynamicSegmentTree :=
  if begin <? end' then
    n <- setImpl_ (spanFuel t) begin end' (begin_ t) (end_ t) (rootNode_ t) toSet ;;
    Done (withRoot t n)
  else Done t.

(** [set(begin, end, ValueT&& toSet)]. *)
Definition set_rvalue (t : DynamicSegmentTree) (begin end' : Z) (toSet : T)
    : outcome DynamicSegmentTree :=
  if begin <? end' then
    n <- setImpl_rvalue (spanFuel t) begin end' (begin_ t) (end_ t)
           (rootNode_ t) toSet ;;
    Done (withRoot t n)
  else Done t.

(** [update(begin, end, toUpdate)]. *)
Definition update (t : DynamicSegmentTree) (begin end' : Z) (toUpdate : A)
    : outcome DynamicSegmentTree :=
  n <- updateImpl_ (spanFuel t) begin end' (begin_ t) (end_ t) (rootNode_ t)
         toUpdate ;;
  Done (withRoot t n).

(** [std::out_of_range], with the text of [what()]. *)
Inductive exception : Type :=
| out_of_range (what : string).

(** [messageStream << key] for a [KeyT] that the stream prints as a decimal
    number: every integral type but the character types and [bool], which
    the stream prints as a character and as [0] or [1]. *)
Definition showKey (key : Z) : string :=
  NilZero.string_of_int (Z.to_int key).

(** [messageStream << "Get operation for " << key << ", which is out of range."],
    for a [KeyT] that the stream prints as a decimal number. *)
Definition getMessage (key : Z) : string :=
  ("Get operation for " ++ showKey key ++ ", which is out of range.")%string.

(** [get(key)]: a value or a thrown exception, and the tree afterwards. *)
Definition get (t : DynamicSegmentTree) (key : Z)
    : outcome ((T + exception) * DynamicSegmentTree) :=
  if (key >=? end_ t) || (key <? begin_ t) then
    Done (inr (out_of_range (getMessage key)), t)
  else
    vn <- getImpl_ (S (height (rootNode_ t))) key (begin_ t) (end_ t)
            (rootNode_ t) ;;
    Done (inl (fst vn), withRoot t (snd vn)).

(** [rangeGet(begin, end)]. *)
Definition rangeGet (t : DynamicSegmentTree) (begin end' : Z)
    : outcome (G * DynamicSegmentTree) :=
  gn <- rangeGetImpl_ (spanFuel t) begin end' (begin_ t) (end_ t) (rootNode_ t) ;;
  Done (fst gn, withRoot t (snd gn)).

(** *** Invariants of the tree *)

(** A node that has children spans at least two keys: a span is split only
    where a range meets it without covering it. *)
Fixpoint spansSplit (s : Shape) (currBegin currEnd : Z) : Prop :=
  match s with
  | SLeaf => True
  | SInner l r =>
      currBegin + 2 <= currEnd /\
      spansSplit l currBegin (midpoint currBegin currEnd) /\
      spansSplit r (midpoint currBegin currEnd) currEnd
  end.

Definition wellFormed (n : Node) (currBegin currEnd : Z) : Prop :=
  leavesClean n /\ spansSplit (shape n) currBegin currEnd.

Definition inRange (b e k : Z) : bool := (b <=? k) && (k <? e).

(** *** What a range query is to return *)

(** The aggregate of the keys [lb], ..., [lb + m], one initialised segment per
    key, combined from the left: the result for [lb .. lb + m - 1] is
    combined with the segment of the key [lb + m]. *)
Fixpoint aggregate (f : Z -> T) (lb : Z) (m : nat) : G :=
  match m with
  | O => initGet_ lb (lb + 1) (f lb)
  | S m' =>
      let k := lb + Z.of_nat m in
      combineGet_ (aggregate f lb m') (initGet_ k (k + 1) (f k)) lb k (k + 1)
  end.

Definition aggregateOver (f : Z -> T) (lb re : Z) : G :=
  aggregate f lb (Z.to_nat (re - lb - 1)).

(** The requirements of section 3 on the functors of a range query: the
    combiner is associative, and the initializer of a span filled with one
    value agrees with combining the initialised parts of the span. *)
Definition combinerAssociative : Prop :=
  forall (x y z : G) (l m1 m2 r : Z),
    l < m1 < m2 -> m2 < r ->
    combineGet_ (combineGet_ x y l m1 m2) z l m2 r =
    combineGet_ x (combineGet_ y z m1 m2 r) l m1 r.

Definition initializerConsistent : Prop :=
  forall (v : T) (l m r : Z),
    l < m < r ->
    initGet_ l r v = combineGet_ (initGet_ l m v) (initGet_ m r v) l m r.

End Tree.

End DST.

(** ** The naive reference

    One value per key of [begin, end), kept in a list in key order: [set]
    assigns to every key of the range, [update] applies the update operator
    to every key of the range, [get] reads one key, and [rangeGet] folds the
    initialised keys of the range from the left with the combiner. *)

Module Reference.

Section Ref.

Context {T A G : Type}.
Variable updateOp : T -> A -> T.
Variable initGet_ : Z -> Z -> T -> G.
Variable combineGet_ : G -> G -> Z -> Z -> Z -> G.

Record NaiveReference : Type := mkRef {
  refBegin : Z;
  values : list T
}.

Definition make (begin end' : Z) (value : T) : NaiveReference :=
  mkRef begin (repeat value (Z.to_nat (end' - begin))).

(** [f] on the values of the keys in [b, e); [key] is the key of the head. *)
Fixpoint onRange (f : T -> T) (b e key : Z) (vals : list T) : list T :=
  match vals with
  | [] => []
  | x :: rest =>
      (if (b <=? key) && (key <? e) then f x else x)
        :: onRange f b e (key + 1) rest
  end.

Definition set (r : NaiveReference) (b e : Z) (v : T) : NaiveReference :=
  mkRef (refBegin r) (onRange (fun _ => v) b e (refBegin r) (values r)).

Definition update (r : NaiveReference) (b e : Z) (a : A) : NaiveReference :=
  mkRef (refBegin r) (onRange (fun x => updateOp x a) b e (refBegin r) (values r)).

Definition get (r : NaiveReference) (k : Z) : option T :=
  if k <? refBegin r then None
  else nth_error (values r) (Z.to_nat (k - refBegin r)).

(** The values of the keys [k], [k + 1], ... combined into [acc] one by one;
    [lb] is the first key of the query. *)
Fixpoint foldKeys (acc : G) (lb k : Z) (vals : list T) : G :=
  match vals with
  | [] => acc
  | x :: rest =>
      foldKeys (combineGet_ acc (initGet_ k (k + 1) x) lb k (k + 1)) lb (k + 1) rest
  end.

Definition rangeGet (r : NaiveReference) (b e : Z) : option G :=
  match firstn (Z.to_nat (e - b)) (skipn (Z.to_nat (b - refBegin r)) (values r)) with
  | [] => None
  | x :: rest => Some (foldKeys (initGet_ b (b + 1) x) b (b + 1) rest)
  end.

End Ref.

End Reference.

(** ** Sequences of calls *)

Module Calls.

Section Run.

Context {K : KeyT} {T A G : Type}.
Variable updateOp : T -> A -> T.
Variable initGet_ : Z -> Z -> T -> G.
Variable combineGet_ : G -> G -> Z -> Z -> Z -> G.

Inductive call : Type :=
| CallSet (b e : Z) (v : T)
| CallSetRvalue (b e : Z) (v : T)
| CallUpdate (b e : Z) (a : A)
| CallGet (k : Z)
| CallRangeGet (b e : Z).

(** The contract of the calls on a tree over [begin, end): a non-empty
    range of [set] meets the tree (the assertions of [setImpl_]); the range
    of [rangeGet] is non-empty and inside the tree. *)
Definition inContract (begin end' : Z) (c : call) : Prop :=
  match c with
  | CallSet b e _ | CallSetRvalue b e _ => b < e -> begin < e /\ b < end'
  | CallUpdate _ _ _ => True
  | CallGet _ => True
  | CallRangeGet b e => begin <= b /\ b < e /\ e <= end'
  end.

(** One call on the tree; the answer is dropped, the tree is kept. *)
Definition runCall (t : DST.DynamicSegmentTree (T:=T) (A:=A)) (c : call)
    : outcome DST.DynamicSegmentTree :=
  match c with
  | CallSet b e v => DST.set updateOp t b e v
  | CallSetRvalue b e v => DST.set_rvalue updateOp t b e v
  | CallUpdate b e a => DST.update updateOp t b e a
  | CallGet k => r <- DST.get updateOp t k ;; Done (snd r)
  | CallRangeGet b e =>
      r <- DST.rangeGet updateOp initGet_ combineGet_ t b e ;; Done (snd r)
  end.

Fixpoint runCalls (t : DST.DynamicSegmentTree) (cs : list call)
    : outcome DST.DynamicSegmentTree :=
  match cs with
  | [] => Done t
  | c :: rest => t' <- runCall t c ;; runCalls t' rest
  end.

(** The same calls on the reference; the queries do not change it. *)
Definition refCall (r : Reference.NaiveReference (T:=T)) (c : call)
    : Reference.NaiveReference :=
  match c with
  | CallSet b e v | CallSetRvalue b e v => Reference.set r b e v
  | CallUpdate b e a => Reference.update updateOp r b e a
  | CallGet _ | CallRangeGet _ _ => r
  end.

Definition refCalls (r : Reference.NaiveReference) (cs : list call)
    : Reference.NaiveReference :=
  fold_left refCall cs r.

(** What a query answers, without the tree it leaves. *)
Definition answer {X Y : Type} (c : outcome (X * Y)) : option X :=
  match c with
  | Done (x, _) => Some x
  | AssertFailed | OutOfFuel => None
  end.

End Run.

End Calls.

(** ** The tree with a nullary update

    The members of [DynamicSegmentTree] are templates in the node: at
    [Node_ = Node<ValueT, bool, Allocator>] they are the same text over the
    node with a flag. *)

Module NullaryTree.

Section Tree.

Context {K : KeyT} {T G : Type}.

(** [UpdateOp], as [updateOp_(value)]. *)
Variable updateOp : T -> T.
Variable initGet_ : Z -> Z -> T -> G.
Variable combineGet_ : G -> G -> Z -> Z -> Z -> G.

Notation Node := (Nullary.Node T).

Record DynamicSegmentTree : Type := mkTree {
  rootNode_ : Node;
  begin_ : Z;
  end_ : Z
}.

Definition make (begin end' : Z) (value : T) : DynamicSegmentTree :=
  mkTree (Nullary.Leaf value false) begin end'.

Definition isLeaf (n : Node) : bool :=
  match n with
  | Nullary.Leaf _ _ => true
  | Nullary.Inner _ _ _ => false
  end.

Definition getValue (n : Node) : outcome T :=
  match n with
  | Nullary.Leaf v _ => Done v
  | Nullary.Inner _ _ _ => AssertFailed
  end.

Definition initChildrenIfLeaf (n : Node) : outcome Node :=
  if isLeaf n then Nullary.initChildren n else Done n.

(** Modelled from the spec: [optionalSiftNodeUpdate_], as for the tree with
    an update argument. *)
Definition optionalSiftNodeUpdate_ (n : Node) : outcome Node :=
  Nullary.siftOptUpdate updateOp n.

(** [setImpl_] at this node. *)
Fixpoint setImpl_ (fuel : nat) (begin end' currBegin currEnd : Z)
    (currNode : Node) (toUpdate : T) : outcome Node :=
  match fuel with
  | O => OutOfFuel
  | S fuel' =>
      _ <- assert (currBegin <? end') ;;
      _ <- assert (currEnd >? begin) ;;
      _ <- assert (begin <? end') ;;
      if (end' >=? currEnd) && (begin <=? currBegin) then
        Done (Nullary.setValue toUpdate currNode)
      else
        n1 <- initChildrenIfLeaf currNode ;;
        let mid := midpoint currBegin currEnd in
        n2 <- optionalSiftNodeUpdate_ n1 ;;
        match n2 with
        | Nullary.Leaf _ _ => AssertFailed
        | Nullary.Inner l r u =>
            l' <- (if mid >? begin
                   then setImpl_ fuel' begin end' currBegin mid l toUpdate
                   else Done l) ;;
            r' <- (if mid <? end'
                   then setImpl_ fuel' begin end' mid currEnd r toUpdate
                   else Done r) ;;
            Done (Nullary.Inner l' r' u)
        end
  end.

(** Modelled from the spec: [updateImpl_] without an argument, as
    [DST.updateImpl_] with [currNode->update(updateOp_)] on a covered node. *)
Fixpoint updateImpl_ (fuel : nat) (begin end' currBegin currEnd : Z)
    (currNode : Node) : outcome Node :=
  match fuel with
  | O => OutOfFuel
  | S fuel' =>
      if (begin >=? currEnd) || (currBegin >=? end') then Done currNode
      else if (end' >=? currEnd) && (begin <=? currBegin) then
        Done (Nullary.update updateOp currNode)
      else
        n1 <- initChildrenIfLeaf currNode ;;
        let mid := midpoint currBegin currEnd in
        n2 <- optionalSiftNodeUpdate_ n1 ;;
        match n2 with
        | Nullary.Leaf _ _ => AssertFailed
        | Nullary.Inner l r u =>
            l' <- (if mid >? begin
                   then updateImpl_ fuel' begin end' currBegin mid l
                   else Done l) ;;
            r' <- (if mid <? end'
                   then updateImpl_ fuel' begin end' mid currEnd r
                   else Done r) ;;
            Done (Nullary.Inner l' r' u)
        end
  end.

(** [getImpl_] at this node. *)
Fixpoint getImpl_ (fuel : nat) (key currBegin currEnd : Z) (currNode : Node)
    : outcome (T * Node) :=
  match fuel with
  | O => OutOfFuel
  | S fuel' =>
      if isLeaf currNode then
        v <- getValue currNode ;;
        Done (v, currNode)
      else
        n <- optionalSiftNodeUpdate_ currNode ;;
        match n with
        | Nullary.Leaf _ _ => AssertFailed
        | Nullary.Inner l r u =>
            let mid := midpoint currBegin currEnd in
            if key >=? mid then
              vr <- getImpl_ fuel' key mid currEnd r ;;
              Done (fst vr, Nullary.Inner l (snd vr) u)
            else
              vl <- getImpl_ fuel' key currBegin mid l ;;
              Done (fst vl, Nullary.Inner (snd vl) r u)
        end
  end.

(** [rangeGetImpl_] at this node. *)
Fixpoint rangeGetImpl_ (fuel : nat) (begin end' currBegin currEnd : Z)
    (currNode : Node) : outcome (G * Node) :=
  match fuel with
  | O => OutOfFuel
  | S fuel' =>
      if (begin >? currEnd) || (currBegin >? end') then AssertFailed
      else if (end' >=? currEnd) && (begin <=? currBegin) && isLeaf currNode
      then
        v <- getValue currNode ;;
        Done (initGet_ currBegin currEnd v, currNode)
      else
        n1 <- initChildrenIfLeaf currNode ;;
        n2 <- optionalSiftNodeUpdate_ n1 ;;
        let mid := midpoint currBegin currEnd in
        match n2 with
        | Nullary.Leaf _ _ => AssertFailed
        | Nullary.Inner l r u =>
            if begin >=? mid then
              gr <- rangeGetImpl_ fuel' begin end' mid currEnd r ;;
              Done (fst gr, Nullary.Inner l (snd gr) u)
            else if end' <=? mid then
              gl <- rangeGetImpl_ fuel' begin end' currBegin mid l ;;
              Done (fst gl, Nullary.Inner (snd gl) r u)
            else
              rVal <- rangeGetImpl_ fuel' begin end' mid currEnd r ;;
              lVal <- rangeGetImpl_ fuel' begin end' currBegin mid l ;;
              Done (combineGet_ (fst lVal) (fst rVal)
                      (Z.max currBegin begin) mid (Z.min currEnd end'),
                    Nullary.Inner (snd lVal) (snd rVal) u)
        end
  end.

Definition spanFuel (t : DynamicSegmentTree) : nat :=
  S (Z.to_nat (end_ t - begin_ t)).

Fixpoint height (n : Node) : nat :=
  match n with
  | Nullary.Leaf _ _ => 0
  | Nullary.Inner l r _ => S (Nat.max (height l) (height r))
  end.

Definition withRoot (t : DynamicSegmentTree) (n : Node) : DynamicSegmentTree :=
  mkTree n (begin_ t) (end_ t).

(** [set(begin, end, toSet)]. *)
Definition set (t : DynamicSegmentTree) (begin end' : Z) (toSet : T)
    : outcome DynamicSegmentTree :=
  if begin <? end' then
    n <- setImpl_ (spanFuel t) begin end' (begin_ t) (end_ t) (rootNode_ t) toSet ;;
    Done (withRoot t n)
  else Done t.

(** [update(begin, end)]. *)
Definition update (t : DynamicSegmentTree) (begin end' : Z)
    : outcome DynamicSegmentTree :=
  n <- updateImpl_ (spanFuel t) begin end' (begin_ t) (end_ t) (rootNode_ t) ;;
  Done (withRoot t n).

(** [get(key)]. *)
Definition get (t : DynamicSegmentTree) (key : Z)
    : outcome ((T + DST.exception) * DynamicSegmentTree) :=
  if (key >=? end_ t) || (key <? begin_ t) then
    Done (inr (DST.out_of_range (DST.getMessage key)), t)
  else
    vn <- getImpl_ (S (height (rootNode_ t))) key (begin_ t) (end_ t)
            (rootNode_ t) ;;
    Done (inl (fst vn), withRoot t (snd vn)).

(** [rangeGet(begin, end)]. *)
Definition rangeGet (t : DynamicSegmentTree) (begin end' : Z)
    : outcome (G * DynamicSegmentTree) :=
  gn <- rangeGetImpl_ (spanFuel t) begin end' (begin_ t) (end_ t) (rootNode_ t) ;;
  Done (fst gn, withRoot t (snd gn)).

(** The calls on this tree: [CallUpdate b e tt] is [update(b, e)]. *)
Definition runCall (t : DynamicSegmentTree) (c : Calls.call (T:=T) (A:=unit))
    : outcome DynamicSegmentTree :=
  match c with
  | Calls.CallSet b e v | Calls.CallSetRvalue b e v => set t b e v
  | Calls.CallUpdate b e _ => update t b e
  | Calls.CallGet k => r <- get t k ;; Done (snd r)
  | Calls.CallRangeGet b e => r <- rangeGet t b e ;; Done (snd r)
  end.

Fixpoint runCalls (t : DynamicSegmentTree) (cs : list (Calls.call (T:=T) (A:=unit)))
    : outcome DynamicSegmentTree :=
  match cs with
  | [] => Done t
  | c :: rest => t' <- runCall t c ;; runCalls t' rest
  end.

End Tree.

End NullaryTree.

(** ** What a tree stands for *)

Module Abstraction.

Section Abs.

Context {K : KeyT} {T A G : Type}.
Variable updateOp : T -> A -> T.
Variable initGet_ : Z -> Z -> T -> G.
Variable combineGet_ : G -> G -> Z -> Z -> Z -> G.

Notation Tree := (DST.DynamicSegmentTree (T:=T) (A:=A)).
Notation runCalls := (Calls.runCalls updateOp initGet_ combineGet_).

(** The keys [lb], [lb + 1], ..., [n] of them. *)
Fixpoint keyRange (lb : Z) (n : nat) : list Z :=
  match n with
  | O => []
  | S n' => lb :: keyRange (lb + 1) n'
  end.

(** What the tree says about each of its keys, in key order. *)
Definition contents (t : Tree) : list T :=
  map (valueAt updateOp (DST.rootNode_ t) (DST.begin_ t) (DST.end_ t))
      (keyRange (DST.begin_ t) (Z.to_nat (DST.end_ t - DST.begin_ t))).

Definition abstraction (t : Tree) : Reference.NaiveReference :=
  Reference.mkRef (DST.begin_ t) (contents t).

Definition invariant (t : Tree) : Prop :=
  DST.wellFormed (DST.rootNode_ t) (DST.begin_ t) (DST.end_ t).

Definition sameBounds (t t' : Tree) : Prop :=
  DST.begin_ t' = DST.begin_ t /\ DST.end_ t' = DST.end_ t.

(** The states of a tree: what construction and in-contract calls lead to. *)
Definition reachable (t : Tree) : Prop :=
  exists (begin end' : Z) (v0 : T) (cs : list Calls.call),
    Forall (Calls.inContract begin end') cs /\
    runCalls (DST.make begin end' v0) cs = Done t.

End Abs.

End Abstraction.

(** ** The tree of [include/dynamic_segment_tree.hpp]

    The older header.  Its node class ([node.hpp] at the top of include/) is
    not among the sources: the walks below take the member functions of the
    node that they call ([siftDown], [setValue], [update]) as parameters; the
    children that [getLeft()] and [getRight()] point to are those of the
    node after [siftDown]. *)

Module Legacy.

Section Tree.

Context {K : KeyT} {T : Type}.

(** In this header the argument of an update is a [ValueT]. *)
Notation Node := (Node T T).

(** [currNode->siftDown()], [currNode->setValue(toUpdate)] and
    [currNode->update(toUpdate)]. *)
Variable nodeSiftDown : Node -> Node.
Variable nodeSetValue : T -> Node -> Node.
Variable nodeUpdate : T -> Node -> Node.

(** [ValueT{}]. *)
Variable valueInit : T.

Record DynamicSegmentTree : Type := mkTree {
  _rootNode : Node;
  _begin : Z;
  _end : Z
}.

Definition make (begin end' : Z) (value : T) : DynamicSegmentTree :=
  mkTree (Leaf value None) begin end'.

(** [_setImpl(begin, end, currBegin, currEnd, currNode, toUpdate)]. *)
Fixpoint _setImpl (fuel : nat) (begin end' currBegin currEnd : Z)
    (currNode : Node) (toUpdate : T) : outcome Node :=
  match fuel with
  | O => OutOfFuel
  | S fuel' =>
      if (begin >=? currEnd) || (currBegin >=? end') then Done currNode
      else if (end' >=? currEnd) && (begin <=? currBegin) then
        Done (nodeSetValue toUpdate currNode)
      else
        let m := midpoint currBegin currEnd in
        match nodeSiftDown currNode with
        | Leaf _ _ => AssertFailed
        | Inner l r u =>
            l' <- (if m >=? currBegin + 1
                   then _setImpl fuel' begin end' currBegin m l toUpdate
                   else Done l) ;;
            r' <- (if currEnd >=? begin + 1
                   then _setImpl fuel' begin end' m currEnd r toUpdate
                   else Done r) ;;
            Done (Inner l' r' u)
        end
  end.

(** The recursion of [_setImpl] as section 9 of the specification corrects
    it: the left branch under [m > begin], the right branch under
    [m < end]. *)
Fixpoint _setImpl_corrected (fuel : nat) (begin end' currBegin currEnd : Z)
    (currNode : Node) (toUpdate : T) : outcome Node :=
  match fuel with
  | O => OutOfFuel
  | S fuel' =>
      if (begin >=? currEnd) || (currBegin >=? end') then Done currNode
      else if (end' >=? currEnd) && (begin <=? currBegin) then
        Done (nodeSetValue toUpdate currNode)
      else
        let m := midpoint currBegin currEnd in
        match nodeSiftDown currNode with
        | Leaf _ _ => AssertFailed
        | Inner l r u =>
            l' <- (if m >? begin
                   then _setImpl_corrected fuel' begin end' currBegin m l toUpdate
                   else Done l) ;;
            r' <- (if m <? end'
                   then _setImpl_corrected fuel' begin end' m currEnd r toUpdate
                   else Done r) ;;
            Done (Inner l' r' u)
        end
  end.

(** [_updateImpl(begin, end, currBegin, currEnd, currNode, toUpdate)]. *)
Fixpoint _updateImpl (fuel : nat) (begin end' currBegin currEnd : Z)
    (currNode : Node) (toUpdate : T) : outcome Node :=
  match fuel with
  | O => OutOfFuel
  | S fuel' =>
      if (begin >=? currEnd) || (currBegin >=? end') then Done currNode
      else if (end' >=? currEnd) && (begin <=? currBegin) then
        Done (nodeUpdate toUpdate currNode)
      else
        let m := midpoint currBegin currEnd in
        match nodeSiftDown currNode with
        | Leaf _ _ => AssertFailed
        | Inner l r u =>
            l' <- (if m >=? currBegin + 1
                   then _updateImpl fuel' begin end' currBegin m l toUpdate
                   else Done l) ;;
            r' <- (if currEnd >=? m + 1
                   then _updateImpl fuel' begin end' m currEnd r toUpdate
                   else Done r) ;;
            Done (Inner l' r' u)
        end
  end.

(** [_getImpl(key, currBegin, currEnd, currNode)]. *)
Fixpoint _getImpl (fuel : nat) (key currBegin currEnd : Z) (currNode : Node)
    : outcome (T * Node) :=
  match fuel with
  | O => OutOfFuel
  | S fuel' =>
      match currNode with
      | Leaf v _ => Done (v, currNode)
      | Inner _ _ _ =>
          match nodeSiftDown currNode with
          | Leaf _ _ => AssertFailed
          | Inner l r u =>
              let m := midpoint currBegin currEnd in
              if key >=? m then
                vr <- _getImpl fuel' key m currEnd r ;;
                Done (fst vr, Inner l (snd vr) u)
              else
                vl <- _getImpl fuel' key currBegin m l ;;
                Done (fst vl, Inner (snd vl) r u)
          end
      end
  end.

Definition spanFuel (t : DynamicSegmentTree) : nat :=
  S (Z.to_nat (_end t - _begin t)).

Definition withRoot (t : DynamicSegmentTree) (n : Node) : DynamicSegmentTree :=
  mkTree n (_begin t) (_end t).

(** [set(begin, end, toUpdate)]: no test of the range before the walk. *)
Definition set (t : DynamicSegmentTree) (begin end' : Z) (toUpdate : T)
    : outcome DynamicSegmentTree :=
  n <- _setImpl (spanFuel t) begin end' (_begin t) (_end t) (_rootNode t) toUpdate ;;
  Done (withRoot t n).

(** [update(begin, end, toUpdate)]. *)
Definition update (t : DynamicSegmentTree) (begin end' : Z) (toUpdate : T)
    : outcome DynamicSegmentTree :=
  n <- _updateImpl (spanFuel t) begin end' (_begin t) (_end t) (_rootNode t)
         toUpdate ;;
  Done (withRoot t n).

(** [get(key)]: returns a [ValueT] by value; out of the key range it is
    [ValueT{}]. *)
Definition get (t : DynamicSegmentTree) (key : Z)
    : outcome (T * DynamicSegmentTree) :=
  if (key >=? _end t) || (key <? _begin t) then Done (valueInit, t)
  else
    vn <- _getImpl (S (DST.height (_rootNode t))) key (_begin t) (_end t)
            (_rootNode t) ;;
    Done (fst vn, withRoot t (snd vn)).

End Tree.

Section NodeModel.

Context {T : Type}.
Variable updateOp : T -> T -> T.

(** Modelled from the spec: [Node::siftDown] of the older node class, which
    is not among the sources.  The walks take the children right after it
    and never ask [isLeaf] first, so it is the step that gives a leaf its
    children ([init_children] of 4.2) and pushes a pending update down
    ([sift] of 4.2). *)
Definition siftDown (n : Node T T) : Node T T :=
  match n with
  | Leaf v u =>
      match u with
      | Some a => Inner (Impl.update updateOp a (Leaf v None))
                        (Impl.update updateOp a (Leaf v None)) None
      | None => Inner (Leaf v None) (Leaf v None) None
      end
  | Inner l r u =>
      match u with
      | Some a => Inner (Impl.update updateOp a l) (Impl.update updateOp a r) None
      | None => Inner l r None
      end
  end.

End NodeModel.

Section Values.

Context {K : KeyT} {T : Type}.
Variable updateOp : T -> T -> T.

(** Two runs of a walk over the span [currBegin, currEnd) end alike: both
    return, and the nodes they leave stand for the same value at every key
    of the span, or neither returns. *)
Definition sameValues (currBegin currEnd : Z) (o1 o2 : outcome (Node T T))
    : Prop :=
  match o1, o2 with
  | Done n1, Done n2 =>
      forall k, currBegin <= k < currEnd ->
        valueAt updateOp n1 currBegin currEnd k =
        valueAt updateOp n2 currBegin currEnd k
  | AssertFailed, AssertFailed => True
  | OutOfFuel, OutOfFuel => True
  | _, _ => False
  end.

End Values.

End Legacy.

(** ** [BaseNode::initChildrenSiftingValue], statement by statement

    The storage the routine works on and the ways it can throw.  The
    allocator throws when it has no block left.  Copy construction takes its
    source by reference to const: it yields the copy or throws, and whether
    it throws may differ from one copy to the next (a copy allocates).  Move
    construction takes its source as an rvalue: what it leaves there, also
    when it throws, is up to [T]. *)

Module InitChildren.

Section Storage.

Context {T : Type}.

Inductive copied : Type :=
| CopyOk (copy : T)
| CopyThrows.

Inductive moved : Type :=
| MoveOk (target source : T)
| MoveThrows (source : T).

(** [T(const T&)], [T(T&&)] and [std::move_constructible<T>].  The first
    argument of [copyConstruct] counts the copies the call has made so far. *)
Variable copyConstruct : nat -> T -> copied.
Variable moveConstruct : T -> moved.
Variable move_constructible : bool.

(** A slot of the two-node block: whether a [Derived_] object lives there,
    and the value that lives in its buffer, if any. *)
Record Slot : Type := mkSlot {
  object : bool;
  held : option T
}.

Definition emptySlot : Slot := mkSlot false None.

(** The node, its block and the allocator. *)
Record Storage : Type := mkStorage {
  ptr : bool;              (* [ptr != nullptr] *)
  buffer : option T;       (* the value that lives in [buffer_], if any *)
  leftSlot : Slot;         (* [ptr[0]] *)
  rightSlot : Slot;        (* [ptr[1]] *)
  handedOut : nat;         (* blocks allocated and not yet deallocated *)
  free : nat;              (* blocks the allocator can still give *)
  leaked : nat             (* objects that were alive when their storage went *)
}.

Definition leaf (v : T) (out avail : nat) : Storage :=
  mkStorage false (Some v) emptySlot emptySlot out avail 0.

Inductive exit : Type :=
| Returns
| Throws.

(** [AllocTraits_::allocate(allocator, 2)]. *)
Definition allocate (s : Storage) : exit * Storage :=
  match free s with
  | O => (Throws, s)
  | S k =>
      (Returns,
       mkStorage (ptr s) (buffer s) (leftSlot s) (rightSlot s)
         (S (handedOut s)) k (leaked s))
  end.

Definition alive (c : Slot) : nat :=
  ((if object c then 1 else 0) + (match held c with Some _ => 1 | None => 0 end))%nat.

(** [AllocTraits_::deallocate(allocator, ptr, 2)]: the storage of the block
    goes, with whatever still lives in it. *)
Definition deallocate (s : Storage) : Storage :=
  mkStorage (ptr s) (buffer s) emptySlot emptySlot
    (pred (handedOut s)) (S (free s))
    (leaked s + alive (leftSlot s) + alive (rightSlot s)).

Definition setPtr (p : bool) (s : Storage) : Storage :=
  mkStorage p (buffer s) (leftSlot s) (rightSlot s)
    (handedOut s) (free s) (leaked s).

Definition setBuffer (b : option T) (s : Storage) : Storage :=
  mkStorage (ptr s) b (leftSlot s) (rightSlot s)
    (handedOut s) (free s) (leaked s).

Definition setLeft (c : Slot) (s : Storage) : Storage :=
  mkStorage (ptr s) (buffer s) c (rightSlot s)
    (handedOut s) (free s) (leaked s).

Definition setRight (c : Slot) (s : Storage) : Storage :=
  mkStorage (ptr s) (buffer s) (leftSlot s) c
    (handedOut s) (free s) (leaked s).

(** [std::construct_at(getLeft())] and [std::construct_at(getRight())]: a
    node without children and without a value in its buffer. *)
Definition constructLeft (s : Storage) : Storage :=
  setLeft (mkSlot true (held (leftSlot s))) s.

Definition constructRight (s : Storage) : Storage :=
  setRight (mkSlot true (held (rightSlot s))) s.

(** [std::destroy_at(getLeft())] and [std::destroy_at(getRight())]: the
    destructor of a node does nothing to the buffer. *)
Definition destroyLeft (s : Storage) : Storage :=
  setLeft (mkSlot false (held (leftSlot s))) s.

Definition destroyRight (s : Storage) : Storage :=
  setRight (mkSlot false (held (rightSlot s))) s.

(** [std::destroy_at(getLeft()->getValuePtr())]. *)
Definition destroyLeftValue (s : Storage) : Storage :=
  setLeft (mkSlot (object (leftSlot s)) None) s.

(** [std::construct_at(getLeft()->getValuePtr(), getValue())]. *)
Definition copyIntoLeft (v : T) (s : Storage) : exit * Storage :=
  match copyConstruct 0 v with
  | CopyOk c => (Returns, setLeft (mkSlot (object (leftSlot s)) (Some c)) s)
  | CopyThrows => (Throws, s)
  end.

(** [std::construct_at(getRight()->getValuePtr(), std::move(getValue()))]
    when [T] is move constructible, a copy otherwise. *)
Definition moveIntoRight (v : T) (s : Storage) : exit * Storage :=
  if move_constructible then
    match moveConstruct v with
    | MoveOk target source =>
        (Returns,
         setBuffer (Some source)
           (setRight (mkSlot (object (rightSlot s)) (Some target)) s))
    | MoveThrows source => (Throws, setBuffer (Some source) s)
    end
  else
    match copyConstruct 1 v with
    | CopyOk c => (Returns, setRight (mkSlot (object (rightSlot s)) (Some c)) s)
    | CopyThrows => (Throws, s)
    end.

(** [initChildrenSiftingValue(allocator)]. *)
Definition initChildrenSiftingValue (s : Storage) : outcome (exit * Storage) :=
  _ <- assert (negb (ptr s)) ;;
  match buffer s with
  | None => AssertFailed
  | Some v =>
      match allocate s with
      | (Throws, s0) => Done (Throws, s0)
      | (Returns, s1) =>
          let s2 := setPtr true s1 in
          let s3 := constructLeft s2 in
          match copyIntoLeft v s3 with
          | (Throws, s4) =>
              Done (Throws, setPtr false (deallocate (destroyLeft s4)))
          | (Returns, s4) =>
              let s5 := constructRight s4 in
              match moveIntoRight v s5 with
              | (Throws, s6) =>
                  Done (Throws,
                        setPtr false
                          (deallocate
                             (destroyRight (destroyLeft (destroyLeftValue s6)))))
              | (Returns, s6) =>
                  Done (Returns, setBuffer None s6)
              end
          end
      end
  end.

End Storage.

(** A value type whose move constructor can throw after it has taken the
    text out of its source:
    [struct P { std::string s; bool fragile;
                P(const P&) = default;
                P(P&& o) : s(std::move(o.s)), fragile(o.fragile)
                  { if (fragile) throw std::runtime_error("fragile"); } };] *)
Definition P : Type := (string * bool)%type.

Definition copyP (_ : nat) (p : P) : copied := CopyOk p.

(** A copy constructor that throws at the second copy a call makes: the
    copies allocate, and memory suffices for one. *)
Definition copyOnce (made : nat) (p : P) : copied :=
  match made with
  | O => CopyOk p
  | S _ => CopyThrows
  end.

Definition moveP (p : P) : moved :=
  if snd p then MoveThrows (EmptyString, snd p)
  else MoveOk p (EmptyString, snd p).

End InitChildren.

(** ** A configured tree: sums with an additive update

    [DynamicSegmentTree<Z, Z, Z, plus, (v, b, e) -> v * (e - b), plus, Z>]:
    the combiner adds, the initializer multiplies the value by the length of
    the span, and the update adds its argument. *)

Module SumTree.

Definition sumInit (b e v : Z) : Z := v * (e - b).

Definition sumCombine (l r : Z) (_ _ _ : Z) : Z := l + r.

Definition calls : list (Calls.call (T:=Z) (A:=Z)) :=
  [Calls.CallUpdate 15 37 18; Calls.CallRangeGet 5 30; Calls.CallSet 0 10 7;
   Calls.CallUpdate 20 41 14; Calls.CallGet 36; Calls.CallSetRvalue 40 50 1;
   Calls.CallUpdate 9 9 100].

(** A tree after a sequence of calls, for the tests. *)
Definition after {K : KeyT} (begin end' value : Z) (cs : list (Calls.call (T:=Z) (A:=Z)))
    : DST.DynamicSegmentTree :=
  match Calls.runCalls Z.add sumInit sumCombine (DST.make begin end' value) cs with
  | Done t => t
  | AssertFailed | OutOfFuel => DST.make begin end' value
  end.

(** A tree with nodes of several depths, one of them with a pending
    update. *)
Definition worked {K : KeyT} : DST.DynamicSegmentTree :=
  after 0 42 54
    [Calls.CallSet 3 9 1; Calls.CallUpdate 0 21 18; Calls.CallSet 30 31 2].

End SumTree.

(** ** A configured tree: minima

    The combiner takes the smaller result and the initializer is the
    identity. *)

Module MinTree.

Definition minInit (_ _ : Z) (v : Z) : Z := v.

Definition minCombine (l r : Z) (_ _ _ : Z) : Z := Z.min l r.

Definition ladder : list (Calls.call (T:=Z) (A:=Z)) :=
  [Calls.CallSet 41 42 10000000; Calls.CallSet 40 41 1000000;
   Calls.CallSet 39 40 100000; Calls.CallSet 38 39 10000;
   Calls.CallSet 37 38 1000; Calls.CallSet 36 37 100;
   Calls.CallSet 35 36 10; Calls.CallSet 34 35 1].

Definition after {K : KeyT} (begin end' value : Z) (cs : list (Calls.call (T:=Z) (A:=Z)))
    : DST.DynamicSegmentTree :=
  match Calls.runCalls Z.add minInit minCombine (DST.make begin end' value) cs with
  | Done t => t
  | AssertFailed | OutOfFuel => DST.make begin end' value
  end.

End MinTree.

(** ** A configured tree: negation

    [DynamicNegateSegmentTree]: the update takes no argument and negates the
    value. *)

Module NegateTree.

Definition negate (x : Z) : Z := - x.

Definition calls : list (Calls.call (T:=Z) (A:=unit)) :=
  [Calls.CallSet 0 1 5; Calls.CallUpdate 0 4 tt; Calls.CallSet 0 4 7;
   Calls.CallSet 0 1 9].

Definition after {K : KeyT} (begin end' value : Z) (cs : list (Calls.call (T:=Z) (A:=unit)))
    : NullaryTree.DynamicSegmentTree :=
  match NullaryTree.runCalls negate SumTree.sumInit SumTree.sumCombine
          (NullaryTree.make begin end' value) cs with
  | Done t => t
  | AssertFailed | OutOfFuel => NullaryTree.make begin end' value
  end.

End NegateTree.

(** ** More of the node: [setUpdateValue] and the copying of a subtree *)

Module Copy.

Section CopyOps.

Context {T A : Type}.

Notation Node := (Node T A).

(** [Node::setUpdateValue(updateValue)]: the slot is overwritten. *)
Definition setUpdateValue (updateValue : A) (n : Node) : outcome Node :=
  match n with
  | Leaf _ _ => AssertFailed
  | Inner l r _ => Done (Inner l r (Some updateValue))
  end.

(** The subtree with every pending slot emptied: its topology and the
    values in the buffers of its leaves. *)
Fixpoint clearUpdates (n : Node) : Node :=
  match n with
  | Leaf v _ => Leaf v None
  | Inner l r _ => Inner (clearUpdates l) (clearUpdates r) None
  end.

(** No node of the subtree has a pending update. *)
Fixpoint noPending (n : Node) : Prop :=
  match n with
  | Leaf _ u => u = None
  | Inner l r u => u = None /\ noPending l /\ noPending r
  end.

(** [copyToNewlyCreated(src, dest, nodeAlloc)].  [dest] has just been
    constructed: it has no children and nothing lives in its buffer, so all
    there is of it is its pending slot.  For a [src] with children this is
    [copyChildrenToNewlyCreated]: [initEmptyChildren] default-constructs the
    two children, whose slots are empty, and each is filled from the child
    of [src]. *)
Fixpoint copyToNewlyCreated (src : Node) (destUpdate : option A) : Node :=
  match src with
  | Leaf v _ => Leaf v destUpdate
  | Inner l r _ =>
      Inner (copyToNewlyCreated l None) (copyToNewlyCreated r None) destUpdate
  end.

(** [copyChildrenToNewlyCreated(src, dest, nodeAlloc)], with its
    [assert(!src.isLeaf())]. *)
Definition copyChildrenToNewlyCreated (src : Node) (destUpdate : option A)
    : outcome Node :=
  match src with
  | Leaf _ _ => AssertFailed
  | Inner _ _ _ => Done (copyToNewlyCreated src destUpdate)
  end.

(** [copySubtree(src, dest, nodeAllocator)], with [copyChildren] in the
    case where both nodes have children.  A leaf [dest] is assigned the
    value of a leaf [src], or gives up its value and gets new children; a
    [dest] with children drops them ([clearChildren]) for the value of a
    leaf [src].  No statement of the routine names a pending slot. *)
Fixpoint copySubtree (src dest : Node) : Node :=
  match src, dest with
  | Leaf v _, Leaf _ u => Leaf v u
  | Inner l r _, Leaf _ u =>
      Inner (copyToNewlyCreated l None) (copyToNewlyCreated r None) u
  | Leaf v _, Inner _ _ u => Leaf v u
  | Inner sl sr _, Inner dl dr u => Inner (copySubtree sl dl) (copySubtree sr dr) u
  end.

(** Blocks that [copySubtree] takes from the allocator and gives back. *)
Fixpoint copyAllocates (src dest : Node) : nat :=
  match src, dest with
  | Leaf _ _, _ => 0
  | Inner _ _ _, Leaf _ _ => allocatedBlocks src
  | Inner sl sr _, Inner dl dr _ => (copyAllocates sl dl + copyAllocates sr dr)%nat
  end.

Fixpoint copyDeallocates (src dest : Node) : nat :=
  match src, dest with
  | Leaf _ _, _ => (if isLeaf dest then 0 else clearChildren dest)%nat
  | Inner _ _ _, Leaf _ _ => 0
  | Inner sl sr _, Inner dl dr _ => (copyDeallocates sl dl + copyDeallocates sr dr)%nat
  end.

End CopyOps.

End Copy.

(** ** The forms of the functors of a range query

    [DynamicSegmentTreeRangeGetInitVariationBase] and
    [DynamicSegmentTreeRangeGetCombineVariationBase]: the functor takes the
    values alone, or the values and the borders. *)

Module RangeGetVariation.

Section Forms.

Context {T G : Type}.

(** [initGet_] over a [ValueGetInitializer]: [segInitializer_(val)]. *)
Definition initGet_value (segInitializer_ : T -> G) (_ _ : Z) (val : T) : G :=
  segInitializer_ val.

(** [initGet_] over a [ValueAndBordersGetInitializer]:
    [segInitializer_(val, begin, end)]. *)
Definition initGet_borders (segInitializer_ : T -> Z -> Z -> G)
    (begin end' : Z) (val : T) : G :=
  segInitializer_ val begin end'.

(** [combineGet_] over a [ValueGetCombiner]:
    [segCombiner_(leftValue, rightValue)]. *)
Definition combineGet_value (segCombiner_ : G -> G -> G)
    (leftValue rightValue : G) (_ _ _ : Z) : G :=
  segCombiner_ leftValue rightValue.

(** [combineGet_] over a [ValueAndBordersGetCombiner]. *)
Definition combineGet_borders (segCombiner_ : G -> G -> Z -> Z -> Z -> G)
    (leftValue rightValue : G) (leftBegin separation rightEnd : Z) : G :=
  segCombiner_ leftValue rightValue leftBegin separation rightEnd.

End Forms.

End RangeGetVariation.

(** ** The range query of the older tree *)

Module LegacyRangeGet.

Section Tree.

Context {K : KeyT} {T : Type}.

Notation Node := (Node T T).

(** [currNode->siftDown()], as in [Legacy]. *)
Variable nodeSiftDown : Node -> Node.

(** The two forms of [SegInitializer] and of [SegCombiner] that
    [if constexpr] tells apart. *)
Inductive SegInitializer : Type :=
| ValueSegmentInitializer (segInit : T -> T)
| ValueAndLengthSegmentInitializer (segInit : T -> Z -> T).

Inductive SegCombiner : Type :=
| ValueSegmentCombiner (segComb : T -> T -> T)
| ValueAndLengthCombiner (segComb : T -> T -> Z -> Z -> T).

Variable _segInitializer : SegInitializer.
Variable _segCombiner : SegCombiner.

(** [_segInitializer(value)] or [_segInitializer(value, length)]. *)
Definition initialize (value : T) (length : Z) : T :=
  match _segInitializer with
  | ValueSegmentInitializer segInit => segInit value
  | ValueAndLengthSegmentInitializer segInit => segInit value length
  end.

(** [_segCombiner(lVal, rVal)] or
    [_segCombiner(lVal, rVal, leftLength, rightLength)]. *)
Definition combine (lVal rVal : T) (leftLength rightLength : Z) : T :=
  match _segCombiner with
  | ValueSegmentCombiner segComb => segComb lVal rVal
  | ValueAndLengthCombiner segComb => segComb lVal rVal leftLength rightLength
  end.

(** [_rangeGetImpl(begin, end, currBegin, currEnd, currNode)]. *)
Fixpoint _rangeGetImpl (fuel : nat) (begin end' currBegin currEnd : Z)
    (currNode : Node) : outcome (T * Node) :=
  match fuel with
  | O => OutOfFuel
  | S fuel' =>
      if (begin >=? currEnd) || (currBegin >=? end') then AssertFailed
      else if (end' >=? currEnd) && (begin <=? currBegin) && isLeaf currNode
      then
        v <- DST.getValue currNode ;;
        Done (initialize v (currEnd - currBegin), currNode)
      else
        let m := midpoint currBegin currEnd in
        match nodeSiftDown currNode with
        | Leaf _ _ => AssertFailed
        | Inner l r u =>
            if begin >=? m then
              gr <- _rangeGetImpl fuel' begin end' m currEnd r ;;
              Done (fst gr, Inner l (snd gr) u)
            else if end' <=? m then
              gl <- _rangeGetImpl fuel' begin end' currBegin m l ;;
              Done (fst gl, Inner (snd gl) r u)
            else
              lVal <- _rangeGetImpl fuel' begin end' currBegin m l ;;
              rVal <- _rangeGetImpl fuel' begin end' m currEnd r ;;
              Done (combine (fst lVal) (fst rVal) (m - begin) (end' - m),
                    Inner (snd lVal) (snd rVal) u)
        end
  end.

(** [rangeGet(begin, end)]. *)
Definition rangeGet (t : Legacy.DynamicSegmentTree (T:=T)) (begin end' : Z)
    : outcome (T * Legacy.DynamicSegmentTree (T:=T)) :=
  gn <- _rangeGetImpl (Legacy.spanFuel t) begin end'
          (Legacy._begin t) (Legacy._end t) (Legacy._rootNode t) ;;
  Done (fst gn, Legacy.withRoot t (snd gn)).

End Tree.

End LegacyRangeGet.

(** ** The reference of the tests: [SumSegTreeReference]

    Its base class, which keeps the values, is not among the sources; the
    reader of a value, [_getValue], is a parameter.  [ValueT] is [int]. *)

Module SumSegTreeReference.

(** [for (KeyT i = begin; i < end; ++i) ret += this->_getValue(i);], with
    the number of rounds that are left.  [auto ret = 0] makes [ret] an
    [int]: each [ret += ...] takes the sum in the type of the values, here
    without a bound, and converts it back to [int]. *)
Fixpoint loop (_getValue : Z -> Z) (i : Z) (rounds : nat) (ret : Z) : Z :=
  match rounds with
  | O => ret
  | S rounds' =>
      loop _getValue (i + 1) rounds' (keyWrap (K:=int32) (ret + _getValue i))
  end.

(** [rangeGet(begin, end)]. *)
Definition rangeGet (_getValue : Z -> Z) (begin end' : Z) : Z :=
  loop _getValue begin (Z.to_nat (end' - begin)) 0.

(** No [ret += ...] of [rangeGet(begin, end)] leaves the range of [int]:
    the sum of the values of every initial piece of the range fits. *)
Definition sumsFit (_getValue : Z -> Z) (begin end' : Z) : Prop :=
  forall m : nat,
    (m < Z.to_nat (end' - begin))%nat ->
    keyMin (K:=int32) <= loop _getValue begin m 0 + _getValue (begin + Z.of_nat m)
      <= keyMax (K:=int32).

End SumSegTreeReference.

(** ** The meaning of a node with a flag *)

Module NullaryView.

Section View.

Context {K : KeyT} {T : Type}.
Variable updateOp : T -> T.

(** What a node with a flag says about a key, as [Impl.valueAt]: a set flag
    stands for one application of the operator to everything below. *)
Fixpoint valueAt (n : Nullary.Node T) (currBegin currEnd k : Z) : T :=
  match n with
  | Nullary.Leaf v _ => v
  | Nullary.Inner l r u =>
      let mid := midpoint currBegin currEnd in
      let below := if k >=? mid then valueAt r mid currEnd k
                   else valueAt l currBegin mid k in
      if u then updateOp below else below
  end.

End View.

End NullaryView.

(** ** Calls that the sources define in full

    [update] is the one call whose recursion is not among the sources. *)

Module SourceCalls.

Section Source.

Context {T A : Type}.

Inductive call : Type :=
| CallSet (b e : Z) (v : T)
| CallSetRvalue (b e : Z) (v : T)
| CallGet (k : Z)
| CallRangeGet (b e : Z).

Definition toCall (c : call) : Calls.call (T:=T) (A:=A) :=
  match c with
  | CallSet b e v => Calls.CallSet b e v
  | CallSetRvalue b e v => Calls.CallSetRvalue b e v
  | CallGet k => Calls.CallGet k
  | CallRangeGet b e => Calls.CallRangeGet b e
  end.

End Source.

End SourceCalls.

(** * Part II.  Their properties *)

(** ** The key type and the midpoint *)

Section KeyFacts.

Context {K : KeyT}.

Lemma keyMin_nonpos : keyMin <= 0.
Proof.
  unfold keyMin. destruct keySigned; [|lia].
  pose proof (Z.pow_pos_nonneg 2 (Z.pos keyBits - 1)). lia.
Qed.

Lemma keyWrap_range (x : Z) : keyMin <= keyWrap x <= keyMax.
Proof.
  unfold keyWrap, keyMax.
  assert (Hpow : 0 < 2 ^ Z.pos keyBits) by (apply Z.pow_pos_nonneg; lia).
  pose proof (Z.mod_pos_bound (x - keyMin) (2 ^ Z.pos keyBits) Hpow).
  lia.
Qed.

Lemma keyWrap_fits (x : Z) : keyMin <= x <= keyMax -> keyWrap x = x.
Proof.
  unfold keyWrap, keyMax. intros H.
  rewrite Z.mod_small by lia. lia.
Qed.

Lemma keyWrap_le (x : Z) : keyMin <= x -> keyWrap x <= x.
Proof.
  unfold keyWrap. intros H.
  assert (Hpow : 0 < 2 ^ Z.pos keyBits) by (apply Z.pow_pos_nonneg; lia).
  assert (Hx : 0 <= x - keyMin) by lia.
  pose proof (Z.mod_le (x - keyMin) (2 ^ Z.pos keyBits) Hx Hpow).
  lia.
Qed.

Lemma spanFits_sub (cb ce cb' ce' : Z) :
  spanFits cb ce -> cb <= cb' -> ce' <= ce -> spanFits cb' ce'.
Proof. unfold spanFits. lia. Qed.

(** Where the sum fits, the midpoint is the truncated half of the sum. *)
Lemma midpoint_fits (cb ce : Z) :
  spanFits cb ce -> cb <= ce -> midpoint cb ce = (cb + ce) ÷ 2.
Proof.
  unfold spanFits, midpoint. intros H Hle.
  rewrite keyWrap_fits by lia. reflexivity.
Qed.

Lemma midpoint_bounds (cb ce : Z) :
  spanFits cb ce -> cb + 2 <= ce -> cb < midpoint cb ce < ce.
Proof.
  intros Hfit H. rewrite midpoint_fits by (auto; lia).
  pose proof (Z.quot_rem' (cb + ce) 2) as Hq.
  pose proof (Z.rem_bound_abs (cb + ce) 2) as Hr.
  lia.
Qed.

Lemma midpoint_weak_bounds (cb ce : Z) :
  spanFits cb ce -> cb <= ce -> cb <= midpoint cb ce <= ce.
Proof.
  intros Hfit H. rewrite midpoint_fits by auto.
  pose proof (Z.quot_rem' (cb + ce) 2) as Hq.
  pose proof (Z.rem_bound_abs (cb + ce) 2) as Hr.
  lia.
Qed.

(** The two halves of a span fit with it. *)
Lemma spanFits_halves (cb ce : Z) :
  spanFits cb ce -> cb <= ce ->
  spanFits cb (midpoint cb ce) /\ spanFits (midpoint cb ce) ce.
Proof.
  intros Hfit H. pose proof (midpoint_weak_bounds cb ce Hfit H).
  split; eapply spanFits_sub; eauto; lia.
Qed.

(** Whatever the sum does, the midpoint of a span that ends above zero is
    below its end. *)
Lemma midpoint_below_end (cb ce : Z) :
  keyMin <= cb -> cb < ce -> 0 < ce ->
  keyMin <= midpoint cb ce < ce.
Proof.
  intros Hmin Hspan Hpos. unfold midpoint.
  pose proof keyMin_nonpos as Hk.
  pose proof (keyWrap_range (cb + ce)) as [Hlo _].
  assert (Hsum : keyMin <= cb + ce) by lia.
  pose proof (keyWrap_le (cb + ce) Hsum) as Hle.
  set (w := keyWrap (cb + ce)) in *.
  pose proof (Z.quot_rem' w 2) as Hq.
  pose proof (Z.rem_bound_abs w 2) as Hr.
  assert (Hw : w <= 0 \/ 0 < w) by lia.
  destruct Hw as [Hw|Hw].
  - pose proof (Z.rem_nonpos w 2 ltac:(lia) Hw). lia.
  - pose proof (Z.rem_nonneg w 2 ltac:(lia) ltac:(lia)). lia.
Qed.

End KeyFacts.

(** ** The node operations *)

Module ImplFacts.

Section NodeOps.

Context {K : KeyT} {T A : Type}.
Variable updateOp : T -> A -> T.

Notation Node := (Node T A).
Notation update := (update updateOp).
Notation valueAt := (valueAt updateOp).

Lemma clearChildren_allocatedBlocks (n : Node) :
  clearChildren n = allocatedBlocks n.
Proof.
  induction n as [v u | l IHl r IHr u]; simpl; [reflexivity | lia].
Qed.

Lemma update_shape (a : A) (n : Node) : shape (update a n) = shape n.
Proof.
  revert a.
  induction n as [v u | l IHl r IHr u]; intros a; simpl.
  - reflexivity.
  - destruct u as [old|]; simpl; [rewrite IHl, IHr|]; reflexivity.
Qed.

Lemma update_leavesClean (a : A) (n : Node) :
  leavesClean n -> leavesClean (update a n).
Proof.
  revert a.
  induction n as [v u | l IHl r IHr u]; intros a H; simpl in *.
  - exact H.
  - destruct u as [old|]; simpl; [split; [apply IHl | apply IHr]|]; tauto.
Qed.

Lemma update_valueAt (a : A) (n : Node) (cb ce k : Z) :
  valueAt (update a n) cb ce k = updateOp (valueAt n cb ce k) a.
Proof.
  revert a cb ce.
  induction n as [v u | l IHl r IHr u]; intros a cb ce; simpl.
  - reflexivity.
  - destruct u as [old|]; simpl.
    + destruct (k >=? midpoint cb ce); [rewrite IHr | rewrite IHl]; reflexivity.
    + reflexivity.
Qed.

Lemma siftOptUpdate_Inner (l r : Node) (u : option A) :
  exists l' r',
    siftOptUpdate updateOp (Inner l r u) = Done (Inner l' r' None) /\
    shape l' = shape l /\ shape r' = shape r /\
    (leavesClean l -> leavesClean l') /\ (leavesClean r -> leavesClean r') /\
    forall cb ce k,
      valueAt (Inner l' r' None) cb ce k = valueAt (Inner l r u) cb ce k.
Proof.
  destruct u as [a|]; unfold siftOptUpdate; simpl.
  - exists (update a l), (update a r).
    repeat split; auto using update_shape, update_leavesClean.
    intros cb ce k.
    destruct (k >=? midpoint cb ce); apply update_valueAt.
  - exists l, r. repeat split; auto.
Qed.

End NodeOps.

End ImplFacts.

Import ImplFacts.

(** ** The node with a flag is the node with an argument, at [unit] *)

Module NullaryFacts.

Section NodeOps.

Context {T : Type}.
Variable updateOp : T -> T.

Notation asBinary := (Nullary.asBinary updateOp).

Lemma toOptional_update (n : Nullary.Node T) :
  Nullary.toOptional (Nullary.update updateOp n) =
  Impl.update asBinary tt (Nullary.toOptional n).
Proof.
  induction n as [v u | l IHl r IHr u]; simpl.
  - reflexivity.
  - destruct u; simpl; [rewrite IHl, IHr|]; reflexivity.
Qed.

Lemma toOptional_siftOptUpdate (n : Nullary.Node T) :
  omap Nullary.toOptional (Nullary.siftOptUpdate updateOp n) =
  Impl.siftOptUpdate asBinary (Nullary.toOptional n).
Proof.
  destruct n as [v [|] | l r [|]]; unfold Nullary.siftOptUpdate; simpl;
    try reflexivity.
  unfold Impl.siftOptUpdate. simpl. rewrite !toOptional_update. reflexivity.
Qed.

Lemma toOptional_initChildren (n : Nullary.Node T) :
  omap Nullary.toOptional (Nullary.initChildren n) =
  Impl.initChildren (Nullary.toOptional n).
Proof.
  destruct n as [v u | l r u]; reflexivity.
Qed.

Lemma toOptional_isLeaf (n : Nullary.Node T) :
  Impl.isLeaf (Nullary.toOptional n) =
  match n with Nullary.Leaf _ _ => true | Nullary.Inner _ _ _ => false end.
Proof.
  destruct n; reflexivity.
Qed.

(** [setValue] leaves the flag as it is: a flag set on a node with children
    outlives the collapse of the node and is pushed into the children the
    leaf gets next. *)
Lemma setValue_keeps_the_flag (val : T) (l r : Nullary.Node T) :
  Nullary.toUpdate
    (Nullary.setValue val
       (Nullary.update updateOp (Nullary.Inner l r false))) = true /\
  (n <- Nullary.initChildren
          (Nullary.setValue val
             (Nullary.update updateOp (Nullary.Inner l r false))) ;;
   Nullary.siftOptUpdate updateOp n)
  = Done (Nullary.Inner (Nullary.Leaf (updateOp val) false)
                        (Nullary.Leaf (updateOp val) false) false).
Proof.
  split; reflexivity.
Qed.

End NodeOps.

End NullaryFacts.

(** ** The walks of the tree *)

Module DSTFacts.

Import DST.

Section Walks.

Context {K : KeyT} {T A : Type}.
Variable updateOp : T -> A -> T.

Notation Node := (Node T A).

Lemma wellFormed_update (a : A) (n : Node) (cb ce : Z) :
  wellFormed n cb ce -> wellFormed (Impl.update updateOp a n) cb ce.
Proof.
  intros [Hc Hs]. split.
  - apply update_leavesClean; exact Hc.
  - rewrite update_shape; exact Hs.
Qed.

Lemma wellFormed_Inner (l r : Node) (u : option A) (cb ce : Z) :
  wellFormed (Inner l r u) cb ce <->
  cb + 2 <= ce /\ wellFormed l cb (midpoint cb ce) /\
  wellFormed r (midpoint cb ce) ce.
Proof.
  unfold wellFormed; simpl; tauto.
Qed.

(** A node that is met but not covered: after [initChildren] on a leaf and
    the sift, it has two children and no pending update, and says the same
    about every key. *)
Lemma openNode (n : Node) (cb ce : Z) :
  wellFormed n cb ce -> cb + 2 <= ce ->
  exists n1 l r,
    initChildrenIfLeaf n = Done n1 /\
    optionalSiftNodeUpdate_ updateOp n1 = Done (Inner l r None) /\
    wellFormed l cb (midpoint cb ce) /\
    wellFormed r (midpoint cb ce) ce /\
    forall k, valueAt updateOp (Inner l r None) cb ce k = valueAt updateOp n cb ce k.
Proof.
  intros Hwf Hspan.
  destruct n as [v u | l r u].
  - destruct Hwf as [Hu _]; simpl in Hu; subst u.
    exists (Inner (Leaf v None) (Leaf v None) None), (Leaf v None), (Leaf v None).
    repeat split; simpl; auto.
    intros k; destruct (k >=? midpoint cb ce); reflexivity.
  - apply wellFormed_Inner in Hwf; destruct Hwf as (_ & Hl & Hr).
    exists (Inner l r u).
    destruct u as [a|].
    + exists (Impl.update updateOp a l), (Impl.update updateOp a r).
      split; [reflexivity|]. split; [reflexivity|].
      split; [apply wellFormed_update; exact Hl|].
      split; [apply wellFormed_update; exact Hr|].
      intros k; simpl.
      destruct (k >=? midpoint cb ce); apply update_valueAt.
    + exists l, r. repeat split; solve [reflexivity | apply Hl | apply Hr].
Qed.

(** A range that meets a span without covering it leaves room for a split. *)
Lemma met_not_covered (b e cb ce : Z) :
  cb < e -> b < ce -> (e >=? ce) && (b <=? cb) = false -> cb + 2 <= ce.
Proof. lia. Qed.

(** [setImpl_] assigns the value to the keys of the range and leaves the
    others as they are. *)
Lemma setImpl_spec (fuel : nat) :
  forall (b e cb ce : Z) (n : Node) (v : T),
    b < e -> cb < e -> b < ce ->
    spanFits cb ce ->
    wellFormed n cb ce ->
    (Z.to_nat (ce - cb) < fuel)%nat ->
    exists n',
      setImpl_ updateOp fuel b e cb ce n v = Done n' /\
      wellFormed n' cb ce /\
      forall k, cb <= k < ce ->
        valueAt updateOp n' cb ce k =
        if inRange b e k then v else valueAt updateOp n cb ce k.
Proof.
  induction fuel as [|fuel IH]; intros b e cb ce n v Hbe Hcb Hce Hfit Hwf Hfuel;
    [lia|].
  cbn [setImpl_].
  replace (cb <? e) with true by lia.
  replace (ce >? b) with true by lia.
  replace (b <? e) with true by lia.
  cbn [assert bind].
  destruct ((e >=? ce) && (b <=? cb)) eqn:Hcover.
  - exists (setValue v n). split; [reflexivity|]. split.
    + destruct n; split; simpl; auto.
    + intros k Hk. unfold inRange.
      replace ((b <=? k) && (k <? e)) with true by lia.
      destruct n; reflexivity.
  - pose proof (met_not_covered b e cb ce Hcb Hce Hcover) as Hspan.
    pose proof (midpoint_bounds cb ce Hfit Hspan) as Hmid.
    destruct (spanFits_halves cb ce Hfit) as [Hfl Hfr]; [lia|].
    destruct (openNode n cb ce Hwf Hspan) as (n1 & l & r & Hinit & Hsift & Hl & Hr & Hval).
    rewrite Hinit; cbn [bind]. rewrite Hsift; cbn [bind].
    set (mid := midpoint cb ce) in *.
    assert (exists l',
      (if mid >? b then setImpl_ updateOp fuel b e cb mid l v else Done l)
        = Done l' /\ wellFormed l' cb mid /\
      forall k, cb <= k < mid ->
        valueAt updateOp l' cb mid k =
        if inRange b e k then v else valueAt updateOp l cb mid k)
      as (l' & Hl' & Hwl' & Hvl').
    { destruct (mid >? b) eqn:Hgo.
      - apply IH; auto; lia.
      - exists l. split; [reflexivity|]. split; [exact Hl|].
        intros k Hk. unfold inRange.
        replace ((b <=? k) && (k <? e)) with false by lia. reflexivity. }
    assert (exists r',
      (if mid <? e then setImpl_ updateOp fuel b e mid ce r v else Done r)
        = Done r' /\ wellFormed r' mid ce /\
      forall k, mid <= k < ce ->
        valueAt updateOp r' mid ce k =
        if inRange b e k then v else valueAt updateOp r mid ce k)
      as (r' & Hr' & Hwr' & Hvr').
    { destruct (mid <? e) eqn:Hgo.
      - apply IH; auto; lia.
      - exists r. split; [reflexivity|]. split; [exact Hr|].
        intros k Hk. unfold inRange.
        replace ((b <=? k) && (k <? e)) with false by lia. reflexivity. }
    rewrite Hl'; cbn [bind]. rewrite Hr'; cbn [bind].
    exists (Inner l' r' None). split; [reflexivity|]. split.
    + apply wellFormed_Inner; auto.
    + intros k Hk. rewrite <- Hval. simpl. fold mid.
      destruct (k >=? mid) eqn:Hside.
      * apply Hvr'; lia.
      * apply Hvl'; lia.
Qed.

(** The overload that takes the value by rvalue visits the same nodes. *)
Lemma setImpl_rvalue_eq (fuel : nat) :
  forall (b e cb ce : Z) (n : Node) (v : T),
    setImpl_rvalue updateOp fuel b e cb ce n v =
    setImpl_ updateOp fuel b e cb ce n v.
Proof.
  induction fuel as [|fuel IH]; intros b e cb ce n v; [reflexivity|].
  cbn [setImpl_rvalue setImpl_].
  destruct (cb <? e) eqn:H1; [|reflexivity].
  destruct (ce >? b) eqn:H2; [|reflexivity].
  destruct (b <? e) eqn:H3; [|reflexivity].
  cbn [assert bind].
  destruct ((e >=? ce) && (b <=? cb)); [reflexivity|].
  destruct (initChildrenIfLeaf n) as [n1| |]; cbn [bind]; try reflexivity.
  destruct (optionalSiftNodeUpdate_ updateOp n1) as [n2| |]; cbn [bind];
    try reflexivity.
  destruct n2 as [x u | l r u]; [reflexivity|].
  set (mid := midpoint cb ce).
  destruct (mid >=? e) eqn:Hl.
  - replace (mid >? b) with true by lia.
    replace (mid <? e) with false by lia.
    rewrite IH.
    destruct (setImpl_ updateOp fuel b e cb mid l v); reflexivity.
  - replace (mid <? e) with true by lia.
    destruct (mid <=? b) eqn:Hr.
    + replace (mid >? b) with false by lia.
      cbn [bind]. rewrite IH. reflexivity.
    + replace (mid >? b) with true by lia.
      rewrite IH. reflexivity.
Qed.

(** [updateImpl_] applies the operator to the keys of the range and leaves
    the others as they are, whatever the range. *)
Lemma updateImpl_spec (fuel : nat) :
  forall (b e cb ce : Z) (n : Node) (a : A),
    spanFits cb ce ->
    wellFormed n cb ce ->
    (Z.to_nat (ce - cb) < fuel)%nat ->
    exists n',
      updateImpl_ updateOp fuel b e cb ce n a = Done n' /\
      wellFormed n' cb ce /\
      forall k, cb <= k < ce ->
        valueAt updateOp n' cb ce k =
        if inRange b e k then updateOp (valueAt updateOp n cb ce k) a
        else valueAt updateOp n cb ce k.
Proof.
  induction fuel as [|fuel IH]; intros b e cb ce n a Hfit Hwf Hfuel; [lia|].
  cbn [updateImpl_].
  destruct ((b >=? ce) || (cb >=? e)) eqn:Hmiss.
  { exists n. split; [reflexivity|]. split; [exact Hwf|].
    intros k Hk. unfold inRange.
    replace ((b <=? k) && (k <? e)) with false by lia. reflexivity. }
  destruct ((e >=? ce) && (b <=? cb)) eqn:Hcover.
  { exists (Impl.update updateOp a n). split; [reflexivity|].
    split; [apply wellFormed_update; exact Hwf|].
    intros k Hk. unfold inRange.
    replace ((b <=? k) && (k <? e)) with true by lia.
    apply update_valueAt. }
  assert (Hspan : cb + 2 <= ce) by lia.
  pose proof (midpoint_bounds cb ce Hfit Hspan) as Hmid.
  destruct (spanFits_halves cb ce Hfit) as [Hfl Hfr]; [lia|].
  destruct (openNode n cb ce Hwf Hspan)
    as (n1 & l & r & Hinit & Hsift & Hl & Hr & Hval).
  rewrite Hinit; cbn [bind]. rewrite Hsift; cbn [bind].
  set (mid := midpoint cb ce) in *.
  assert (exists l',
    (if mid >? b then updateImpl_ updateOp fuel b e cb mid l a else Done l)
      = Done l' /\ wellFormed l' cb mid /\
    forall k, cb <= k < mid ->
      valueAt updateOp l' cb mid k =
      if inRange b e k then updateOp (valueAt updateOp l cb mid k) a
      else valueAt updateOp l cb mid k)
    as (l' & Hl' & Hwl' & Hvl').
  { destruct (mid >? b) eqn:Hgo.
    - apply IH; auto; lia.
    - exists l. split; [reflexivity|]. split; [exact Hl|].
      intros k Hk. unfold inRange.
      replace ((b <=? k) && (k <? e)) with false by lia. reflexivity. }
  assert (exists r',
    (if mid <? e then updateImpl_ updateOp fuel b e mid ce r a else Done r)
      = Done r' /\ wellFormed r' mid ce /\
    forall k, mid <= k < ce ->
      valueAt updateOp r' mid ce k =
      if inRange b e k then updateOp (valueAt updateOp r mid ce k) a
      else valueAt updateOp r mid ce k)
    as (r' & Hr' & Hwr' & Hvr').
  { destruct (mid <? e) eqn:Hgo.
    - apply IH; auto; lia.
    - exists r. split; [reflexivity|]. split; [exact Hr|].
      intros k Hk. unfold inRange.
      replace ((b <=? k) && (k <? e)) with false by lia. reflexivity. }
  rewrite Hl'; cbn [bind]. rewrite Hr'; cbn [bind].
  exists (Inner l' r' None). split; [reflexivity|]. split.
  - apply wellFormed_Inner; auto.
  - intros k Hk. rewrite <- Hval. simpl. fold mid.
    destruct (k >=? mid) eqn:Hside.
    + rewrite Hvr' by lia. reflexivity.
    + rewrite Hvl' by lia. reflexivity.
Qed.

Lemma height_shape (n n' : Node) : shape n = shape n' -> height n = height n'.
Proof.
  revert n'.
  induction n as [v u | l IHl r IHr u]; intros [v' u' | l' r' u']; simpl;
    intros E; try discriminate; [reflexivity|].
  injection E as El Er. rewrite (IHl _ El), (IHr _ Er). reflexivity.
Qed.

(** [getImpl_] returns what the node says about the key; the sifting on the
    way down moves pending updates and nothing else. *)
Lemma getImpl_spec (fuel : nat) :
  forall (key cb ce : Z) (n : Node),
    (height n < fuel)%nat ->
    exists n',
      getImpl_ updateOp fuel key cb ce n = Done (valueAt updateOp n cb ce key, n') /\
      shape n' = shape n /\
      (leavesClean n -> leavesClean n') /\
      forall cb' ce' k, valueAt updateOp n' cb' ce' k = valueAt updateOp n cb' ce' k.
Proof.
  induction fuel as [|fuel IH]; intros key cb ce n Hfuel; [lia|].
  destruct n as [v u | l r u]; cbn [getImpl_ isLeaf].
  - exists (Leaf v u). simpl. auto.
  - destruct (siftOptUpdate_Inner updateOp l r u)
      as (l1 & r1 & Hsift & Hsl & Hsr & Hcl & Hcr & Hval).
    unfold optionalSiftNodeUpdate_. rewrite Hsift; cbn [bind].
    assert (Hhl : (height l1 < fuel)%nat).
    { rewrite (height_shape l1 l Hsl). simpl in Hfuel. lia. }
    assert (Hhr : (height r1 < fuel)%nat).
    { rewrite (height_shape r1 r Hsr). simpl in Hfuel. lia. }
    set (mid := midpoint cb ce).
    assert (Hhere : valueAt updateOp (Inner l r u) cb ce key =
                    if key >=? mid then valueAt updateOp r1 mid ce key
                    else valueAt updateOp l1 cb mid key).
    { rewrite <- Hval. reflexivity. }
    destruct (key >=? mid) eqn:Hside.
    + destruct (IH key mid ce r1 Hhr) as (r2 & Hget & Hshape & Hclean & Hsame).
      rewrite Hget; cbn [bind fst snd]. rewrite Hhere.
      exists (Inner l1 r2 None). split; [reflexivity|]. split.
      { simpl. congruence. }
      split.
      { simpl. intros [H1 H2]. auto. }
      intros cb' ce' k. rewrite <- Hval. simpl.
      rewrite Hsame. reflexivity.
    + destruct (IH key cb mid l1 Hhl) as (l2 & Hget & Hshape & Hclean & Hsame).
      rewrite Hget; cbn [bind fst snd]. rewrite Hhere.
      exists (Inner l2 r1 None). split; [reflexivity|]. split.
      { simpl. congruence. }
      split.
      { simpl. intros [H1 H2]. auto. }
      intros cb' ce' k. rewrite <- Hval. simpl.
      rewrite Hsame. reflexivity.
Qed.

End Walks.

Section RangeGet.

Context {K : KeyT} {T A G : Type}.
Variable updateOp : T -> A -> T.
Variable initGet_ : Z -> Z -> T -> G.
Variable combineGet_ : G -> G -> Z -> Z -> Z -> G.

Notation Node := (Node T A).
Notation aggregate := (aggregate initGet_ combineGet_).
Notation aggregateOver := (aggregateOver initGet_ combineGet_).
Notation combinerAssociative := (combinerAssociative combineGet_).
Notation initializerConsistent := (initializerConsistent initGet_ combineGet_).

Lemma aggregate_ext (f g : Z -> T) (lb : Z) (m : nat) :
  (forall k, lb <= k <= lb + Z.of_nat m -> f k = g k) ->
  aggregate f lb m = aggregate g lb m.
Proof.
  induction m as [|m IH]; intros H.
  - simpl. rewrite H by lia. reflexivity.
  - cbn [aggregate]. rewrite IH by (intros k Hk; apply H; lia).
    rewrite (H (lb + Z.of_nat (S m))) by lia. reflexivity.
Qed.

Lemma aggregateOver_ext (f g : Z -> T) (lb re : Z) :
  lb < re ->
  (forall k, lb <= k < re -> f k = g k) ->
  aggregateOver f lb re = aggregateOver g lb re.
Proof.
  intros Hlt H. unfold aggregateOver. apply aggregate_ext.
  intros k Hk. apply H. lia.
Qed.

Section Laws.

Hypothesis combine_assoc : combinerAssociative.
Hypothesis init_consistent : initializerConsistent.

Lemma aggregate_split (f : Z -> T) (lb : Z) (m1 m2 : nat) :
  aggregate f lb (m1 + S m2) =
  combineGet_ (aggregate f lb m1)
    (aggregate f (lb + Z.of_nat m1 + 1) m2)
    lb (lb + Z.of_nat m1 + 1) (lb + Z.of_nat m1 + Z.of_nat m2 + 2).
Proof.
  induction m2 as [|m2 IH].
  - replace (m1 + 1)%nat with (S m1) by lia. cbn [aggregate].
    replace (lb + Z.of_nat (S m1)) with (lb + Z.of_nat m1 + 1) by lia.
    replace (lb + Z.of_nat m1 + Z.of_nat 0 + 2) with (lb + Z.of_nat m1 + 1 + 1)
      by lia.
    reflexivity.
  - replace (m1 + S (S m2))%nat with (S (m1 + S m2)) by lia.
    cbn [aggregate]. rewrite IH.
    set (mm := lb + Z.of_nat m1 + 1).
    replace (lb + Z.of_nat (S (m1 + S m2))) with (mm + Z.of_nat (S m2)) by lia.
    replace (lb + Z.of_nat m1 + Z.of_nat m2 + 2) with (mm + Z.of_nat (S m2))
      by lia.
    replace (lb + Z.of_nat m1 + Z.of_nat (S m2) + 2)
      with (mm + Z.of_nat (S m2) + 1) by lia.
    apply combine_assoc; lia.
Qed.

Lemma aggregateOver_split (f : Z -> T) (lb m re : Z) :
  lb < m < re ->
  aggregateOver f lb re =
  combineGet_ (aggregateOver f lb m) (aggregateOver f m re) lb m re.
Proof.
  intros H. unfold aggregateOver.
  replace (Z.to_nat (re - lb - 1))
    with (Z.to_nat (m - lb - 1) + S (Z.to_nat (re - m - 1)))%nat by lia.
  rewrite aggregate_split.
  replace (lb + Z.of_nat (Z.to_nat (m - lb - 1)) + 1) with m by lia.
  replace (lb + Z.of_nat (Z.to_nat (m - lb - 1)) +
           Z.of_nat (Z.to_nat (re - m - 1)) + 2) with re by lia.
  reflexivity.
Qed.

Lemma aggregate_uniform (f : Z -> T) (v : T) (lb : Z) (m : nat) :
  (forall k, lb <= k <= lb + Z.of_nat m -> f k = v) ->
  aggregate f lb m = initGet_ lb (lb + Z.of_nat m + 1) v.
Proof.
  induction m as [|m IH]; intros H.
  - simpl. rewrite H by lia. replace (lb + 0 + 1) with (lb + 1) by lia.
    reflexivity.
  - cbn [aggregate]. rewrite IH by (intros k Hk; apply H; lia).
    rewrite (H (lb + Z.of_nat (S m))) by lia.
    replace (lb + Z.of_nat m + 1) with (lb + Z.of_nat (S m)) by lia.
    symmetry. apply init_consistent. lia.
Qed.

Lemma aggregateOver_uniform (f : Z -> T) (v : T) (lb re : Z) :
  lb < re ->
  (forall k, lb <= k < re -> f k = v) ->
  aggregateOver f lb re = initGet_ lb re v.
Proof.
  intros Hlt H. unfold aggregateOver.
  rewrite (aggregate_uniform f v) by (intros k Hk; apply H; lia).
  f_equal. lia.
Qed.

End Laws.

(** [rangeGetImpl_] returns a result and leaves a node that says what it said
    before; under the requirements on the functors the result is the
    aggregate of the keys that the range and the span share. *)
Lemma rangeGetImpl_spec (fuel : nat) :
  forall (b e cb ce : Z) (n : Node),
    b < e -> cb < e -> b < ce -> cb < ce ->
    spanFits cb ce ->
    wellFormed n cb ce ->
    (Z.to_nat (ce - cb) < fuel)%nat ->
    exists g n',
      rangeGetImpl_ updateOp initGet_ combineGet_ fuel b e cb ce n = Done (g, n') /\
      wellFormed n' cb ce /\
      (forall k, cb <= k < ce ->
         valueAt updateOp n' cb ce k = valueAt updateOp n cb ce k) /\
      (combinerAssociative -> initializerConsistent ->
       g = aggregateOver (valueAt updateOp n cb ce) (Z.max cb b) (Z.min ce e)).
Proof.
  induction fuel as [|fuel IH];
    intros b e cb ce n Hbe Hcb Hce Hne Hfit Hwf Hfuel; [lia|].
  cbn [rangeGetImpl_].
  replace ((b >? ce) || (cb >? e)) with false by lia.
  destruct ((e >=? ce) && (b <=? cb) && isLeaf n) eqn:Hcover.
  { destruct n as [v u | l r u]; [|simpl in Hcover; lia].
    cbn [getValue bind]. exists (initGet_ cb ce v), (Leaf v u).
    split; [reflexivity|]. split; [exact Hwf|]. split; [reflexivity|].
    intros Hassoc Hcons.
    rewrite (aggregateOver_uniform Hcons _ v) by (simpl; auto; lia).
    f_equal; lia. }
  assert (Hspan : cb + 2 <= ce).
  { destruct n as [v u | l r u].
    - simpl in Hcover. lia.
    - apply wellFormed_Inner in Hwf. tauto. }
  pose proof (midpoint_bounds cb ce Hfit Hspan) as Hmid.
  destruct (spanFits_halves cb ce Hfit) as [Hfl Hfr]; [lia|].
  destruct (openNode updateOp n cb ce Hwf Hspan)
    as (n1 & l & r & Hinit & Hsift & Hl & Hr & Hval).
  rewrite Hinit; cbn [bind]. rewrite Hsift; cbn [bind].
  set (mid := midpoint cb ce) in *.
  assert (Hleft : forall k, cb <= k < mid ->
            valueAt updateOp n cb ce k = valueAt updateOp l cb mid k).
  { intros k Hk. rewrite <- Hval. simpl. fold mid.
    replace (k >=? mid) with false by lia. reflexivity. }
  assert (Hright : forall k, mid <= k < ce ->
            valueAt updateOp n cb ce k = valueAt updateOp r mid ce k).
  { intros k Hk. rewrite <- Hval. simpl. fold mid.
    replace (k >=? mid) with true by lia. reflexivity. }
  destruct (b >=? mid) eqn:Hb.
  - destruct (IH b e mid ce r) as (g & r' & Hrun & Hwr' & Hvr' & Hg);
      auto; try lia.
    rewrite Hrun; cbn [bind fst snd].
    exists g, (Inner l r' None). split; [reflexivity|]. split; [|split].
    + apply wellFormed_Inner; auto.
    + intros k Hk. rewrite <- Hval. simpl. fold mid.
      destruct (k >=? mid) eqn:Hside; [apply Hvr'; lia | reflexivity].
    + intros Hassoc Hcons. rewrite (Hg Hassoc Hcons).
      replace (Z.max cb b) with (Z.max mid b) by lia.
      apply aggregateOver_ext; [lia|].
      intros k Hk. symmetry. apply Hright. lia.
  - destruct (e <=? mid) eqn:He.
    + destruct (IH b e cb mid l) as (g & l' & Hrun & Hwl' & Hvl' & Hg);
        auto; try lia.
      rewrite Hrun; cbn [bind fst snd].
      exists g, (Inner l' r None). split; [reflexivity|]. split; [|split].
      * apply wellFormed_Inner; auto.
      * intros k Hk. rewrite <- Hval. simpl. fold mid.
        destruct (k >=? mid) eqn:Hside; [reflexivity | apply Hvl'; lia].
      * intros Hassoc Hcons. rewrite (Hg Hassoc Hcons).
        replace (Z.min ce e) with (Z.min mid e) by lia.
        apply aggregateOver_ext; [lia|].
        intros k Hk. symmetry. apply Hleft. lia.
    + destruct (IH b e mid ce r) as (gr & r' & Hrunr & Hwr' & Hvr' & Hgr);
        auto; try lia.
      destruct (IH b e cb mid l) as (gl & l' & Hrunl & Hwl' & Hvl' & Hgl);
        auto; try lia.
      rewrite Hrunr; cbn [bind]. rewrite Hrunl; cbn [bind fst snd].
      exists (combineGet_ gl gr (Z.max cb b) mid (Z.min ce e)), (Inner l' r' None).
      split; [reflexivity|]. split; [|split].
      * apply wellFormed_Inner; auto.
      * intros k Hk. rewrite <- Hval. simpl. fold mid.
        destruct (k >=? mid) eqn:Hside; [apply Hvr'; lia | apply Hvl'; lia].
      * intros Hassoc Hcons. rewrite (Hgl Hassoc Hcons), (Hgr Hassoc Hcons).
        rewrite (aggregateOver_split Hassoc _ (Z.max cb b) mid (Z.min ce e))
          by lia.
        f_equal.
        -- replace (Z.min mid e) with mid by lia.
           apply aggregateOver_ext; [lia|].
           intros k Hk. symmetry. apply Hleft. lia.
        -- replace (Z.max mid b) with mid by lia.
           apply aggregateOver_ext; [lia|].
           intros k Hk. symmetry. apply Hright. lia.
Qed.

End RangeGet.

End DSTFacts.

(** ** The tree refines the reference *)

Module Refinement.

Import Abstraction.

Section Proofs.

Context {K : KeyT} {T A G : Type}.
Variable updateOp : T -> A -> T.
Variable initGet_ : Z -> Z -> T -> G.
Variable combineGet_ : G -> G -> Z -> Z -> Z -> G.

Notation Tree := (DST.DynamicSegmentTree (T:=T) (A:=A)).
Notation contents := (contents updateOp).
Notation abstraction := (abstraction updateOp).
Notation reachable := (reachable updateOp initGet_ combineGet_).
Notation runCall := (Calls.runCall updateOp initGet_ combineGet_).
Notation runCalls := (Calls.runCalls updateOp initGet_ combineGet_).
Notation refCall := (Calls.refCall updateOp).
Notation refCalls := (Calls.refCalls updateOp).

Lemma keyRange_In (k lb : Z) (n : nat) :
  In k (keyRange lb n) -> lb <= k < lb + Z.of_nat n.
Proof.
  revert lb. induction n as [|n IH]; intros lb; simpl; [tauto|].
  intros [H | H]; [lia|]. apply IH in H. lia.
Qed.

Lemma keyRange_length (lb : Z) (n : nat) : List.length (keyRange lb n) = n.
Proof.
  revert lb. induction n as [|n IH]; intros lb; simpl; [|rewrite IH];
    reflexivity.
Qed.

Lemma keyRange_nth_error (lb : Z) (n i : nat) :
  (i < n)%nat -> nth_error (keyRange lb n) i = Some (lb + Z.of_nat i).
Proof.
  revert lb i. induction n as [|n IH]; intros lb i Hi; [lia|].
  destruct i as [|i]; simpl.
  - f_equal; lia.
  - rewrite IH by lia. f_equal; lia.
Qed.

Lemma keyRange_skipn (lb : Z) (n i : nat) :
  skipn i (keyRange lb n) = keyRange (lb + Z.of_nat i) (n - i).
Proof.
  revert lb n. induction i as [|i IH]; intros lb n.
  - simpl. rewrite Z.add_0_r, Nat.sub_0_r. reflexivity.
  - destruct n as [|n]; simpl; [reflexivity|].
    rewrite IH. f_equal; lia.
Qed.

Lemma keyRange_firstn (lb : Z) (n j : nat) :
  (j <= n)%nat -> firstn j (keyRange lb n) = keyRange lb j.
Proof.
  revert lb n. induction j as [|j IH]; intros lb n Hj; [reflexivity|].
  destruct n as [|n]; [lia|]. simpl. rewrite IH by lia. reflexivity.
Qed.

Lemma onRange_keyRange (f : T -> T) (g : Z -> T) (b e lb : Z) (n : nat) :
  Reference.onRange f b e lb (map g (keyRange lb n)) =
  map (fun k => if DST.inRange b e k then f (g k) else g k) (keyRange lb n).
Proof.
  revert lb. induction n as [|n IH]; intros lb; simpl; [reflexivity|].
  rewrite IH. reflexivity.
Qed.

Lemma onRange_empty (f : T -> T) (b e key : Z) (vals : list T) :
  e <= b -> Reference.onRange f b e key vals = vals.
Proof.
  intros Hbe. revert key.
  induction vals as [|x rest IH]; intros key; simpl; [reflexivity|].
  replace ((b <=? key) && (key <? e)) with false by lia.
  rewrite IH. reflexivity.
Qed.

Lemma foldKeys_aggregate (f : Z -> T) (lb : Z) (m j : nat) :
  Reference.foldKeys initGet_ combineGet_
    (DST.aggregate initGet_ combineGet_ f lb j) lb (lb + Z.of_nat j + 1)
    (map f (keyRange (lb + Z.of_nat j + 1) m)) =
  DST.aggregate initGet_ combineGet_ f lb (j + m).
Proof.
  revert j. induction m as [|m IH]; intros j; simpl.
  - rewrite Nat.add_0_r. reflexivity.
  - replace (j + S m)%nat with (S j + m)%nat by lia.
    rewrite <- IH. cbn [DST.aggregate].
    replace (lb + Z.of_nat (S j)) with (lb + Z.of_nat j + 1) by lia.
    reflexivity.
Qed.

(** The reference's fold over the keys of [b, e) is the aggregate of the
    walk. *)
Lemma reference_rangeGet (t : Tree) (b e : Z) :
  DST.begin_ t <= b -> b < e -> e <= DST.end_ t ->
  Reference.rangeGet initGet_ combineGet_ (abstraction t) b e =
  Some (DST.aggregateOver initGet_ combineGet_
          (valueAt updateOp (DST.rootNode_ t) (DST.begin_ t) (DST.end_ t)) b e).
Proof.
  intros Hb Hbe He. unfold Reference.rangeGet, abstraction, contents. simpl.
  rewrite skipn_map, firstn_map, keyRange_skipn, keyRange_firstn by lia.
  replace (DST.begin_ t + Z.of_nat (Z.to_nat (b - DST.begin_ t))) with b by lia.
  replace (Z.to_nat (e - b)) with (S (Z.to_nat (e - b - 1))) by lia.
  simpl. f_equal.
  pose proof (foldKeys_aggregate
    (valueAt updateOp (DST.rootNode_ t) (DST.begin_ t) (DST.end_ t))
    b (Z.to_nat (e - b - 1)) 0) as H.
  simpl in H. rewrite Z.add_0_r in H. exact H.
Qed.

Lemma reference_get (t : Tree) (k : Z) :
  DST.begin_ t <= k < DST.end_ t ->
  Reference.get (abstraction t) k =
  Some (valueAt updateOp (DST.rootNode_ t) (DST.begin_ t) (DST.end_ t) k).
Proof.
  intros Hk. unfold Reference.get, abstraction, contents. simpl.
  replace (k <? DST.begin_ t) with false by lia.
  rewrite nth_error_map, keyRange_nth_error by lia.
  simpl. do 2 f_equal. lia.
Qed.

Lemma abstraction_make (begin end' : Z) (v : T) :
  abstraction (DST.make begin end' v) = Reference.make begin end' v.
Proof.
  unfold abstraction, contents, Reference.make. simpl. f_equal.
  generalize (Z.to_nat (end' - begin)) as n. intros n. revert begin.
  induction n as [|n IH]; intros begin; simpl; [|rewrite IH]; reflexivity.
Qed.

(** A node that changes the keys of its span as [f] says takes the contents
    to the reference's [onRange]. *)
Lemma contents_onRange (t : Tree) (n' : Node T A) (f : T -> T) (b e : Z) :
  (forall k, DST.begin_ t <= k < DST.end_ t ->
     valueAt updateOp n' (DST.begin_ t) (DST.end_ t) k =
     if DST.inRange b e k
     then f (valueAt updateOp (DST.rootNode_ t) (DST.begin_ t) (DST.end_ t) k)
     else valueAt updateOp (DST.rootNode_ t) (DST.begin_ t) (DST.end_ t) k) ->
  contents (DST.withRoot t n') =
  Reference.onRange f b e (DST.begin_ t) (contents t).
Proof.
  intros H. unfold contents. simpl. rewrite onRange_keyRange.
  apply map_ext_in. intros k Hk. apply keyRange_In in Hk. apply H. lia.
Qed.

Lemma contents_same (t : Tree) (n' : Node T A) :
  (forall k, DST.begin_ t <= k < DST.end_ t ->
     valueAt updateOp n' (DST.begin_ t) (DST.end_ t) k =
     valueAt updateOp (DST.rootNode_ t) (DST.begin_ t) (DST.end_ t) k) ->
  contents (DST.withRoot t n') = contents t.
Proof.
  intros H. unfold contents. simpl.
  apply map_ext_in. intros k Hk. apply keyRange_In in Hk. apply H. lia.
Qed.

Lemma withRoot_root (t : Tree) : DST.withRoot t (DST.rootNode_ t) = t.
Proof. destruct t; reflexivity. Qed.

Lemma set_refines (t : Tree) (b e : Z) (v : T) :
  invariant t ->
  spanFits (DST.begin_ t) (DST.end_ t) ->
  (b < e -> DST.begin_ t < e /\ b < DST.end_ t) ->
  exists t',
    DST.set updateOp t b e v = Done t' /\
    invariant t' /\ sameBounds t t' /\
    abstraction t' = Reference.set (abstraction t) b e v.
Proof.
  intros Hinv Hfit Hc. unfold DST.set.
  destruct (b <? e) eqn:Hbe.
  - assert (Hlt : b < e) by (apply Z.ltb_lt; exact Hbe).
    destruct (Hc Hlt) as [H1 H2].
    destruct (DSTFacts.setImpl_spec updateOp (DST.spanFuel t) b e
                (DST.begin_ t) (DST.end_ t) (DST.rootNode_ t) v)
      as (n' & Hrun & Hwf & Hval); auto; try (unfold DST.spanFuel; lia).
    rewrite Hrun; cbn [bind].
    exists (DST.withRoot t n'). split; [reflexivity|].
    split; [exact Hwf|]. split; [split; reflexivity|].
    unfold abstraction, Reference.set. simpl. f_equal.
    apply (contents_onRange t n' (fun _ => v)). exact Hval.
  - exists t. split; [reflexivity|]. split; [exact Hinv|].
    split; [split; reflexivity|].
    unfold abstraction, Reference.set. simpl. f_equal.
    rewrite <- (withRoot_root t) at 1.
    apply (contents_onRange t (DST.rootNode_ t) (fun _ => v)).
    intros k Hk. unfold DST.inRange.
    replace ((b <=? k) && (k <? e)) with false by lia. reflexivity.
Qed.

Lemma set_rvalue_refines (t : Tree) (b e : Z) (v : T) :
  invariant t ->
  spanFits (DST.begin_ t) (DST.end_ t) ->
  (b < e -> DST.begin_ t < e /\ b < DST.end_ t) ->
  exists t',
    DST.set_rvalue updateOp t b e v = Done t' /\
    invariant t' /\ sameBounds t t' /\
    abstraction t' = Reference.set (abstraction t) b e v.
Proof.
  intros Hinv Hfit Hc.
  replace (DST.set_rvalue updateOp t b e v) with (DST.set updateOp t b e v).
  - apply set_refines; assumption.
  - unfold DST.set, DST.set_rvalue. rewrite DSTFacts.setImpl_rvalue_eq. reflexivity.
Qed.

Lemma update_refines (t : Tree) (b e : Z) (a : A) :
  invariant t ->
  spanFits (DST.begin_ t) (DST.end_ t) ->
  exists t',
    DST.update updateOp t b e a = Done t' /\
    invariant t' /\ sameBounds t t' /\
    abstraction t' = Reference.update updateOp (abstraction t) b e a.
Proof.
  intros Hinv Hfit. unfold DST.update.
  destruct (DSTFacts.updateImpl_spec updateOp (DST.spanFuel t) b e
              (DST.begin_ t) (DST.end_ t) (DST.rootNode_ t) a)
    as (n' & Hrun & Hwf & Hval); auto; try (unfold DST.spanFuel; lia).
  rewrite Hrun; cbn [bind].
  exists (DST.withRoot t n'). split; [reflexivity|].
  split; [exact Hwf|]. split; [split; reflexivity|].
  unfold abstraction, Reference.update. simpl. f_equal.
  apply (contents_onRange t n' (fun x => updateOp x a)). exact Hval.
Qed.

(** [get]: out of range it throws and leaves the tree alone; in range it
    returns what the tree says about the key. *)
Lemma get_refines (t : Tree) (k : Z) :
  invariant t ->
  exists r t',
    DST.get updateOp t k = Done (r, t') /\
    invariant t' /\ sameBounds t t' /\
    abstraction t' = abstraction t /\
    (DST.begin_ t <= k < DST.end_ t ->
     r = inl (valueAt updateOp (DST.rootNode_ t) (DST.begin_ t) (DST.end_ t) k)).
Proof.
  intros Hinv. unfold DST.get.
  destruct ((k >=? DST.end_ t) || (k <? DST.begin_ t)) eqn:Hout.
  - exists (inr (DST.out_of_range (DST.getMessage k))), t.
    split; [reflexivity|]. split; [exact Hinv|]. split; [split; reflexivity|].
    split; [reflexivity|]. lia.
  - destruct (DSTFacts.getImpl_spec updateOp (S (DST.height (DST.rootNode_ t))) k
                (DST.begin_ t) (DST.end_ t) (DST.rootNode_ t))
      as (n' & Hrun & Hshape & Hclean & Hval); [lia|].
    rewrite Hrun; cbn [bind fst snd].
    eexists _, (DST.withRoot t n'). split; [reflexivity|].
    split.
    { destruct Hinv as [Hc Hs]. split; simpl; [auto|]. rewrite Hshape. exact Hs. }
    split; [split; reflexivity|].
    split; [|reflexivity].
    unfold abstraction. simpl. f_equal.
    apply contents_same. intros k' _. apply Hval.
Qed.

Lemma rangeGet_refines (t : Tree) (b e : Z) :
  invariant t ->
  spanFits (DST.begin_ t) (DST.end_ t) ->
  DST.begin_ t <= b -> b < e -> e <= DST.end_ t ->
  exists g t',
    DST.rangeGet updateOp initGet_ combineGet_ t b e = Done (g, t') /\
    invariant t' /\ sameBounds t t' /\
    abstraction t' = abstraction t /\
    (DST.combinerAssociative combineGet_ ->
     DST.initializerConsistent initGet_ combineGet_ ->
     Reference.rangeGet initGet_ combineGet_ (abstraction t) b e = Some g).
Proof.
  intros Hinv Hfit Hb Hbe He. unfold DST.rangeGet.
  destruct (DSTFacts.rangeGetImpl_spec updateOp initGet_ combineGet_ (DST.spanFuel t)
              b e (DST.begin_ t) (DST.end_ t) (DST.rootNode_ t))
    as (g & n' & Hrun & Hwf & Hval & Hg); auto;
    try (unfold DST.spanFuel; lia).
  rewrite Hrun; cbn [bind fst snd].
  exists g, (DST.withRoot t n'). split; [reflexivity|].
  split; [exact Hwf|]. split; [split; reflexivity|].
  split.
  - unfold abstraction. simpl. f_equal. apply contents_same. exact Hval.
  - intros Hassoc Hcons. rewrite reference_rangeGet by lia.
    rewrite (Hg Hassoc Hcons). do 2 f_equal; lia.
Qed.

Lemma invariant_make (begin end' : Z) (v : T) :
  invariant (DST.make (A:=A) begin end' v).
Proof. split; simpl; auto. Qed.

Lemma runCall_refines (t : Tree) (c : Calls.call) :
  invariant t ->
  spanFits (DST.begin_ t) (DST.end_ t) ->
  Calls.inContract (DST.begin_ t) (DST.end_ t) c ->
  exists t',
    runCall t c = Done t' /\
    invariant t' /\ sameBounds t t' /\
    abstraction t' = refCall (abstraction t) c.
Proof.
  intros Hinv Hfit Hc.
  destruct c as [b e v | b e v | b e a | k | b e]; simpl in *.
  - apply set_refines; assumption.
  - apply set_rvalue_refines; assumption.
  - apply update_refines; assumption.
  - destruct (get_refines t k Hinv) as (r & t' & Hrun & Hi & Hb & Ha & _).
    rewrite Hrun; cbn [bind snd]. exists t'. auto.
  - destruct Hc as (H1 & H2 & H3).
    destruct (rangeGet_refines t b e Hinv Hfit H1 H2 H3)
      as (g & t' & Hrun & Hi & Hb & Ha & _).
    rewrite Hrun; cbn [bind snd]. exists t'. auto.
Qed.

Lemma runCalls_refines (cs : list Calls.call) :
  forall t : Tree,
    invariant t ->
    spanFits (DST.begin_ t) (DST.end_ t) ->
    Forall (Calls.inContract (DST.begin_ t) (DST.end_ t)) cs ->
    exists t',
      runCalls t cs = Done t' /\
      invariant t' /\ sameBounds t t' /\
      abstraction t' = refCalls (abstraction t) cs.
Proof.
  induction cs as [|c cs IH]; intros t Hinv Hfit Hcs.
  - exists t. split; [reflexivity|]. split; [exact Hinv|].
    split; [split; reflexivity|]. reflexivity.
  - inversion Hcs as [|c' cs' Hc Hrest]; subst.
    destruct (runCall_refines t c Hinv Hfit Hc) as (t1 & Hrun & Hi & [Hb He] & Ha).
    assert (Hfit1 : spanFits (DST.begin_ t1) (DST.end_ t1))
      by (rewrite Hb, He; exact Hfit).
    assert (Hrest1 : Forall (Calls.inContract (DST.begin_ t1) (DST.end_ t1)) cs)
      by (rewrite Hb, He; exact Hrest).
    destruct (IH t1 Hi Hfit1 Hrest1) as (t' & Hrun' & Hi' & [Hb' He'] & Ha').
    exists t'. cbn [Calls.runCalls]. rewrite Hrun; cbn [bind].
    split; [exact Hrun'|]. split; [exact Hi'|].
    split; [split; congruence|].
    rewrite Ha'. unfold Calls.refCalls. simpl. rewrite Ha. reflexivity.
Qed.

(** The calls keep the bounds of the tree. *)
Lemma runCall_bounds (t t' : Tree) (c : Calls.call) :
  runCall t c = Done t' -> sameBounds t t'.
Proof.
  unfold sameBounds.
  destruct c as [b e v | b e v | b e a | k | b e]; cbn [Calls.runCall].
  - unfold DST.set. destruct (b <? e).
    + destruct (DST.setImpl_ _ _ _ _ _ _ _ _); cbn [bind]; try discriminate.
      intros [= <-]. split; reflexivity.
    + intros [= <-]. split; reflexivity.
  - unfold DST.set_rvalue. destruct (b <? e).
    + destruct (DST.setImpl_rvalue _ _ _ _ _ _ _ _); cbn [bind]; try discriminate.
      intros [= <-]. split; reflexivity.
    + intros [= <-]. split; reflexivity.
  - unfold DST.update.
    destruct (DST.updateImpl_ _ _ _ _ _ _ _ _); cbn [bind]; try discriminate.
    intros [= <-]. split; reflexivity.
  - unfold DST.get. destruct ((k >=? DST.end_ t) || (k <? DST.begin_ t)).
    + cbn [bind snd]. intros [= <-]. split; reflexivity.
    + destruct (DST.getImpl_ _ _ _ _ _ _); cbn [bind snd]; try discriminate.
      intros [= <-]. split; reflexivity.
  - unfold DST.rangeGet.
    destruct (DST.rangeGetImpl_ _ _ _ _ _ _ _ _ _); cbn [bind snd];
      try discriminate.
    intros [= <-]. split; reflexivity.
Qed.

Lemma runCalls_bounds (cs : list Calls.call) :
  forall t t' : Tree, runCalls t cs = Done t' -> sameBounds t t'.
Proof.
  induction cs as [|c cs IH]; intros t t'; cbn [Calls.runCalls].
  - intros [= <-]. split; reflexivity.
  - destruct (runCall t c) as [t1| |] eqn:Hrun; cbn [bind]; try discriminate.
    intros Hrest. apply runCall_bounds in Hrun. apply IH in Hrest.
    unfold sameBounds in *. split; destruct Hrun, Hrest; congruence.
Qed.



Lemma reachable_invariant (t : Tree) :
  reachable t -> spanFits (DST.begin_ t) (DST.end_ t) -> invariant t.
Proof.
  intros (begin & end' & v0 & cs & Hcs & Hrun) Hfit.
  destruct (runCalls_bounds cs _ _ Hrun) as [Hb He]. simpl in Hb, He.
  destruct (runCalls_refines cs (DST.make begin end' v0)
              (invariant_make begin end' v0))
    as (t' & Hrun' & Hinv & _).
  { simpl. rewrite <- Hb, <- He. exact Hfit. }
  { exact Hcs. }
  rewrite Hrun in Hrun'. injection Hrun' as ->. exact Hinv.
Qed.

(** What [get] answers is a matter of the bounds and the contents alone. *)
Lemma get_same_answer (t u : Tree) (k : Z) :
  invariant t -> invariant u -> abstraction t = abstraction u ->
  DST.end_ t = DST.end_ u ->
  exists r t' u',
    DST.get updateOp t k = Done (r, t') /\
    DST.get updateOp u k = Done (r, u').
Proof.
  intros Ht Hu Habs Hend.
  assert (Hbegin : DST.begin_ t = DST.begin_ u).
  { change (Reference.refBegin (abstraction t) = Reference.refBegin (abstraction u)).
    rewrite Habs. reflexivity. }
  destruct (get_refines t k Ht) as (r & t' & Hget & _ & _ & _ & Hr).
  destruct (get_refines u k Hu) as (r' & u' & Hget' & _ & _ & _ & Hr').
  exists r, t', u'. split; [exact Hget|].
  destruct ((k >=? DST.end_ t) || (k <? DST.begin_ t)) eqn:Hout.
  - unfold DST.get in Hget, Hget' |- *.
    rewrite <- Hend, <- Hbegin in Hget' |- *.
    rewrite Hout in Hget, Hget' |- *.
    injection Hget as <- _. injection Hget' as <- <-. reflexivity.
  - assert (Hin : DST.begin_ t <= k < DST.end_ t) by lia.
    assert (Hin' : DST.begin_ u <= k < DST.end_ u) by lia.
    rewrite Hget'. do 2 f_equal.
    rewrite (Hr Hin), (Hr' Hin'). f_equal.
    pose proof (reference_get t k Hin) as H1.
    pose proof (reference_get u k Hin') as H2.
    rewrite Habs, H2 in H1. injection H1 as H1. congruence.
Qed.

(** Under the requirements on the functors, so is what [rangeGet] answers. *)
Lemma rangeGet_same_answer (t u : Tree) (b e : Z) :
  DST.combinerAssociative combineGet_ ->
  DST.initializerConsistent initGet_ combineGet_ ->
  invariant t -> invariant u -> abstraction t = abstraction u ->
  DST.end_ t = DST.end_ u ->
  spanFits (DST.begin_ t) (DST.end_ t) ->
  DST.begin_ t <= b -> b < e -> e <= DST.end_ t ->
  exists g t' u',
    DST.rangeGet updateOp initGet_ combineGet_ t b e = Done (g, t') /\
    DST.rangeGet updateOp initGet_ combineGet_ u b e = Done (g, u').
Proof.
  intros Hassoc Hcons Ht Hu Habs Hend Hfit Hb Hbe He.
  assert (Hbegin : DST.begin_ t = DST.begin_ u).
  { change (Reference.refBegin (abstraction t) = Reference.refBegin (abstraction u)).
    rewrite Habs. reflexivity. }
  destruct (rangeGet_refines t b e Ht Hfit Hb Hbe He)
    as (g & t' & Hget & _ & _ & _ & Hg).
  destruct (rangeGet_refines u b e Hu) as (g' & u' & Hget' & _ & _ & _ & Hg');
    try lia.
  { rewrite <- Hbegin, <- Hend. exact Hfit. }
  exists g, t', u'. split; [exact Hget|].
  rewrite Hget'. do 2 f_equal.
  specialize (Hg Hassoc Hcons). specialize (Hg' Hassoc Hcons).
  rewrite Habs, Hg' in Hg. injection Hg as Hg. exact Hg.
Qed.


End Proofs.

End Refinement.

(** ** Sums of keys that overflow [KeyT] *)

Module Wrapping.

(** On [unsigned] with 32 bits every midpoint is below [2^31]. *)
Lemma midpoint_uint32 (cb ce : Z) :
  0 <= midpoint (K:=uint32) cb ce <= 2147483647.
Proof.
  unfold midpoint.
  pose proof (keyWrap_range (K:=uint32) (cb + ce)) as Hw.
  unfold keyMax, keyMin in Hw. cbn in Hw.
  set (w := keyWrap (cb + ce)) in *.
  pose proof (Z.quot_rem' w 2) as Hq.
  pose proof (Z.rem_bound_abs w 2) as Hr.
  assert (Hn : 0 <= Z.rem w 2) by (apply Z.rem_nonneg; lia).
  lia.
Qed.

Section Walks.

Context {T A G : Type}.
Variable updateOp : T -> A -> T.
Variable initGet_ : Z -> Z -> T -> G.
Variable combineGet_ : G -> G -> Z -> Z -> Z -> G.

Notation Node := (Node T A).

(** A node that a walk opens has children and no pending update. *)
Lemma opens (n : Node) :
  exists n1 l r,
    DST.initChildrenIfLeaf n = Done n1 /\
    DST.optionalSiftNodeUpdate_ updateOp n1 = Done (Inner l r None).
Proof.
  unfold DST.initChildrenIfLeaf, DST.optionalSiftNodeUpdate_, siftOptUpdate.
  destruct n as [v [a|] | l r [a|]];
    cbn [isLeaf initChildren updateValue bind];
    do 3 eexists; split; reflexivity.
Qed.

(** Over a span that ends at 4294967240, every midpoint is below the range
    of [set(4294967200, 4294967201, v)]: the walk takes the right child, whose
    span ends at 4294967240 again, and never meets a span that the range
    covers. *)
Lemma setImpl_goes_right_forever (fuel : nat) :
  forall (cb : Z) (n : Node) (v : T),
    cb < 4294967201 ->
    DST.setImpl_ (K:=uint32) updateOp fuel 4294967200 4294967201
      cb 4294967240 n v = OutOfFuel.
Proof.
  induction fuel as [|fuel IH]; intros cb n v Hcb; [reflexivity|].
  cbn [DST.setImpl_].
  replace (cb <? 4294967201) with true by lia.
  cbn [assert bind Z.gtb Z.ltb Z.compare Pos.compare Pos.compare_cont].
  replace ((4294967201 >=? 4294967240) && (4294967200 <=? cb)) with false
    by reflexivity.
  destruct (opens n) as (n1 & l & r & Hinit & Hsift).
  rewrite Hinit; cbn [bind]. rewrite Hsift; cbn [bind].
  pose proof (midpoint_uint32 cb 4294967240) as Hmid.
  set (mid := midpoint cb 4294967240) in *.
  replace (mid >? 4294967200) with false by lia.
  replace (mid <? 4294967201) with true by lia.
  cbn [bind]. rewrite IH by lia. reflexivity.
Qed.

(** C1.  The tree that
    [DynamicSegmentTree<unsigned, ...>(4294967200u, 4294967240u, v0)]
    constructs, with 32 bits in an [unsigned], has the 40 keys from
    4294967200 to 4294967239.  The call [set(4294967200, 4294967201, v)] is in
    contract, and the reference then holds [v] for the key 4294967200.  In
    the tree the call never returns: [currBegin + currEnd] wraps around,
    every midpoint is below [2^31], and [setImpl_] descends to the right
    without end, whatever the depth it is allowed.  No [get] follows. *)
Theorem set_never_returns_when_the_sum_wraps (fuel : nat) (v0 v : T) :
  Calls.inContract 4294967200 4294967240
    (Calls.CallSet (A:=A) 4294967200 4294967201 v) /\
  Reference.get
    (Reference.set (Reference.make 4294967200 4294967240 v0)
       4294967200 4294967201 v) 4294967200 = Some v /\
  DST.setImpl_ (K:=uint32) updateOp fuel 4294967200 4294967201
    4294967200 4294967240 (Leaf v0 None) v = OutOfFuel /\
  DST.set (K:=uint32) updateOp (DST.make 4294967200 4294967240 v0)
    4294967200 4294967201 v = OutOfFuel.
Proof.
  split; [simpl; lia|]. split; [reflexivity|]. split.
  - apply setImpl_goes_right_forever. lia.
  - unfold DST.set. cbn [Z.ltb Z.compare Pos.compare Pos.compare_cont].
    cbn [DST.make DST.begin_ DST.end_ DST.rootNode_].
    rewrite setImpl_goes_right_forever by lia. reflexivity.
Qed.

(** Over a span that ends at [2^31 + 1], every midpoint is below the end
    [2^31] of the range of [rangeGet(0, 2^31)]: the walk always visits the
    right child, first or only, and never meets a span that the range
    covers. *)
Lemma rangeGetImpl_goes_right_forever (fuel : nat) :
  forall (cb : Z) (n : Node),
    0 <= cb <= 2147483647 ->
    DST.rangeGetImpl_ (K:=uint32) updateOp initGet_ combineGet_ fuel
      0 2147483648 cb 2147483649 n = OutOfFuel.
Proof.
  induction fuel as [|fuel IH]; intros cb n Hcb; [reflexivity|].
  cbn [DST.rangeGetImpl_].
  replace ((0 >? 2147483649) || (cb >? 2147483648)) with false by lia.
  replace ((2147483648 >=? 2147483649) && (0 <=? cb)) with false by reflexivity.
  cbn [andb].
  destruct (opens n) as (n1 & l & r & Hinit & Hsift).
  rewrite Hinit; cbn [bind]. rewrite Hsift; cbn [bind].
  pose proof (midpoint_uint32 cb 2147483649) as Hmid.
  set (mid := midpoint cb 2147483649) in *.
  destruct (0 >=? mid).
  - rewrite IH by lia. reflexivity.
  - replace (2147483648 <=? mid) with false by lia.
    rewrite IH by lia. reflexivity.
Qed.

(** C2.  The tree that
    [DynamicSegmentTree<unsigned, ...>(0u, 2147483649u, v0)] constructs, with
    32 bits in an [unsigned], has the keys from 0 to [2^31].  The query
    [rangeGet(0, 2147483648)] has a non-empty range inside the key range;
    whatever the functors are, associative and consistent or not, it never
    returns: at the span from [2^31 - 1] to [2^31 + 1] the sum wraps around
    to 0, the midpoint is 0, and the right child is given the whole key
    range again. *)
Theorem rangeGet_never_returns_when_the_sum_wraps (fuel : nat) (v0 : T) :
  Calls.inContract 0 2147483649
    (Calls.CallRangeGet (T:=T) (A:=A) 0 2147483648) /\
  midpoint (K:=uint32) 2147483647 2147483649 = 0 /\
  DST.rangeGetImpl_ (K:=uint32) updateOp initGet_ combineGet_ fuel
    0 2147483648 0 2147483649 (Leaf v0 None) = OutOfFuel /\
  DST.rangeGet (K:=uint32) updateOp initGet_ combineGet_
    (DST.make 0 2147483649 v0) 0 2147483648 = OutOfFuel.
Proof.
  split; [simpl; lia|]. split; [reflexivity|]. split.
  - apply rangeGetImpl_goes_right_forever. lia.
  - unfold DST.rangeGet.
    cbn [DST.make DST.begin_ DST.end_ DST.rootNode_].
    rewrite rangeGetImpl_goes_right_forever by lia. reflexivity.
Qed.

End Walks.

(** Against C4 as stated: with an initializer that answers 1 for every span
    and a combiner that adds, which are not consistent with each other,
    [rangeGet] counts the leaves it meets.  [update(9, 9, 100)] on a fresh
    tree over [0, 42) changes no value and splits the root down to the key
    9: [rangeGet(0, 42)] answers 1 before the call and 7 after it. *)
Lemma empty_update_changes_rangeGet :
  exists t' : DST.DynamicSegmentTree (T:=Z) (A:=Z),
    DST.update (K:=int32) Z.add (DST.make 0 42 54) 9 9 100 = Done t' /\
    allocatedBlocks (DST.rootNode_ t') = 6%nat /\
    Calls.answer
      (DST.rangeGet (K:=int32) Z.add (fun _ _ _ => 1) SumTree.sumCombine
         (DST.make 0 42 54) 0 42) = Some 1 /\
    Calls.answer
      (DST.rangeGet (K:=int32) Z.add (fun _ _ _ => 1) SumTree.sumCombine
         t' 0 42) = Some 7.
Proof.
  eexists. split; [vm_compute; reflexivity|].
  split; [reflexivity|]. split; vm_compute; reflexivity.
Qed.

End Wrapping.

(** ** The sum tree meets the requirements of a range query *)

Module SumTreeFacts.

Import SumTree.

Lemma sum_associative : DST.combinerAssociative sumCombine.
Proof. unfold DST.combinerAssociative, sumCombine. intros. lia. Qed.

Lemma sum_consistent : DST.initializerConsistent sumInit sumCombine.
Proof. unfold DST.initializerConsistent, sumInit, sumCombine. intros. lia. Qed.

Lemma calls_inContract : Forall (Calls.inContract 0 42) calls.
Proof.
  unfold calls.
  repeat (apply Forall_cons; [simpl; try lia; exact I|]).
  apply Forall_nil.
Qed.

End SumTreeFacts.

(** ** Point queries, whole-range assignment and pending updates *)

Module Properties.

Section Generic.

Context {K : KeyT} {T A : Type}.
Variable updateOp : T -> A -> T.

Notation Tree := (DST.DynamicSegmentTree (T:=T) (A:=A)).


(** The walk of [get] moves pending updates down and nothing else: the
    nodes that exist after the call are those that existed before. *)
Lemma getImpl_shape (fuel : nat) (key cb ce : Z) (n : Node T A) :
  (DST.height n < fuel)%nat ->
  exists v n',
    DST.getImpl_ updateOp fuel key cb ce n = Done (v, n') /\
    shape n' = shape n.
Proof.
  intros Hfuel.
  destruct (DSTFacts.getImpl_spec updateOp fuel key cb ce n Hfuel)
    as (n' & Hrun & Hshape & _).
  eauto.
Qed.

(** C10.  Whatever the state of the tree and the key, [get] returns and
    the tree has afterwards exactly the nodes it had before, in the same
    places, so the blocks it holds from the allocator are the same. *)
Theorem get_keeps_topology (t : Tree) (k : Z) :
  exists (r : T + DST.exception) (t' : Tree),
    DST.get updateOp t k = Done (r, t') /\
    shape (DST.rootNode_ t') = shape (DST.rootNode_ t) /\
    allocatedBlocks (DST.rootNode_ t') = allocatedBlocks (DST.rootNode_ t) /\
    DST.begin_ t' = DST.begin_ t /\ DST.end_ t' = DST.end_ t.
Proof.
  assert (Hblocks : forall n n' : Node T A,
            shape n' = shape n -> allocatedBlocks n' = allocatedBlocks n).
  { intros n. induction n as [v u | l IHl r IHr u];
      intros [v' u' | l' r' u'] E; simpl in *; try discriminate; auto.
    injection E as El Er. rewrite (IHl _ El), (IHr _ Er). reflexivity. }
  unfold DST.get.
  destruct ((k >=? DST.end_ t) || (k <? DST.begin_ t)).
  - eexists _, t. repeat split.
  - destruct (getImpl_shape (S (DST.height (DST.rootNode_ t))) k
                (DST.begin_ t) (DST.end_ t) (DST.rootNode_ t))
      as (v & n' & Hrun & Hshape); [lia|].
    rewrite Hrun; cbn [bind fst snd].
    eexists _, (DST.withRoot t n'). simpl. repeat split; auto.
Qed.


(** C6.  [Node::update] on a node that has children and a pending argument
    applies the old argument to both children, by [Node::update] itself, and
    leaves exactly the new argument in the slot; for every key the node then
    stands for the value with the old argument applied first and the new one
    second.  Nothing is asked of the type of the arguments. *)
Theorem update_pushes_old_pending_down
    (l r : Node T A) (old new : A) (cb ce k : Z) :
  Impl.update updateOp new (Inner l r (Some old)) =
    Inner (Impl.update updateOp old l) (Impl.update updateOp old r) (Some new) /\
  updateValue (Impl.update updateOp new (Inner l r (Some old))) = Some new /\
  valueAt updateOp (Impl.update updateOp new (Inner l r (Some old))) cb ce k =
    updateOp
      (updateOp
         (if k >=? midpoint cb ce
          then valueAt updateOp r (midpoint cb ce) ce k
          else valueAt updateOp l cb (midpoint cb ce) k)
         old)
      new.
Proof.
  split; [reflexivity|]. split; [reflexivity|].
  simpl. destruct (k >=? midpoint cb ce); rewrite update_valueAt; reflexivity.
Qed.

End Generic.

#[local] Existing Instance int32.

(** The text of the exception names the key: two keys never give the same
    text. *)
Lemma string_length_append (s1 s2 : string) :
  String.length (s1 ++ s2) = (String.length s1 + String.length s2)%nat.
Proof.
  induction s1 as [|c s1 IH]; simpl; [|rewrite IH]; reflexivity.
Qed.

Lemma string_append_cancel_r (s1 s2 t : string) :
  (s1 ++ t = s2 ++ t)%string -> s1 = s2.
Proof.
  revert s2. induction s1 as [|c s1 IH]; intros [|c2 s2] H; simpl in H.
  - reflexivity.
  - apply (f_equal String.length) in H. simpl in H.
    rewrite string_length_append in H. lia.
  - apply (f_equal String.length) in H. simpl in H.
    rewrite string_length_append in H. lia.
  - injection H as -> H. f_equal. apply IH. exact H.
Qed.

Lemma showKey_injective (k1 k2 : Z) :
  DST.showKey k1 = DST.showKey k2 -> k1 = k2.
Proof.
  unfold DST.showKey. intros H.
  apply DecimalZ.to_int_inj.
  assert (Hparse : forall k,
            NilZero.int_of_string (NilZero.string_of_int (Z.to_int k))
            = Some (Z.to_int k)).
  { intros [|p|p]; simpl Z.to_int.
    - reflexivity.
    - apply NilZero.isi; [|discriminate].
      intros E. injection E as E. exact (DecimalPos.Unsigned.to_uint_nonnil p E).
    - apply NilZero.isi; [discriminate|].
      intros E. injection E as E. exact (DecimalPos.Unsigned.to_uint_nonnil p E). }
  pose proof (Hparse k1) as H1. rewrite H, Hparse in H1.
  injection H1 as H1. symmetry. exact H1.
Qed.

Lemma getMessage_injective (k1 k2 : Z) :
  DST.getMessage k1 = DST.getMessage k2 -> k1 = k2.
Proof.
  unfold DST.getMessage. intros H. simpl in H.
  injection H as H.
  apply showKey_injective.
  apply (string_append_cancel_r _ _ _ H).
Qed.



End Properties.

(** ** The older tree *)

Module LegacyFacts.

Section Walks.

Context {K : KeyT} {T : Type}.
Variable nodeSiftDown : Node T T -> Node T T.
Variable nodeSetValue : T -> Node T T -> Node T T.
Variable valueInit : T.
Variable updateOp : T -> T -> T.

Notation _setImpl := (Legacy._setImpl nodeSiftDown nodeSetValue).
Notation _setImpl_corrected := (Legacy._setImpl_corrected nodeSiftDown nodeSetValue).

(** A call on a span that the range does not meet returns at once. *)
Lemma _setImpl_miss (fuel : nat) (b e cb ce : Z) (n : Node T T) (v : T) :
  (b >=? ce) || (cb >=? e) = true ->
  _setImpl (S fuel) b e cb ce n v = Done n.
Proof.
  intros H. cbn [Legacy._setImpl]. rewrite H. reflexivity.
Qed.

Lemma sameValues_refl (cb ce : Z) (n : Node T T) :
  Legacy.sameValues updateOp cb ce (Done n) (Done n).
Proof. intros k _. reflexivity. Qed.

(** Runs that end alike on the two halves end alike on the span. *)
Lemma sameValues_Inner (cb ce : Z) (ol ol' or or' : outcome (Node T T))
    (u : option T) :
  Legacy.sameValues updateOp cb (midpoint cb ce) ol ol' ->
  Legacy.sameValues updateOp (midpoint cb ce) ce or or' ->
  Legacy.sameValues updateOp cb ce
    (l' <- ol ;; r' <- or ;; Done (Inner l' r' u))
    (l' <- ol' ;; r' <- or' ;; Done (Inner l' r' u)).
Proof.
  intros Hl Hr.
  destruct ol as [l1| |], ol' as [l2| |]; cbn [bind Legacy.sameValues] in *;
    try contradiction; try exact I.
  destruct or as [r1| |], or' as [r2| |]; cbn [bind Legacy.sameValues] in *;
    try contradiction; try exact I.
  intros k Hk. simpl.
  destruct (k >=? midpoint cb ce) eqn:Hside.
  - rewrite Hr by lia. reflexivity.
  - rewrite Hl by lia. reflexivity.
Qed.

(** Whatever the midpoints are, the two recursions end alike.  They differ
    in two calls: the older one calls a left child that the range does not
    reach, and the call returns at once; the newer one calls a left child
    whose span is empty when the midpoint is not above [currBegin], and the
    value it puts there is read by no key. *)
Lemma _setImpl_sameValues (fuel : nat) :
  (forall n, isLeaf (nodeSiftDown n) = false) ->
  forall (b e cb ce : Z) (n : Node T T) (v : T),
    b < e ->
    Legacy.sameValues updateOp cb ce
      (_setImpl fuel b e cb ce n v) (_setImpl_corrected fuel b e cb ce n v).
Proof.
  intros Hsift.
  induction fuel as [|fuel IH]; intros b e cb ce n v Hbe; [exact I|].
  cbn [Legacy._setImpl Legacy._setImpl_corrected].
  destruct ((b >=? ce) || (cb >=? e)) eqn:Hmiss; [apply sameValues_refl|].
  destruct ((e >=? ce) && (b <=? cb)) eqn:Hcover; [apply sameValues_refl|].
  set (m := midpoint cb ce).
  pose proof (Hsift n) as Hn.
  destruct (nodeSiftDown n) as [x u | l r u]; [discriminate|].
  replace (ce >=? b + 1) with true by lia.
  destruct fuel as [|fuel].
  { cbn [Legacy._setImpl Legacy._setImpl_corrected].
    destruct (m >=? cb + 1); destruct (m >? b) eqn:Hgo; cbn [bind];
      try exact I.
    - replace (m <? e) with true by lia. exact I.
    - replace (m <? e) with true by lia. exact I. }
  apply sameValues_Inner; fold m.
  - destruct (m >=? cb + 1) eqn:Hl; destruct (m >? b) eqn:Hgo.
    + apply IH; exact Hbe.
    + rewrite _setImpl_miss by lia. apply sameValues_refl.
    + cbn [Legacy._setImpl_corrected].
      replace ((b >=? m) || (cb >=? e)) with false by lia.
      replace ((e >=? m) && (b <=? cb)) with true by lia.
      intros k Hk. lia.
    + apply sameValues_refl.
  - destruct (m <? e) eqn:Hgo.
    + apply IH; exact Hbe.
    + rewrite _setImpl_miss by lia. apply sameValues_refl.
Qed.

(** Where no sum of two keys of the span overflows, the two recursions
    return and leave the same node. *)
Lemma _setImpl_same_node (fuel : nat) :
  (forall n, isLeaf (nodeSiftDown n) = false) ->
  forall (b e cb ce : Z) (n : Node T T) (v : T),
    b < e ->
    spanFits cb ce ->
    (Z.to_nat (ce - cb) < fuel)%nat ->
    exists n',
      _setImpl fuel b e cb ce n v = Done n' /\
      _setImpl_corrected fuel b e cb ce n v = Done n'.
Proof.
  intros Hsift.
  induction fuel as [|fuel IH]; intros b e cb ce n v Hbe Hfit Hfuel; [lia|].
  cbn [Legacy._setImpl Legacy._setImpl_corrected].
  destruct ((b >=? ce) || (cb >=? e)) eqn:Hmiss; [eauto|].
  destruct ((e >=? ce) && (b <=? cb)) eqn:Hcover; [eauto|].
  assert (Hspan : cb + 2 <= ce) by lia.
  pose proof (midpoint_bounds cb ce Hfit Hspan) as Hmid.
  destruct (spanFits_halves cb ce Hfit) as [Hfl Hfr]; [lia|].
  set (m := midpoint cb ce) in *.
  pose proof (Hsift n) as Hn.
  destruct (nodeSiftDown n) as [x u | l r u]; [discriminate|].
  replace (m >=? cb + 1) with true by lia.
  replace (ce >=? b + 1) with true by lia.
  assert (exists l',
            _setImpl fuel b e cb m l v = Done l' /\
            (if m >? b then _setImpl_corrected fuel b e cb m l v else Done l)
              = Done l') as (l' & Hl1 & Hl2).
  { destruct (m >? b) eqn:Hgo.
    - apply IH; auto; lia.
    - exists l. split; [|reflexivity].
      destruct fuel as [|fuel']; [lia|].
      apply _setImpl_miss. lia. }
  assert (exists r',
            _setImpl fuel b e m ce r v = Done r' /\
            (if m <? e then _setImpl_corrected fuel b e m ce r v else Done r)
              = Done r') as (r' & Hr1 & Hr2).
  { destruct (m <? e) eqn:Hgo.
    - apply IH; auto; lia.
    - exists r. split; [|reflexivity].
      destruct fuel as [|fuel']; [lia|].
      apply _setImpl_miss. lia. }
  rewrite Hl1, Hl2; cbn [bind]. rewrite Hr1, Hr2; cbn [bind].
  eauto.
Qed.

(** C8.  For a non-empty range, whatever the node and the key type are, the
    recursion of [_setImpl], whose right branch stands under
    [currEnd >= begin + 1] and whose left branch under [m >= currBegin + 1],
    and the recursion that takes the left branch under [m > begin] and the
    right branch under [m < end] end alike: both return, with nodes that
    stand for the same value at every key of the span, or neither returns.
    Where no sum of two keys of the span overflows [KeyT], both return, and
    they leave the very same node.  [siftDown] is any function that leaves a
    node with children. *)
Theorem legacy_setImpl_agrees_with_corrected (fuel : nat) :
  (forall n, isLeaf (nodeSiftDown n) = false) ->
  forall (b e cb ce : Z) (n : Node T T) (v : T),
    b < e ->
    Legacy.sameValues updateOp cb ce
      (_setImpl fuel b e cb ce n v) (_setImpl_corrected fuel b e cb ce n v) /\
    (spanFits cb ce ->
     (Z.to_nat (ce - cb) < fuel)%nat ->
     exists n',
       _setImpl fuel b e cb ce n v = Done n' /\
       _setImpl_corrected fuel b e cb ce n v = Done n').
Proof.
  intros Hsift b e cb ce n v Hbe. split.
  - apply _setImpl_sameValues; assumption.
  - intros Hfit Hfuel. apply _setImpl_same_node; assumption.
Qed.

(** C9.  In the older header [get(key)] with [key < _begin] or
    [key >= _end] raises nothing: it returns [ValueT{}] and the tree is as it
    was. *)
Theorem legacy_get_out_of_range
    (t : Legacy.DynamicSegmentTree (T:=T)) (key : Z) :
  key < Legacy._begin t \/ Legacy._end t <= key ->
  Legacy.get nodeSiftDown valueInit t key = Done (valueInit, t).
Proof.
  intros Hout. unfold Legacy.get.
  replace ((key >=? Legacy._end t) || (key <? Legacy._begin t)) with true by lia.
  reflexivity.
Qed.

End Walks.

Section Modelled.

Context {K : KeyT} {T : Type}.
Variable updateOp : T -> T -> T.

Lemma siftDown_has_children (n : Node T T) :
  isLeaf (Legacy.siftDown updateOp n) = false.
Proof.
  destruct n as [v [a|] | l r [a|]]; reflexivity.
Qed.

(** The modelled [siftDown] is what the newer tree does to a node it opens:
    [initChildren] on a leaf, then the sift. *)
Lemma siftDown_opens (n : Node T T) :
  (n1 <- DST.initChildrenIfLeaf n ;; DST.optionalSiftNodeUpdate_ updateOp n1)
  = Done (Legacy.siftDown updateOp n).
Proof.
  destruct n as [v [a|] | l r [a|]]; reflexivity.
Qed.

(** With that [siftDown], the corrected recursion is [setImpl_] of the newer
    header on every call that meets the assertions of [setImpl_]. *)
Lemma corrected_is_setImpl_ (fuel : nat) :
  forall (b e cb ce : Z) (n : Node T T) (v : T),
    b < e -> cb < e -> b < ce ->
    Legacy._setImpl_corrected (Legacy.siftDown updateOp) setValue
      fuel b e cb ce n v =
    DST.setImpl_ updateOp fuel b e cb ce n v.
Proof.
  induction fuel as [|fuel IH]; intros b e cb ce n v Hbe Hcb Hce;
    [reflexivity|].
  cbn [Legacy._setImpl_corrected DST.setImpl_].
  replace ((b >=? ce) || (cb >=? e)) with false by lia.
  replace (cb <? e) with true by lia.
  replace (ce >? b) with true by lia.
  replace (b <? e) with true by lia.
  cbn [assert bind].
  destruct ((e >=? ce) && (b <=? cb)) eqn:Hcover; [reflexivity|].
  pose proof (siftDown_opens n) as Hopen.
  destruct (DST.initChildrenIfLeaf n) as [n1| |]; cbn [bind] in Hopen |- *;
    try discriminate.
  rewrite Hopen.
  pose proof (siftDown_has_children n) as Hn.
  destruct (Legacy.siftDown updateOp n) as [x u | l r u]; [discriminate|].
  cbn [bind].
  set (m := midpoint cb ce).
  destruct (m >? b) eqn:Hl; destruct (m <? e) eqn:Hr;
    repeat rewrite IH by lia; reflexivity.
Qed.

(** With that [siftDown], [_getImpl] is [getImpl_] of the newer header. *)
Lemma _getImpl_is_getImpl_ (fuel : nat) :
  forall (key cb ce : Z) (n : Node T T),
    Legacy._getImpl (Legacy.siftDown updateOp) fuel key cb ce n =
    DST.getImpl_ updateOp fuel key cb ce n.
Proof.
  induction fuel as [|fuel IH]; intros key cb ce n; [reflexivity|].
  destruct n as [v u | l r u]; [reflexivity|].
  cbn [Legacy._getImpl DST.getImpl_ isLeaf].
  pose proof (siftDown_opens (Inner l r u)) as Hopen.
  cbn [DST.initChildrenIfLeaf isLeaf bind] in Hopen. rewrite Hopen.
  cbn [bind].
  destruct (Legacy.siftDown updateOp (Inner l r u)) as [x w | l' r' w];
    [reflexivity|].
  rewrite !IH. reflexivity.
Qed.

Lemma siftDown_keeps (n : Node T T) :
  leavesClean n ->
  leavesClean (Legacy.siftDown updateOp n) /\
  forall cb ce k,
    valueAt updateOp (Legacy.siftDown updateOp n) cb ce k =
    valueAt updateOp n cb ce k.
Proof.
  destruct n as [v u | l r u]; simpl.
  - intros ->. split; [split; reflexivity|].
    intros cb ce k. simpl. destruct (k >=? midpoint cb ce); reflexivity.
  - intros [Hl Hr]. destruct u as [a|]; simpl.
    + split; [split; apply update_leavesClean; assumption|].
      intros cb ce k.
      destruct (k >=? midpoint cb ce); apply update_valueAt.
    + split; [split; assumption | reflexivity].
Qed.

(** [_updateImpl] on a range with [begin >= end] never reaches [update]:
    it only sifts, and the node says afterwards what it said before. *)
Lemma _updateImpl_empty_range (fuel : nat) :
  forall (b e cb ce : Z) (n : Node T T) (a : T),
    e <= b ->
    spanFits cb ce ->
    leavesClean n ->
    (Z.to_nat (ce - cb) < fuel)%nat ->
    exists n',
      Legacy._updateImpl (Legacy.siftDown updateOp) (Impl.update updateOp)
        fuel b e cb ce n a = Done n' /\
      leavesClean n' /\
      forall k, valueAt updateOp n' cb ce k = valueAt updateOp n cb ce k.
Proof.
  induction fuel as [|fuel IH]; intros b e cb ce n a Hbe Hfit Hclean Hfuel;
    [lia|].
  cbn [Legacy._updateImpl].
  destruct ((b >=? ce) || (cb >=? e)) eqn:Hmiss.
  { exists n. split; [reflexivity|]. split; [exact Hclean | reflexivity]. }
  replace ((e >=? ce) && (b <=? cb)) with false by lia.
  assert (Hspan : cb + 2 <= ce) by lia.
  pose proof (midpoint_bounds cb ce Hfit Hspan) as Hmid.
  destruct (spanFits_halves cb ce Hfit) as [Hfl Hfr]; [lia|].
  set (m := midpoint cb ce) in *.
  destruct (siftDown_keeps n Hclean) as [Hclean' Hval].
  pose proof (siftDown_has_children n) as Hn.
  destruct (Legacy.siftDown updateOp n) as [x u | l r u]; [discriminate|].
  destruct Hclean' as [Hl Hr].
  replace (m >=? cb + 1) with true by lia.
  replace (ce >=? m + 1) with true by lia.
  destruct (IH b e cb m l a Hbe Hfl Hl) as (l' & Hrunl & Hcl & Hvl); [lia|].
  destruct (IH b e m ce r a Hbe Hfr Hr) as (r' & Hrunr & Hcr & Hvr); [lia|].
  rewrite Hrunl; cbn [bind]. rewrite Hrunr; cbn [bind].
  exists (Inner l' r' u). split; [reflexivity|]. split; [split; assumption|].
  intros k. rewrite <- Hval. simpl. fold m.
  rewrite Hvl, Hvr. reflexivity.
Qed.

Lemma legacy_get_in_range
    (valueInit : T) (t : Legacy.DynamicSegmentTree (T:=T)) (k : Z) :
  (k >=? Legacy._end t) || (k <? Legacy._begin t) = false ->
  exists u,
    Legacy.get (Legacy.siftDown updateOp) valueInit t k =
    Done (valueAt updateOp (Legacy._rootNode t) (Legacy._begin t)
            (Legacy._end t) k, u).
Proof.
  intros Hout. unfold Legacy.get. rewrite Hout.
  rewrite _getImpl_is_getImpl_.
  destruct (DSTFacts.getImpl_spec updateOp (S (DST.height (Legacy._rootNode t)))
              k (Legacy._begin t) (Legacy._end t) (Legacy._rootNode t))
    as (n1 & Hget1 & _); [lia|].
  rewrite Hget1; cbn [bind fst snd]. eauto.
Qed.

(** In the older tree too, [update] with [begin >= end] changes no answer
    of [get]. *)
Lemma legacy_update_empty_range
    (valueInit : T) (t : Legacy.DynamicSegmentTree (T:=T)) (b e : Z) (a : T)
    (k : Z) :
  e <= b ->
  spanFits (Legacy._begin t) (Legacy._end t) ->
  leavesClean (Legacy._rootNode t) ->
  exists t' v u u',
    Legacy.update (Legacy.siftDown updateOp) (Impl.update updateOp) t b e a
      = Done t' /\
    Legacy.get (Legacy.siftDown updateOp) valueInit t k = Done (v, u) /\
    Legacy.get (Legacy.siftDown updateOp) valueInit t' k = Done (v, u').
Proof.
  intros Hbe Hfit Hclean. unfold Legacy.update.
  destruct (_updateImpl_empty_range (Legacy.spanFuel t) b e
              (Legacy._begin t) (Legacy._end t) (Legacy._rootNode t) a
              Hbe Hfit Hclean)
    as (n' & Hrun & Hclean' & Hval); [unfold Legacy.spanFuel; lia|].
  rewrite Hrun; cbn [bind].
  destruct ((k >=? Legacy._end t) || (k <? Legacy._begin t)) eqn:Hout.
  - exists (Legacy.withRoot t n'), valueInit, t, (Legacy.withRoot t n').
    unfold Legacy.get.
    cbn [Legacy.withRoot Legacy._begin Legacy._end]. rewrite Hout. auto.
  - destruct (legacy_get_in_range valueInit t k Hout) as (u & Hget).
    destruct (legacy_get_in_range valueInit (Legacy.withRoot t n') k Hout)
      as (u' & Hget').
    cbn [Legacy.withRoot Legacy._begin Legacy._end Legacy._rootNode] in Hget'.
    rewrite Hval in Hget'.
    eexists _, _, _, _. split; [reflexivity|]. split; [exact Hget | exact Hget'].
Qed.

End Modelled.

End LegacyFacts.

(** ** Exceptions in [initChildrenSiftingValue] *)

Module InitChildrenFacts.

Import InitChildren.

Section Storage.

Context {T : Type}.
Variable copyConstruct : nat -> T -> copied (T:=T).
Variable moveConstruct : T -> moved (T:=T).
Variable move_constructible : bool.

Notation initChildrenSiftingValue :=
  (initChildrenSiftingValue copyConstruct moveConstruct move_constructible).

(** What the routine leaves when it throws, case by case. *)
Lemma throws_restores_all_but_value (v : T) (out avail : nat) (s' : Storage) :
  initChildrenSiftingValue (leaf v out avail) = Done (Throws, s') ->
  (s' = leaf v out avail) \/
  (move_constructible = true /\
   exists w, moveConstruct v = MoveThrows w /\ s' = leaf w out avail).
Proof.
  unfold initChildrenSiftingValue, leaf. cbn [assert negb ptr bind buffer].
  unfold allocate. cbn [free].
  destruct avail as [|k].
  { intros H. injection H as <-. left. reflexivity. }
  unfold copyIntoLeft.
  destruct (copyConstruct 0%nat v) as [c|] eqn:Hcopy.
  - unfold moveIntoRight.
    destruct move_constructible.
    + destruct (moveConstruct v) as [tgt src | src] eqn:Hmove.
      * intros H; discriminate.
      * intros H. injection H as <-. right. split; [reflexivity|].
        exists src. split; reflexivity.
    + destruct (copyConstruct 1%nat v) as [c'|] eqn:Hcopy'.
      * intros H; discriminate.
      * intros H. injection H as <-. left. reflexivity.
  - intros H. injection H as <-. left. reflexivity.
Qed.

(** With a move constructor that leaves its source as it was when it
    throws, a throw leaves the leaf, the allocator and the value as they
    were, and nothing has leaked. *)
Lemma throws_restores_with_strong_move (v : T) (out avail : nat) (s' : Storage) :
  (forall x w, moveConstruct x = MoveThrows w -> w = x) ->
  initChildrenSiftingValue (leaf v out avail) = Done (Throws, s') ->
  s' = leaf v out avail.
Proof.
  intros Hstrong H.
  destruct (throws_restores_all_but_value v out avail s' H)
    as [E | (_ & w & Hmove & E)]; [exact E|].
  rewrite E, (Hstrong v w Hmove). reflexivity.
Qed.

(** Without a throw the node has its two children, each with a value, and
    no value of its own. *)
Lemma returns_gives_children (v : T) (out avail : nat) (s' : Storage) :
  initChildrenSiftingValue (leaf v out avail) = Done (Returns, s') ->
  ptr s' = true /\ buffer s' = None /\
  object (leftSlot s') = true /\ object (rightSlot s') = true /\
  held (leftSlot s') <> None /\ held (rightSlot s') <> None /\
  handedOut s' = S out /\ leaked s' = 0%nat.
Proof.
  unfold initChildrenSiftingValue, leaf. cbn [assert negb ptr bind buffer].
  unfold allocate. cbn [free].
  destruct avail as [|k]; [intros H; discriminate|].
  unfold copyIntoLeft.
  destruct (copyConstruct 0%nat v) as [c|] eqn:Hcopy; [|intros H; discriminate].
  unfold moveIntoRight.
  destruct move_constructible.
  - destruct (moveConstruct v) as [tgt src | src]; [|intros H; discriminate].
    intros H. injection H as <-. simpl. repeat split; discriminate.
  - destruct (copyConstruct 1%nat v) as [c'|]; [|intros H; discriminate].
    intros H. injection H as <-. simpl.
    repeat split; discriminate.
Qed.

End Storage.

(** C7 at that type.  The move into the right child throws: the node is a
    leaf again, both children are destroyed, the block is back with the
    allocator and nothing has leaked, but the value of the leaf is no longer
    the one it had. *)
Lemma throwing_move_loses_the_value :
  initChildrenSiftingValue copyP moveP true (leaf ("abc"%string, true) 0 1)
    = Done (Throws, leaf (EmptyString, true) 0 1) /\
  leaf (EmptyString, true) 0 1 <> leaf ("abc"%string, true) 0 1.
Proof.
  split.
  - reflexivity.
  - intros H. discriminate H.
Qed.

End InitChildrenFacts.

(** ** More about the walks of the tree *)

Module TreeFacts.

Section Generic.

Context {K : KeyT} {T A G : Type}.
Variable updateOp : T -> A -> T.
Variable initGet_ : Z -> Z -> T -> G.
Variable combineGet_ : G -> G -> Z -> Z -> Z -> G.

Notation Tree := (DST.DynamicSegmentTree (T:=T) (A:=A)).
Notation Node := (Node T A).
Notation invariant := Abstraction.invariant.
Notation get := (DST.get updateOp).
Notation rangeGet := (DST.rangeGet updateOp initGet_ combineGet_).
Notation rangeGetImpl_ := (DST.rangeGetImpl_ updateOp initGet_ combineGet_).

(** What [get] answers on a tree with a well-formed root. *)
Lemma get_answer (t : Tree) (k : Z) :
  Calls.answer (get t k) =
  if DST.inRange (DST.begin_ t) (DST.end_ t) k
  then Some (inl (valueAt updateOp (DST.rootNode_ t) (DST.begin_ t) (DST.end_ t) k))
  else Some (inr (DST.out_of_range (DST.getMessage k))).
Proof.
  unfold DST.get, DST.inRange.
  destruct ((k >=? DST.end_ t) || (k <? DST.begin_ t)) eqn:Hout.
  - replace ((DST.begin_ t <=? k) && (k <? DST.end_ t)) with false by lia.
    reflexivity.
  - replace ((DST.begin_ t <=? k) && (k <? DST.end_ t)) with true by lia.
    destruct (DSTFacts.getImpl_spec updateOp (S (DST.height (DST.rootNode_ t))) k
                (DST.begin_ t) (DST.end_ t) (DST.rootNode_ t))
      as (n' & Hrun & _); [lia|].
    rewrite Hrun. reflexivity.
Qed.

(** X1.  The two overloads of [set], whose recursions branch differently,
    leave the same tree. *)
Theorem set_overloads_agree (t : Tree) (b e : Z) (v : T) :
  DST.set_rvalue updateOp t b e v = DST.set updateOp t b e v.
Proof.
  unfold DST.set, DST.set_rvalue.
  rewrite DSTFacts.setImpl_rvalue_eq. reflexivity.
Qed.


(** A second run of [getImpl_] finds nothing left to sift. *)
Lemma getImpl_again (fuel : nat) :
  forall (key cb ce : Z) (n n' : Node) (v : T),
    DST.getImpl_ updateOp fuel key cb ce n = Done (v, n') ->
    DST.getImpl_ updateOp fuel key cb ce n' = Done (v, n').
Proof.
  induction fuel as [|fuel IH]; intros key cb ce n n' v; [discriminate|].
  destruct n as [x u | l r u].
  - cbn [DST.getImpl_ isLeaf DST.getValue bind]. intros H.
    injection H as <- <-. reflexivity.
  - cbn [DST.getImpl_ isLeaf].
    destruct (siftOptUpdate_Inner updateOp l r u)
      as (l1 & r1 & Hsift & _).
    unfold DST.optionalSiftNodeUpdate_. rewrite Hsift. cbn [bind].
    destruct (key >=? midpoint cb ce) eqn:Hside.
    + destruct (DST.getImpl_ updateOp fuel key (midpoint cb ce) ce r1)
        as [[w r1']| |] eqn:Hrun; cbn [bind fst snd]; try discriminate.
      intros H. injection H as <- <-.
      cbn [DST.getImpl_ isLeaf]. unfold DST.optionalSiftNodeUpdate_, siftOptUpdate.
      cbn [updateValue bind].
      rewrite (IH _ _ _ _ _ _ Hrun). reflexivity.
    + destruct (DST.getImpl_ updateOp fuel key cb (midpoint cb ce) l1)
        as [[w l1']| |] eqn:Hrun; cbn [bind fst snd]; try discriminate.
      intros H. injection H as <- <-.
      cbn [DST.getImpl_ isLeaf]. unfold DST.optionalSiftNodeUpdate_, siftOptUpdate.
      cbn [updateValue bind].
      rewrite (IH _ _ _ _ _ _ Hrun). reflexivity.
Qed.

(** X3.  [get(k)] always returns.  Asked again, it gives the same answer and
    no longer touches the tree; and it changes the answer for no key. *)
Theorem get_twice (t : Tree) (k : Z) :
  exists (r : T + DST.exception) (t' : Tree),
    get t k = Done (r, t') /\
    get t' k = Done (r, t') /\
    forall j, Calls.answer (get t' j) = Calls.answer (get t j).
Proof.
  unfold DST.get at 1 2.
  destruct ((k >=? DST.end_ t) || (k <? DST.begin_ t)) eqn:Hout.
  - exists (inr (DST.out_of_range (DST.getMessage k))), t.
    split; [reflexivity|]. rewrite Hout. split; reflexivity.
  - destruct (DSTFacts.getImpl_spec updateOp (S (DST.height (DST.rootNode_ t))) k
                (DST.begin_ t) (DST.end_ t) (DST.rootNode_ t))
      as (n' & Hrun & Hshape & _ & Hval); [lia|].
    rewrite Hrun; cbn [bind fst snd].
    eexists _, (DST.withRoot t n'). split; [reflexivity|].
    cbn [DST.withRoot DST.begin_ DST.end_ DST.rootNode_]. rewrite Hout.
    rewrite (DSTFacts.height_shape n' (DST.rootNode_ t) Hshape).
    rewrite (getImpl_again _ _ _ _ _ _ _ Hrun). cbn [bind fst snd].
    split; [reflexivity|].
    intros j. rewrite !get_answer.
    cbn [DST.withRoot DST.begin_ DST.end_ DST.rootNode_].
    rewrite Hval. reflexivity.
Qed.

(** A node that [rangeGetImpl_] has opened: it has children and no pending
    update. *)
Lemma opened (n n1 n2 : Node) :
  DST.initChildrenIfLeaf n = Done n1 ->
  DST.optionalSiftNodeUpdate_ updateOp n1 = Done n2 ->
  exists l r, n2 = Inner l r None.
Proof.
  unfold DST.initChildrenIfLeaf, DST.optionalSiftNodeUpdate_, siftOptUpdate.
  destruct n as [v [a|] | l r [a|]]; cbn [isLeaf initChildren updateValue];
    intros H1 H2; injection H1 as <-; cbn [updateValue] in H2;
    injection H2 as <-; eauto.
Qed.

(** A second run of [rangeGetImpl_] finds every node of its way open. *)
Lemma rangeGetImpl_again (fuel : nat) :
  forall (b e cb ce : Z) (n n' : Node) (g : G),
    rangeGetImpl_ fuel b e cb ce n = Done (g, n') ->
    rangeGetImpl_ fuel b e cb ce n' = Done (g, n').
Proof.
  induction fuel as [|fuel IH]; intros b e cb ce n n' g; [discriminate|].
  cbn [DST.rangeGetImpl_].
  destruct ((b >? ce) || (cb >? e)) eqn:Hguard; [discriminate|].
  destruct ((e >=? ce) && (b <=? cb) && isLeaf n) eqn:Hcover.
  { destruct n as [v u | l r u]; cbn [DST.getValue bind]; [|discriminate].
    intros H. injection H as <- <-.
    rewrite Hcover. reflexivity. }
  destruct (DST.initChildrenIfLeaf n) as [n1| |] eqn:Hinit; cbn [bind];
    try discriminate.
  destruct (DST.optionalSiftNodeUpdate_ updateOp n1) as [n2| |] eqn:Hsift;
    cbn [bind]; try discriminate.
  destruct (opened n n1 n2 Hinit Hsift) as (l & r & ->).
  set (mid := midpoint cb ce).
  assert (Hre : forall l' r' : Node,
            (e >=? ce) && (b <=? cb) && isLeaf (Inner l' r' None) = false).
  { intros. cbn [isLeaf]. apply andb_false_r. }
  destruct (b >=? mid) eqn:Hb.
  - destruct (rangeGetImpl_ fuel b e mid ce r) as [[gr r']| |] eqn:Hrun;
      cbn [bind fst snd]; try discriminate.
    intros H. injection H as <- <-.
    rewrite Hre. cbn [DST.initChildrenIfLeaf isLeaf bind].
    unfold DST.optionalSiftNodeUpdate_, siftOptUpdate. cbn [updateValue bind].
    rewrite (IH _ _ _ _ _ _ _ Hrun). reflexivity.
  - destruct (e <=? mid) eqn:He.
    + destruct (rangeGetImpl_ fuel b e cb mid l) as [[gl l']| |] eqn:Hrun;
        cbn [bind fst snd]; try discriminate.
      intros H. injection H as <- <-.
      rewrite Hre. cbn [DST.initChildrenIfLeaf isLeaf bind].
      unfold DST.optionalSiftNodeUpdate_, siftOptUpdate. cbn [updateValue bind].
      rewrite (IH _ _ _ _ _ _ _ Hrun). reflexivity.
    + destruct (rangeGetImpl_ fuel b e mid ce r) as [[gr r']| |] eqn:Hrunr;
        cbn [bind fst snd]; try discriminate.
      destruct (rangeGetImpl_ fuel b e cb mid l) as [[gl l']| |] eqn:Hrunl;
        cbn [bind fst snd]; try discriminate.
      intros H. injection H as <- <-.
      rewrite Hre. cbn [DST.initChildrenIfLeaf isLeaf bind].
      unfold DST.optionalSiftNodeUpdate_, siftOptUpdate. cbn [updateValue bind].
      rewrite (IH _ _ _ _ _ _ _ Hrunr), (IH _ _ _ _ _ _ _ Hrunl). reflexivity.
Qed.

(** X4.  A query [rangeGet(b, e)] that has returned, asked again, returns the
    same result and no longer touches the tree.  Nothing is asked of the
    functors or of the range. *)
Theorem rangeGet_twice (t t' : Tree) (b e : Z) (g : G) :
  rangeGet t b e = Done (g, t') ->
  rangeGet t' b e = Done (g, t').
Proof.
  unfold DST.rangeGet.
  destruct (rangeGetImpl_ (DST.spanFuel t) b e (DST.begin_ t) (DST.end_ t)
              (DST.rootNode_ t)) as [[g0 n']| |] eqn:Hrun;
    cbn [bind fst snd]; try discriminate.
  intros H. injection H as <- <-.
  unfold DST.spanFuel in *. cbn [DST.withRoot DST.begin_ DST.end_ DST.rootNode_].
  rewrite (rangeGetImpl_again _ _ _ _ _ _ _ _ Hrun). reflexivity.
Qed.


(** [rangeGetImpl_] looks at the range only through comparisons with borders
    of spans, so on a well-formed node it cannot tell a range from its part
    inside the span it started on. *)
Lemma rangeGetImpl_clips (fuel : nat) :
  forall (b e cb ce lo hi : Z) (n : Node),
    lo <= cb -> cb <= ce -> ce <= hi ->
    b < e -> cb < e -> b < ce ->
    spanFits cb ce ->
    DST.wellFormed n cb ce ->
    rangeGetImpl_ fuel b e cb ce n =
    rangeGetImpl_ fuel (Z.max b lo) (Z.min e hi) cb ce n.
Proof.
  induction fuel as [|fuel IH];
    intros b e cb ce lo hi n Hlo Hspan Hhi Hbe Hcb Hce Hfit Hwf; [reflexivity|].
  cbn [DST.rangeGetImpl_].
  replace ((Z.max b lo >? ce) || (cb >? Z.min e hi)) with false by lia.
  replace ((b >? ce) || (cb >? e)) with false by lia.
  replace ((Z.min e hi >=? ce) && (Z.max b lo <=? cb))
    with ((e >=? ce) && (b <=? cb)) by lia.
  destruct ((e >=? ce) && (b <=? cb) && isLeaf n) eqn:Hcover; [reflexivity|].
  assert (Hsplit : cb + 2 <= ce).
  { destruct n as [v u | l r u].
    - simpl in Hcover. lia.
    - apply DSTFacts.wellFormed_Inner in Hwf. tauto. }
  pose proof (midpoint_bounds cb ce Hfit Hsplit) as Hmid.
  destruct (spanFits_halves cb ce Hfit) as [Hfl Hfr]; [lia|].
  destruct (DSTFacts.openNode updateOp n cb ce Hwf Hsplit)
    as (n1 & l & r & Hinit & Hsift & Hl & Hr & _).
  rewrite Hinit; cbn [bind]. rewrite Hsift; cbn [bind].
  set (mid := midpoint cb ce) in *.
  replace (Z.max b lo >=? mid) with (b >=? mid) by lia.
  replace (Z.min e hi <=? mid) with (e <=? mid) by lia.
  replace (Z.max cb (Z.max b lo)) with (Z.max cb b) by lia.
  replace (Z.min ce (Z.min e hi)) with (Z.min ce e) by lia.
  destruct (b >=? mid) eqn:Hb.
  - rewrite <- (IH b e mid ce lo hi) by (auto; lia). reflexivity.
  - destruct (e <=? mid) eqn:He.
    + rewrite <- (IH b e cb mid lo hi) by (auto; lia). reflexivity.
    + rewrite <- (IH b e mid ce lo hi) by (auto; lia).
      rewrite <- (IH b e cb mid lo hi) by (auto; lia). reflexivity.
Qed.


(** On an empty range inside the span, and on a range that starts where the
    span ends, the recursion goes down without end: whatever the budget, it
    is used up.  On the way every leaf is split, also a leaf of one key.
    This does not depend on the sums of the keys: a midpoint that a wrapped
    sum gives is below the end of its span as well. *)
Lemma rangeGetImpl_never_returns (fuel : nat) :
  forall (b e cb ce : Z) (n : Node),
    keyMin <= cb -> cb < ce -> 0 < ce ->
    (b = e /\ cb <= b <= ce /\ 0 <= b) \/ (b = ce /\ ce <= e) ->
    rangeGetImpl_ fuel b e cb ce n = OutOfFuel.
Proof.
  induction fuel as [|fuel IH]; intros b e cb ce n Hmin Hspan Hpos Hrange;
    [reflexivity|].
  cbn [DST.rangeGetImpl_].
  replace ((b >? ce) || (cb >? e)) with false by lia.
  replace ((e >=? ce) && (b <=? cb)) with false by lia.
  cbn [andb].
  pose proof (midpoint_below_end cb ce Hmin Hspan Hpos) as Hmid.
  set (mid := midpoint cb ce) in *.
  assert (Hopen : exists l r,
            (n1 <- DST.initChildrenIfLeaf n ;;
             DST.optionalSiftNodeUpdate_ updateOp n1) = Done (Inner l r None)).
  { unfold DST.initChildrenIfLeaf, DST.optionalSiftNodeUpdate_, siftOptUpdate.
    destruct n as [v [a|] | l r [a|]];
      cbn [isLeaf initChildren updateValue bind]; eauto. }
  destruct Hopen as (l & r & Hopen).
  destruct (DST.initChildrenIfLeaf n) as [n1| |]; cbn [bind] in Hopen |- *;
    try discriminate.
  rewrite Hopen; cbn [bind].
  destruct (b >=? mid) eqn:Hb.
  - rewrite IH by lia. reflexivity.
  - replace (e <=? mid) with true by lia.
    rewrite IH by lia. reflexivity.
Qed.

(** X7.  On a tree with keys that are not negative, [rangeGet(b, b)] for [b]
    between [begin] and [end], and [rangeGet(end, e)] for [e >= end], pass the
    assertion and then never return. *)
Theorem rangeGet_on_empty_range_never_returns (t : Tree) (b e : Z) (fuel : nat) :
  0 <= DST.begin_ t -> DST.begin_ t < DST.end_ t ->
  (b = e /\ DST.begin_ t <= b <= DST.end_ t) \/
  (b = DST.end_ t /\ DST.end_ t <= e) ->
  rangeGetImpl_ fuel b e (DST.begin_ t) (DST.end_ t) (DST.rootNode_ t)
    = OutOfFuel /\
  rangeGet t b e = OutOfFuel.
Proof.
  intros H0 Hspan Hrange.
  pose proof keyMin_nonpos as Hk.
  assert (Hrun : forall fuel',
            rangeGetImpl_ fuel' b e (DST.begin_ t) (DST.end_ t) (DST.rootNode_ t)
            = OutOfFuel)
    by (intros fuel'; apply rangeGetImpl_never_returns; lia).
  split.
  - apply Hrun.
  - unfold DST.rangeGet. rewrite Hrun. reflexivity.
Qed.

(** Each half of a span is at most the larger half. *)
Lemma midpoint_halves (cb ce : Z) :
  spanFits cb ce -> cb <= ce ->
  2 * (midpoint cb ce - cb) <= ce - cb + 1 /\
  2 * (ce - midpoint cb ce) <= ce - cb + 1.
Proof.
  intros Hfit Hle. rewrite midpoint_fits by assumption.
  pose proof (Z.quot_rem' (cb + ce) 2) as Hq.
  pose proof (Z.rem_bound_abs (cb + ce) 2) as Hr.
  lia.
Qed.

Lemma log2_up_half (d x : Z) :
  2 <= d -> 1 <= x -> 2 * x <= d + 1 -> Z.log2_up x + 1 <= Z.log2_up d.
Proof.
  intros Hd Hx Hhalf.
  pose proof (Z.log2_up_spec d ltac:(lia)) as [_ Hup].
  assert (Hpos : 0 < Z.log2_up d) by (apply Z.log2_up_pos; lia).
  assert (Hpow : 2 ^ Z.log2_up d = 2 * 2 ^ (Z.log2_up d - 1)).
  { rewrite <- Z.pow_succ_r by lia. f_equal. lia. }
  assert (Hle : x <= 2 ^ (Z.log2_up d - 1)) by lia.
  apply Z.log2_up_le_pow2 in Hle; lia.
Qed.

(** A subtree whose nodes with children span two keys or more, and are split
    in the middle, is no deeper than the logarithm of its span and has fewer
    blocks than keys. *)
Lemma spansSplit_small (n : Node) :
  forall cb ce : Z,
    spanFits cb ce ->
    DST.spansSplit (shape n) cb ce -> cb < ce ->
    Z.of_nat (DST.height n) <= Z.log2_up (ce - cb) /\
    Z.of_nat (allocatedBlocks n) < ce - cb.
Proof.
  induction n as [v u | l IHl r IHr u]; intros cb ce Hfit Hs Hne.
  - simpl. split; [apply Z.log2_up_nonneg | lia].
  - simpl in Hs. destruct Hs as (Hspan & Hl & Hr).
    pose proof (midpoint_bounds cb ce Hfit Hspan) as Hmid.
    destruct (spanFits_halves cb ce Hfit) as [Hfl Hfr]; [lia|].
    destruct (midpoint_halves cb ce Hfit) as [Hh1 Hh2]; [lia|].
    destruct (IHl _ _ Hfl Hl ltac:(lia)) as [Hhl Hbl].
    destruct (IHr _ _ Hfr Hr ltac:(lia)) as [Hhr Hbr].
    assert (Hd : 2 <= ce - cb) by lia.
    assert (Hx1 : 1 <= midpoint cb ce - cb) by lia.
    assert (Hx2 : 1 <= ce - midpoint cb ce) by lia.
    pose proof (log2_up_half (ce - cb) (midpoint cb ce - cb) Hd Hx1 Hh1).
    pose proof (log2_up_half (ce - cb) (ce - midpoint cb ce) Hd Hx2 Hh2).
    cbn [DST.height allocatedBlocks]. split; lia.
Qed.


End Generic.

End TreeFacts.

(** ** The forms of the functors and the reference of the tests *)

Module RangeGetVariationFacts.

Lemma keyRange_snoc (lb : Z) (n : nat) :
  Abstraction.keyRange lb (S n) = Abstraction.keyRange lb n ++ [lb + Z.of_nat n].
Proof.
  revert lb. induction n as [|n IH]; intros lb.
  - simpl. rewrite Z.add_0_r. reflexivity.
  - change (Abstraction.keyRange lb (S (S n)))
      with (lb :: Abstraction.keyRange (lb + 1) (S n)).
    rewrite IH. simpl. do 3 f_equal. lia.
Qed.

Section ValueOnly.

Context {K : KeyT} {T A G : Type}.
Variable updateOp : T -> A -> T.
Variable segInitializer_ : T -> G.
Variable segCombiner_ : G -> G -> G.

Notation Tree := (DST.DynamicSegmentTree (T:=T) (A:=A)).
Notation initGet_ := (RangeGetVariation.initGet_value segInitializer_).
Notation combineGet_ := (RangeGetVariation.combineGet_value segCombiner_).

Lemma aggregate_fold (f : Z -> T) (lb : Z) (m : nat) :
  DST.aggregate initGet_ combineGet_ f lb m =
  fold_left segCombiner_
    (map (fun k => segInitializer_ (f k)) (Abstraction.keyRange (lb + 1) m))
    (segInitializer_ (f lb)).
Proof.
  induction m as [|m IH]; [reflexivity|].
  cbn [DST.aggregate]. rewrite IH, keyRange_snoc, map_app, fold_left_app.
  simpl. unfold RangeGetVariation.combineGet_value,
    RangeGetVariation.initGet_value.
  do 3 f_equal. lia.
Qed.


End ValueOnly.

Section Sum.

Context {K : KeyT} {A : Type}.
Variable updateOp : Z -> A -> Z.

Notation Tree := (DST.DynamicSegmentTree (T:=Z) (A:=A)).

(** The loop of the reference without the conversions to [int]. *)
Lemma aggregate_sum (f : Z -> Z) (lb : Z) (m : nat) :
  DST.aggregate SumTree.sumInit SumTree.sumCombine f lb (S m) =
  DST.aggregate SumTree.sumInit SumTree.sumCombine f lb m
    + f (lb + Z.of_nat (S m)).
Proof.
  cbn [DST.aggregate]. unfold SumTree.sumCombine, SumTree.sumInit. lia.
Qed.

Lemma loop_ret (_getValue : Z -> Z) (rounds : nat) :
  forall i ret,
    SumSegTreeReference.loop _getValue i (S rounds) ret =
    SumSegTreeReference.loop _getValue (i + 1) rounds
      (keyWrap (K:=int32) (ret + _getValue i)).
Proof. reflexivity. Qed.

(** One more round adds one more value, converted to [int]. *)
Lemma loop_last (_getValue : Z -> Z) (rounds : nat) :
  forall i ret,
    SumSegTreeReference.loop _getValue i (S rounds) ret =
    keyWrap (K:=int32)
      (SumSegTreeReference.loop _getValue i rounds ret
         + _getValue (i + Z.of_nat rounds)).
Proof.
  induction rounds as [|n IH]; intros i ret.
  - simpl. rewrite Z.add_0_r. reflexivity.
  - rewrite loop_ret, IH, <- loop_ret.
    replace (i + 1 + Z.of_nat n) with (i + Z.of_nat (S n)) by lia.
    reflexivity.
Qed.

(** While the sums fit [int], the loop adds the values up. *)
Lemma loop_is_aggregate (f : Z -> Z) (lb : Z) (m : nat) :
  (forall j : nat, (j < S m)%nat ->
     keyMin (K:=int32) <= SumSegTreeReference.loop f lb j 0 + f (lb + Z.of_nat j)
       <= keyMax (K:=int32)) ->
  SumSegTreeReference.loop f lb (S m) 0 =
  DST.aggregate SumTree.sumInit SumTree.sumCombine f lb m.
Proof.
  induction m as [|m IH]; intros Hfit.
  - rewrite loop_last. rewrite keyWrap_fits by (apply Hfit; lia).
    simpl. unfold SumTree.sumInit. rewrite Z.add_0_r. lia.
  - rewrite loop_last. rewrite keyWrap_fits by (apply Hfit; lia).
    rewrite IH by (intros j Hj; apply Hfit; lia).
    rewrite aggregate_sum. reflexivity.
Qed.


End Sum.

End RangeGetVariationFacts.

(** ** More about the node *)

Module NodeFacts.

Section Optional.

Context {K : KeyT} {T A : Type}.
Variable updateOp : T -> A -> T.

Notation Node := (Node T A).
Notation update := (Impl.update updateOp).
Notation valueAt := (valueAt updateOp).

(** X11.  [Node::update] on any node: every key of the subtree then stands for
    the operator applied to what it stood for, with the argument given; no
    node is created or destroyed, and leaves get no pending update. *)
Theorem update_acts_on_every_key (updateVal : A) (n : Node) :
  (forall cb ce k,
     valueAt (update updateVal n) cb ce k = updateOp (valueAt n cb ce k) updateVal) /\
  shape (update updateVal n) = shape n /\
  allocatedBlocks (update updateVal n) = allocatedBlocks n /\
  (leavesClean n -> leavesClean (update updateVal n)).
Proof.
  split; [intros cb ce k; apply update_valueAt|].
  split; [apply update_shape|]. split.
  - revert updateVal.
    induction n as [v u | l IHl r IHr u]; intros a; simpl; [reflexivity|].
    destruct u as [old|]; simpl; [rewrite IHl, IHr|]; reflexivity.
  - apply update_leavesClean.
Qed.

(** X12.  [Node::siftOptUpdate]: a leaf with a pending argument is refused by
    the assertion and a leaf without one is left alone; a node with children
    ends with an empty slot, the same nodes below it, and the same value for
    every key. *)
Theorem siftOptUpdate_keeps_every_value :
  (forall (v : T) (a : A),
     siftOptUpdate updateOp (Leaf v (Some a)) = AssertFailed) /\
  (forall v : T,
     siftOptUpdate updateOp (Leaf v (None : option A)) = Done (Leaf v None)) /\
  (forall (l r : Node) (u : option A),
     exists l' r',
       siftOptUpdate updateOp (Inner l r u) = Done (Inner l' r' None) /\
       shape l' = shape l /\ shape r' = shape r /\
       forall cb ce k,
         valueAt (Inner l' r' None) cb ce k = valueAt (Inner l r u) cb ce k).
Proof.
  split; [reflexivity|]. split; [reflexivity|].
  intros l r u.
  destruct (siftOptUpdate_Inner updateOp l r u)
    as (l' & r' & Hrun & Hl & Hr & _ & _ & Hval).
  exists l', r'. auto.
Qed.

(** X13.  On a node with children [Node::update] is [siftOptUpdate] followed
    by [setUpdateValue].  [setUpdateValue] alone overwrites the slot, also
    when an argument is still pending there, and is refused on a leaf by its
    assertion. *)
Theorem update_is_sift_then_setUpdateValue
    (l r : Node) (u : option A) (updateVal : A) :
  (n <- siftOptUpdate updateOp (Inner l r u) ;;
   Copy.setUpdateValue updateVal n)
  = Done (update updateVal (Inner l r u)) /\
  Copy.setUpdateValue updateVal (Inner l r u)
  = Done (Inner l r (Some updateVal)) /\
  forall (v : T) (w : option A),
    Copy.setUpdateValue updateVal (Leaf v w) = AssertFailed.
Proof.
  split; [destruct u as [old|]; reflexivity|].
  split; reflexivity.
Qed.

(** X17.  [copySubtree] and [copyToNewlyCreated] copy the topology and the
    values in the leaves of [src], and no pending slot: a node that [dest] had
    keeps its slot, a new node has an empty one.  The blocks of [dest] and
    those taken from the allocator are the blocks of the copy and those given
    back. *)
Theorem copySubtree_copies_no_pending_update (src dest : Node) :
  shape (Copy.copySubtree src dest) = shape src /\
  Copy.clearUpdates (Copy.copySubtree src dest) = Copy.clearUpdates src /\
  updateValue (Copy.copySubtree src dest) = updateValue dest /\
  Copy.copySubtree src (Copy.clearUpdates dest) = Copy.clearUpdates src /\
  Copy.copyToNewlyCreated src None = Copy.clearUpdates src /\
  (allocatedBlocks dest + Copy.copyAllocates src dest =
   allocatedBlocks (Copy.copySubtree src dest) + Copy.copyDeallocates src dest)%nat.
Proof.
  assert (Hnew : forall n : Node,
            Copy.copyToNewlyCreated n None = Copy.clearUpdates n).
  { induction n as [v u | l IHl r IHr u]; simpl; [|rewrite IHl, IHr];
      reflexivity. }
  assert (Hshape : forall n : Node, shape (Copy.clearUpdates n) = shape n).
  { induction n as [v u | l IHl r IHr u]; simpl; [|rewrite IHl, IHr];
      reflexivity. }
  assert (Hidem : forall n : Node,
            Copy.clearUpdates (Copy.clearUpdates n) = Copy.clearUpdates n).
  { induction n as [v u | l IHl r IHr u]; simpl; [|rewrite IHl, IHr];
      reflexivity. }
  assert (Hblocks : forall n : Node,
            allocatedBlocks (Copy.clearUpdates n) = allocatedBlocks n).
  { induction n as [v u | l IHl r IHr u]; simpl; [|rewrite IHl, IHr];
      reflexivity. }
  split; [|split; [|split; [|split; [|split]]]].
  - revert dest.
    induction src as [v u | l IHl r IHr u]; intros [w x | dl dr x]; simpl;
      rewrite ?Hnew, ?Hshape, ?IHl, ?IHr; reflexivity.
  - revert dest.
    induction src as [v u | l IHl r IHr u]; intros [w x | dl dr x]; simpl;
      rewrite ?Hnew, ?Hidem, ?IHl, ?IHr; reflexivity.
  - destruct src, dest; reflexivity.
  - revert dest.
    induction src as [v u | l IHl r IHr u]; intros [w x | dl dr x]; simpl;
      rewrite ?Hnew, ?IHl, ?IHr; reflexivity.
  - apply Hnew.
  - revert dest.
    induction src as [v u | l IHl r IHr u]; intros [w x | dl dr x];
      cbn [Copy.copySubtree Copy.copyAllocates Copy.copyDeallocates
           allocatedBlocks isLeaf clearChildren].
    + reflexivity.
    + rewrite !clearChildren_allocatedBlocks. lia.
    + rewrite !Hnew, !Hblocks. lia.
    + specialize (IHl dl). specialize (IHr dr). lia.
Qed.

End Optional.

Section Flag.

Context {K : KeyT} {T : Type}.
Variable updateOp : T -> T.

Lemma nullary_update_valueAt (n : Nullary.Node T) (cb ce k : Z) :
  NullaryView.valueAt updateOp (Nullary.update updateOp n) cb ce k =
  updateOp (NullaryView.valueAt updateOp n cb ce k).
Proof.
  revert cb ce.
  induction n as [v u | l IHl r IHr u]; intros cb ce; simpl.
  - reflexivity.
  - destruct u; simpl.
    + destruct (k >=? midpoint cb ce); [rewrite IHr | rewrite IHl];
        reflexivity.
    + reflexivity.
Qed.

(** X14.  [Node<T, bool>::update] on any node: every key of the subtree then
    stands for the operator applied once more to what it stood for, and the
    nodes are those there were.  A flag never stands for two applications: a
    node that is flagged already hands the first one down. *)
Theorem nullary_update_acts_on_every_key (n : Nullary.Node T) :
  (forall cb ce k,
     NullaryView.valueAt updateOp (Nullary.update updateOp n) cb ce k =
     updateOp (NullaryView.valueAt updateOp n cb ce k)) /\
  shape (Nullary.toOptional (Nullary.update updateOp n)) =
  shape (Nullary.toOptional n).
Proof.
  split.
  - intros cb ce k. apply nullary_update_valueAt.
  - rewrite NullaryFacts.toOptional_update. apply update_shape.
Qed.

Lemma nullary_valueAt_toOptional (n : Nullary.Node T) (cb ce k : Z) :
  NullaryView.valueAt updateOp n cb ce k =
  valueAt (Nullary.asBinary updateOp) (Nullary.toOptional n) cb ce k.
Proof.
  revert cb ce.
  induction n as [v u | l IHl r IHr u]; intros cb ce; simpl; [reflexivity|].
  rewrite IHl, IHr. destruct u; reflexivity.
Qed.

(** X15.  [Node<T, bool>::siftOptUpdate]: a flagged leaf is refused by the
    assertion and a leaf without a flag is left alone; a node with children
    ends without a flag, with the same nodes below it and the same value for
    every key. *)
Theorem nullary_siftOptUpdate_keeps_every_value :
  (forall v : T,
     Nullary.siftOptUpdate updateOp (Nullary.Leaf v true) = AssertFailed) /\
  (forall v : T,
     Nullary.siftOptUpdate updateOp (Nullary.Leaf v false)
     = Done (Nullary.Leaf v false)) /\
  (forall (l r : Nullary.Node T) (u : bool),
     exists l' r',
       Nullary.siftOptUpdate updateOp (Nullary.Inner l r u)
       = Done (Nullary.Inner l' r' false) /\
       shape (Nullary.toOptional l') = shape (Nullary.toOptional l) /\
       shape (Nullary.toOptional r') = shape (Nullary.toOptional r) /\
       forall cb ce k,
         NullaryView.valueAt updateOp (Nullary.Inner l' r' false) cb ce k =
         NullaryView.valueAt updateOp (Nullary.Inner l r u) cb ce k).
Proof.
  split; [reflexivity|]. split; [reflexivity|].
  intros l r [|].
  - exists (Nullary.update updateOp l), (Nullary.update updateOp r).
    split; [reflexivity|].
    rewrite !NullaryFacts.toOptional_update, !update_shape.
    split; [reflexivity|]. split; [reflexivity|].
    intros cb ce k. simpl.
    destruct (k >=? midpoint cb ce); apply nullary_update_valueAt.
  - exists l, r. repeat split; reflexivity.
Qed.

End Flag.

(** X16.  With [Negate] for the operator, two updates of a node undo each
    other. *)
Theorem negate_twice_restores {K : KeyT} (n : Nullary.Node Z) (cb ce k : Z) :
  NullaryView.valueAt NegateTree.negate
    (Nullary.update NegateTree.negate (Nullary.update NegateTree.negate n))
    cb ce k
  = NullaryView.valueAt NegateTree.negate n cb ce k.
Proof.
  rewrite !nullary_update_valueAt.
  unfold NegateTree.negate. lia.
Qed.

End NodeFacts.

(** ** More about [initChildrenSiftingValue] *)

Module InitChildrenMore.

Import InitChildren.

Section Storage.

Context {T : Type}.
Variable copyConstruct : nat -> T -> copied (T:=T).
Variable moveConstruct : T -> moved (T:=T).
Variable move_constructible : bool.

Notation initChildrenSiftingValue :=
  (initChildrenSiftingValue copyConstruct moveConstruct move_constructible).

(** X18.  Whatever the constructors and the allocator do, also when the
    second of two copies throws, the routine on a leaf ends by a return or a
    throw, no object is left in storage that went back to the allocator, and
    no block is lost.  After a return the node has its block, both children
    are alive, the left one holds the first copy of the value and the right
    one what was moved (or, for a type that cannot be moved, copied a second
    time) out of it, and the buffer of the node is empty.  After a throw the
    node is a leaf with a value in its buffer, the allocator has what it
    had, and the block holds nothing. *)
Theorem initChildren_leaks_nothing (v : T) (out avail : nat) :
  exists (ex : exit) (s' : Storage),
    initChildrenSiftingValue (leaf v out avail) = Done (ex, s') /\
    leaked s' = 0%nat /\
    (handedOut s' + free s' = out + avail)%nat /\
    match ex with
    | Returns =>
        ptr s' = true /\ buffer s' = None /\ handedOut s' = S out /\
        object (leftSlot s') = true /\ object (rightSlot s') = true /\
        exists c tgt,
          copyConstruct 0%nat v = CopyOk c /\
          held (leftSlot s') = Some c /\ held (rightSlot s') = Some tgt /\
          if move_constructible
          then exists src, moveConstruct v = MoveOk tgt src
          else copyConstruct 1%nat v = CopyOk tgt
    | Throws =>
        ptr s' = false /\ buffer s' <> None /\ handedOut s' = out /\
        free s' = avail /\
        leftSlot s' = emptySlot /\ rightSlot s' = emptySlot
    end.
Proof.
  unfold initChildrenSiftingValue, leaf. cbn [assert negb ptr bind buffer].
  unfold allocate. cbn [free].
  destruct avail as [|k].
  { eexists Throws, _. split; [reflexivity|]. simpl.
    repeat split; try reflexivity; discriminate. }
  unfold copyIntoLeft.
  destruct (copyConstruct 0%nat v) as [c|] eqn:Hcopy.
  - unfold moveIntoRight.
    destruct move_constructible.
    + destruct (moveConstruct v) as [tgt src | src].
      * eexists Returns, _. split; [reflexivity|]. simpl.
        split; [reflexivity|]. split; [lia|].
        do 5 (split; [reflexivity|]).
        exists c, tgt. repeat split. exists src. reflexivity.
      * eexists Throws, _. split; [reflexivity|]. simpl.
        repeat split; try reflexivity; try discriminate; lia.
    + destruct (copyConstruct 1%nat v) as [c'|] eqn:Hcopy'.
      * eexists Returns, _. split; [reflexivity|]. simpl.
        split; [reflexivity|]. split; [lia|].
        do 5 (split; [reflexivity|]).
        exists c, c'. repeat split.
      * eexists Throws, _. split; [reflexivity|]. simpl.
        repeat split; try reflexivity; try discriminate; lia.
  - eexists Throws, _. split; [reflexivity|]. simpl.
    repeat split; try reflexivity; try discriminate; lia.
Qed.

(** X19.  When [T] is not move constructible, or its move constructor leaves
    the source as it was whenever it throws, a throw of the routine leaves the
    node, its value and the allocator exactly as they were. *)
Theorem initChildren_strong_guarantee
    (v : T) (out avail : nat) (s' : Storage) :
  move_constructible = false \/
  (forall x w, moveConstruct x = MoveThrows w -> w = x) ->
  initChildrenSiftingValue (leaf v out avail) = Done (Throws, s') ->
  s' = leaf v out avail.
Proof.
  intros Hstrong H.
  destruct (InitChildrenFacts.throws_restores_all_but_value
              copyConstruct moveConstruct move_constructible v out avail s' H)
    as [E | (Hmc & w & Hmove & E)]; [exact E|].
  destruct Hstrong as [Hno | Hstrong]; [congruence|].
  rewrite E, (Hstrong v w Hmove). reflexivity.
Qed.

End Storage.

End InitChildrenMore.

(** ** More about the older tree *)

Module LegacyMore.

Section Walks.

Context {K : KeyT} {T : Type}.
Variable nodeSiftDown : Node T T -> Node T T.

(** X20.  With [begin >= end] the walks of [set] and [update] return, whatever
    the node, without a call of [setValue] or [update] of a node: the member
    they are given makes no difference. *)
Theorem legacy_empty_range_reaches_no_setter
    (fuel : nat) (b e : Z) (f g : T -> Node T T -> Node T T) :
  e <= b ->
  forall (cb ce : Z) (n : Node T T) (v : T),
    Legacy._setImpl nodeSiftDown f fuel b e cb ce n v =
    Legacy._setImpl nodeSiftDown g fuel b e cb ce n v /\
    Legacy._updateImpl nodeSiftDown f fuel b e cb ce n v =
    Legacy._updateImpl nodeSiftDown g fuel b e cb ce n v.
Proof.
  intros Hbe.
  induction fuel as [|fuel IH]; intros cb ce n v; [split; reflexivity|].
  cbn [Legacy._setImpl Legacy._updateImpl].
  destruct ((b >=? ce) || (cb >=? e)) eqn:Hmiss; [split; reflexivity|].
  replace ((e >=? ce) && (b <=? cb)) with false by lia.
  destruct (nodeSiftDown n) as [x u | l r u]; [split; reflexivity|].
  set (m := midpoint cb ce).
  destruct (IH cb m l v) as [Hl1 Hl2]. destruct (IH m ce r v) as [Hr1 Hr2].
  split.
  - destruct (m >=? cb + 1); [rewrite Hl1|].
    + destruct (Legacy._setImpl nodeSiftDown g fuel b e cb m l v);
        cbn [bind]; try reflexivity.
      destruct (ce >=? b + 1); [rewrite Hr1|]; reflexivity.
    + cbn [bind]. destruct (ce >=? b + 1); [rewrite Hr1|]; reflexivity.
  - destruct (m >=? cb + 1); [rewrite Hl2|].
    + destruct (Legacy._updateImpl nodeSiftDown g fuel b e cb m l v);
        cbn [bind]; try reflexivity.
      destruct (ce >=? m + 1); [rewrite Hr2|]; reflexivity.
    + cbn [bind]. destruct (ce >=? m + 1); [rewrite Hr2|]; reflexivity.
Qed.

Variable _segInitializer : LegacyRangeGet.SegInitializer (T:=T).
Variable _segCombiner : LegacyRangeGet.SegCombiner (T:=T).

Notation _rangeGetImpl :=
  (LegacyRangeGet._rangeGetImpl nodeSiftDown _segInitializer _segCombiner).

Lemma _rangeGetImpl_asserts (fuel : nat) :
  (forall n, isLeaf (nodeSiftDown n) = false) ->
  forall (b e cb ce : Z) (n : Node T T),
    e <= b ->
    spanFits cb ce ->
    (Z.to_nat (ce - cb) < fuel)%nat ->
    _rangeGetImpl fuel b e cb ce n = AssertFailed.
Proof.
  intros Hsift.
  induction fuel as [|fuel IH]; intros b e cb ce n Hbe Hfit Hfuel; [lia|].
  cbn [LegacyRangeGet._rangeGetImpl].
  destruct ((b >=? ce) || (cb >=? e)) eqn:Hmiss; [reflexivity|].
  replace ((e >=? ce) && (b <=? cb)) with false by lia. cbn [andb].
  assert (Hspan : cb + 2 <= ce) by lia.
  pose proof (midpoint_bounds cb ce Hfit Hspan) as Hmid.
  destruct (spanFits_halves cb ce Hfit) as [Hfl Hfr]; [lia|].
  set (m := midpoint cb ce) in *.
  pose proof (Hsift n) as Hn.
  destruct (nodeSiftDown n) as [x u | l r u]; [reflexivity|].
  destruct (b >=? m) eqn:Hb.
  - rewrite IH by (auto; lia). reflexivity.
  - replace (e <=? m) with true by lia.
    rewrite IH by (auto; lia). reflexivity.
Qed.


End Walks.

End LegacyMore.

(** ** Further facts about [set], [get] and [rangeGet] *)

Module TreeMore.

Section Generic.

Context {K : KeyT} {T A G : Type}.
Variable updateOp : T -> A -> T.
Variable initGet_ : Z -> Z -> T -> G.
Variable combineGet_ : G -> G -> Z -> Z -> Z -> G.

Notation Tree := (DST.DynamicSegmentTree (T:=T) (A:=A)).
Notation Node := (Node T A).
Notation invariant := Abstraction.invariant.

(** What [setImpl_] leaves depends on the node it found only through what a
    later [setImpl_] of the same range would overwrite. *)
Lemma setImpl_overrides (fuel : nat) :
  forall (b e cb ce : Z) (n n1 : Node) (v1 v2 : T),
    DST.setImpl_ updateOp fuel b e cb ce n v1 = Done n1 ->
    DST.setImpl_ updateOp fuel b e cb ce n1 v2 =
    DST.setImpl_ updateOp fuel b e cb ce n v2.
Proof.
  induction fuel as [|fuel IH]; intros b e cb ce n n1 v1 v2; [discriminate|].
  cbn [DST.setImpl_].
  destruct (cb <? e); [|discriminate].
  destruct (ce >? b); [|discriminate].
  destruct (b <? e); [|discriminate].
  cbn [assert bind].
  destruct ((e >=? ce) && (b <=? cb)) eqn:Hcover.
  { intros H. injection H as <-. destruct n; reflexivity. }
  destruct (DST.initChildrenIfLeaf n) as [n0| |] eqn:Hinit; cbn [bind];
    try discriminate.
  destruct (DST.optionalSiftNodeUpdate_ updateOp n0) as [n2| |] eqn:Hsift;
    cbn [bind]; try discriminate.
  destruct (TreeFacts.opened updateOp n n0 n2 Hinit Hsift) as (l & r & ->).
  set (mid := midpoint cb ce).
  destruct (if mid >? b then DST.setImpl_ updateOp fuel b e cb mid l v1
            else Done l) as [l'| |] eqn:Hl; cbn [bind]; try discriminate.
  destruct (if mid <? e then DST.setImpl_ updateOp fuel b e mid ce r v1
            else Done r) as [r'| |] eqn:Hr; cbn [bind]; try discriminate.
  intros H. injection H as <-.
  cbn [DST.initChildrenIfLeaf isLeaf bind].
  unfold DST.optionalSiftNodeUpdate_, siftOptUpdate. cbn [updateValue bind].
  assert (El : (if mid >? b then DST.setImpl_ updateOp fuel b e cb mid l' v2
                else Done l') =
               (if mid >? b then DST.setImpl_ updateOp fuel b e cb mid l v2
                else Done l)).
  { destruct (mid >? b).
    - apply (IH _ _ _ _ _ _ _ _ Hl).
    - injection Hl as <-. reflexivity. }
  assert (Er : (if mid <? e then DST.setImpl_ updateOp fuel b e mid ce r' v2
                else Done r') =
               (if mid <? e then DST.setImpl_ updateOp fuel b e mid ce r v2
                else Done r)).
  { destruct (mid <? e).
    - apply (IH _ _ _ _ _ _ _ _ Hr).
    - injection Hr as <-. reflexivity. }
  rewrite El, Er. reflexivity.
Qed.

(** X22.  The last [set] of a range wins, down to the nodes: after
    [set(b, e, v1)] has returned, [set(b, e, v2)] leaves the tree that
    [set(b, e, v2)] alone would have left; so [set] with the same value
    again changes nothing. *)
Theorem set_overrides_set (t t1 : Tree) (b e : Z) (v1 v2 : T) :
  DST.set updateOp t b e v1 = Done t1 ->
  DST.set updateOp t1 b e v2 = DST.set updateOp t b e v2 /\
  DST.set updateOp t1 b e v1 = Done t1.
Proof.
  unfold DST.set. destruct (b <? e) eqn:Hbe.
  - destruct (DST.setImpl_ updateOp (DST.spanFuel t) b e (DST.begin_ t)
                (DST.end_ t) (DST.rootNode_ t) v1) as [n1| |] eqn:Hrun;
      cbn [bind]; try discriminate.
    intros H. injection H as <-.
    unfold DST.spanFuel in *.
    cbn [DST.withRoot DST.begin_ DST.end_ DST.rootNode_].
    rewrite !(setImpl_overrides _ _ _ _ _ _ _ _ _ Hrun). rewrite Hrun.
    split; reflexivity.
  - intros H. injection H as <-. split; reflexivity.
Qed.

(** On a well-formed node and a range that meets its span, [rangeGetImpl_]
    hands the initializer spans with [begin < end] only and the combiner
    borders with [leftBegin < separation < rightEnd] only. *)
Lemma rangeGetImpl_borders
    (initGet_' : Z -> Z -> T -> G) (combineGet_' : G -> G -> Z -> Z -> Z -> G)
    (fuel : nat) :
  (forall lo hi v, lo < hi -> initGet_ lo hi v = initGet_' lo hi v) ->
  (forall x y l m r, l < m < r ->
     combineGet_ x y l m r = combineGet_' x y l m r) ->
  forall (b e cb ce : Z) (n : Node),
    b < e -> cb < e -> b < ce -> cb < ce ->
    spanFits cb ce ->
    DST.wellFormed n cb ce ->
    DST.rangeGetImpl_ updateOp initGet_ combineGet_ fuel b e cb ce n =
    DST.rangeGetImpl_ updateOp initGet_' combineGet_' fuel b e cb ce n.
Proof.
  intros Hinit Hcomb.
  induction fuel as [|fuel IH]; intros b e cb ce n Hbe Hcb Hce Hne Hfit Hwf;
    [reflexivity|].
  cbn [DST.rangeGetImpl_].
  destruct ((b >? ce) || (cb >? e)); [reflexivity|].
  destruct ((e >=? ce) && (b <=? cb) && isLeaf n) eqn:Hcover.
  { destruct n as [v u | l r u]; cbn [DST.getValue bind]; [|reflexivity].
    rewrite Hinit by exact Hne. reflexivity. }
  assert (Hsplit : cb + 2 <= ce).
  { destruct n as [v u | l r u].
    - simpl in Hcover. lia.
    - apply DSTFacts.wellFormed_Inner in Hwf. tauto. }
  pose proof (midpoint_bounds cb ce Hfit Hsplit) as Hmid.
  destruct (spanFits_halves cb ce Hfit) as [Hfl Hfr]; [lia|].
  destruct (DSTFacts.openNode updateOp n cb ce Hwf Hsplit)
    as (n1 & l & r & Hopen & Hsift & Hl & Hr & _).
  rewrite Hopen; cbn [bind]. rewrite Hsift; cbn [bind].
  set (mid := midpoint cb ce) in *.
  destruct (b >=? mid) eqn:Hb.
  - rewrite IH by (auto; lia). reflexivity.
  - destruct (e <=? mid) eqn:He.
    + rewrite IH by (auto; lia). reflexivity.
    + rewrite (IH b e mid ce r) by (auto; lia).
      rewrite (IH b e cb mid l) by (auto; lia).
      destruct (DST.rangeGetImpl_ updateOp initGet_' combineGet_' fuel b e
                  mid ce r) as [[gr r']| |]; cbn [bind]; try reflexivity.
      destruct (DST.rangeGetImpl_ updateOp initGet_' combineGet_' fuel b e
                  cb mid l) as [[gl l']| |]; cbn [bind fst snd];
        try reflexivity.
      rewrite Hcomb by lia. reflexivity.
Qed.


(** X24.  The exception of [get] names the key: when two calls, on
    whatever trees, throw the same exception, they were asked for the same
    key. *)
Theorem get_error_names_the_key
    (t1 t2 t1' t2' : Tree) (k1 k2 : Z) (err : DST.exception) :
  DST.get updateOp t1 k1 = Done (inr err, t1') ->
  DST.get updateOp t2 k2 = Done (inr err, t2') ->
  k1 = k2.
Proof.
  unfold DST.get.
  destruct ((k1 >=? DST.end_ t1) || (k1 <? DST.begin_ t1)).
  - destruct ((k2 >=? DST.end_ t2) || (k2 <? DST.begin_ t2)).
    + intros H1 H2.
      assert (E : DST.out_of_range (DST.getMessage k1) =
                  DST.out_of_range (DST.getMessage k2)) by congruence.
      apply Properties.getMessage_injective.
      exact (f_equal (fun x => match x with DST.out_of_range w => w end) E).
    + intros _.
      destruct (DST.getImpl_ updateOp _ k2 _ _ _) as [[v n]| |];
        cbn [bind]; discriminate.
  - destruct (DST.getImpl_ updateOp _ k1 _ _ _) as [[v n]| |];
      cbn [bind]; discriminate.
Qed.

End Generic.

End TreeMore.

(** ** The scenarios of section 8

    From here on the trees are trees over [int] keys, unless another key
    type is named. *)

#[local] Existing Instance int32.

Module Scenarios.

Example scenario_1 :
  Calls.answer (DST.get Z.add (DST.make (A:=Z) 0 42 54) 21) = Some (inl 54) /\
  Calls.answer (DST.get Z.add (DST.make (A:=Z) 0 42 54) 42) =
    Some (inr (DST.out_of_range "Get operation for 42, which is out of range.")).
Proof. split; reflexivity. Qed.

Example scenario_2 :
  let t := SumTree.after 0 42 54 [Calls.CallUpdate 15 37 18] in
  map (fun k => Calls.answer (DST.get Z.add t k)) [14; 15; 36; 37] =
  [Some (inl 54); Some (inl 72); Some (inl 72); Some (inl 54)].
Proof. vm_compute. reflexivity. Qed.

Example scenario_3 :
  let t := SumTree.after 0 42 54
             [Calls.CallUpdate 15 37 18; Calls.CallUpdate 20 41 14] in
  Calls.answer (DST.rangeGet Z.add SumTree.sumInit SumTree.sumCombine t 0 42)
    = Some 2958.
Proof. vm_compute. reflexivity. Qed.

Example scenario_4 :
  let t := MinTree.after 0 42 0 MinTree.ladder in
  map (fun q => Calls.answer
                  (DST.rangeGet Z.add MinTree.minInit MinTree.minCombine t
                     (fst q) (snd q)))
      [(0, 42); (36, 42); (39, 42)] =
  [Some 0; Some 100; Some 100000].
Proof. vm_compute. reflexivity. Qed.

(** The keys may be negative: the midpoint of [-3, 0) is [-1]. *)
Example negative_keys :
  midpoint (-3) 0 = -1 /\
  let t := SumTree.after (-3) 0 54 [Calls.CallSet (-1) 5 1] in
  map (fun k => Calls.answer (DST.get Z.add t k)) [-3; -2; -1] =
  [Some (inl 54); Some (inl 54); Some (inl 1)].
Proof. split; vm_compute; reflexivity. Qed.

(** Negation on a tree that is collapsed and split again.  The flag that
    [update(0, 4)] sets on the root outlives [set(0, 4, 7)], which makes the
    root a leaf through the setter of the base class; [set(0, 1, 9)] splits
    the leaf and pushes the flag down.  [get] then answers [-7] for the keys
    1, 2 and 3, where the reference holds [7]. *)
Example negate_then_collapse :
  let t := NegateTree.after 0 4 1 NegateTree.calls in
  map (fun k => Calls.answer (NullaryTree.get NegateTree.negate t k))
      [0; 1; 2; 3] =
  [Some (inl 9); Some (inl (-7)); Some (inl (-7)); Some (inl (-7))] /\
  map (Reference.get
         (Calls.refCalls (Nullary.asBinary NegateTree.negate)
            (Reference.make 0 4 1) NegateTree.calls))
      [0; 1; 2; 3] =
  [Some 9; Some 7; Some 7; Some 7].
Proof. split; vm_compute; reflexivity. Qed.

(** The two recursions of the older [_setImpl] where the sums wrap around:
    over 6-bit unsigned keys, [set(0, 31, 1)] on a fresh tree over [0, 41)
    ends in both, with nodes that differ in a left child whose span is
    empty, and with the same value for each of the 41 keys. *)
Example legacy_and_corrected_nodes_differ :
  exists n1 n2 : Node Z Z,
    Legacy._setImpl (K:=mkKeyT false 6) (Legacy.siftDown Z.add) setValue
      100 0 31 0 41 (Leaf 0 None) 1 = Done n1 /\
    Legacy._setImpl_corrected (K:=mkKeyT false 6) (Legacy.siftDown Z.add)
      setValue 100 0 31 0 41 (Leaf 0 None) 1 = Done n2 /\
    n1 <> n2 /\
    map (valueAt (K:=mkKeyT false 6) Z.add n1 0 41) (Abstraction.keyRange 0 41) =
    map (valueAt (K:=mkKeyT false 6) Z.add n2 0 41) (Abstraction.keyRange 0 41).
Proof.
  do 2 eexists. split; [vm_compute; reflexivity|].
  split; [vm_compute; reflexivity|]. split; [discriminate|].
  vm_compute. reflexivity.
Qed.

End Scenarios.

(** ** The theorems at concrete trees *)

Lemma fits_0_42 : spanFits 0 42.
Proof. unfold spanFits, keyMax, keyMin. cbn. lia. Defined.

Lemma worked_reachable :
  Abstraction.reachable Z.add SumTree.sumInit SumTree.sumCombine SumTree.worked.
Proof.
  exists 0, 42, 54,
    [Calls.CallSet 3 9 1; Calls.CallUpdate 0 21 18; Calls.CallSet 30 31 2].
  split.
  - repeat (apply Forall_cons; [simpl; try lia; exact I|]). apply Forall_nil.
  - reflexivity.
Defined.

Lemma worked_bounds :
  DST.begin_ SumTree.worked = 0 /\ DST.end_ SumTree.worked = 42.
Proof. split; reflexivity. Defined.




Lemma legacy_setImpl_agrees_with_corrected_witness :
  Legacy.sameValues Z.add 0 42
    (Legacy._setImpl (Legacy.siftDown Z.add) setValue 43 0 37 0 42
       (Inner (Leaf 21 None) (Leaf 5 (Some 3)) (Some 4)) 73)
    (Legacy._setImpl_corrected (Legacy.siftDown Z.add) setValue 43 0 37 0 42
       (Inner (Leaf 21 None) (Leaf 5 (Some 3)) (Some 4)) 73) /\
  (spanFits 0 42 ->
   (Z.to_nat (42 - 0) < 43)%nat ->
   exists n' : Node Z Z,
     Legacy._setImpl (Legacy.siftDown Z.add) setValue 43 0 37 0 42
       (Inner (Leaf 21 None) (Leaf 5 (Some 3)) (Some 4)) 73 = Done n' /\
     Legacy._setImpl_corrected (Legacy.siftDown Z.add) setValue 43 0 37 0 42
       (Inner (Leaf 21 None) (Leaf 5 (Some 3)) (Some 4)) 73 = Done n').
Proof.
  apply (LegacyFacts.legacy_setImpl_agrees_with_corrected
           (Legacy.siftDown Z.add) setValue Z.add 43
           (LegacyFacts.siftDown_has_children Z.add) 0 37 0 42
           (Inner (Leaf 21 None) (Leaf 5 (Some 3)) (Some 4)) 73).
  lia.
Defined.

Lemma legacy_get_out_of_range_witness :
  Legacy.get (Legacy.siftDown Z.add) 0 (Legacy.make 0 42 54) 42
    = Done (0, Legacy.make 0 42 54).
Proof.
  apply (LegacyFacts.legacy_get_out_of_range (Legacy.siftDown Z.add) 0
           (Legacy.make 0 42 54) 42).
  simpl. lia.
Defined.



Lemma rangeGet_twice_witness :
  DST.rangeGet Z.add SumTree.sumInit SumTree.sumCombine
    (SumTree.after 0 4 5 [Calls.CallRangeGet 1 3]) 1 3
  = Done (10, SumTree.after 0 4 5 [Calls.CallRangeGet 1 3]).
Proof.
  apply (TreeFacts.rangeGet_twice Z.add SumTree.sumInit SumTree.sumCombine
           (DST.make 0 4 5)).
  reflexivity.
Defined.



Lemma rangeGet_on_empty_range_never_returns_witness :
  DST.rangeGetImpl_ Z.add SumTree.sumInit SumTree.sumCombine 1000 5 5 0 42
    (Leaf 54 None) = OutOfFuel /\
  DST.rangeGet Z.add SumTree.sumInit SumTree.sumCombine (DST.make 0 42 54) 5 5
    = OutOfFuel.
Proof.
  apply (TreeFacts.rangeGet_on_empty_range_never_returns Z.add SumTree.sumInit
           SumTree.sumCombine (DST.make 0 42 54) 5 5 1000).
  - simpl; lia.
  - simpl; lia.
  - left. simpl. lia.
Defined.




Lemma initChildren_strong_guarantee_witness :
  exists s' : InitChildren.Storage,
    InitChildren.initChildrenSiftingValue InitChildren.copyOnce
      InitChildren.moveP false (InitChildren.leaf ("abc"%string, true) 0 1)
    = Done (InitChildren.Throws, s') /\
    s' = InitChildren.leaf ("abc"%string, true) 0 1.
Proof.
  eexists. split.
  - vm_compute. reflexivity.
  - apply (InitChildrenMore.initChildren_strong_guarantee
             InitChildren.copyOnce InitChildren.moveP false
             ("abc"%string, true) 0 1).
    + left. reflexivity.
    + reflexivity.
Defined.

Lemma legacy_empty_range_reaches_no_setter_witness :
  Legacy._setImpl (Legacy.siftDown Z.add) setValue 43 9 9 0 42 (Leaf 21 None) 73 =
  Legacy._setImpl (Legacy.siftDown Z.add) (fun _ n => n) 43 9 9 0 42
    (Leaf 21 None) 73 /\
  Legacy._updateImpl (Legacy.siftDown Z.add) setValue 43 9 9 0 42 (Leaf 21 None) 73 =
  Legacy._updateImpl (Legacy.siftDown Z.add) (fun _ n => n) 43 9 9 0 42
    (Leaf 21 None) 73.
Proof.
  apply (LegacyMore.legacy_empty_range_reaches_no_setter
           (Legacy.siftDown Z.add) 43 9 9 setValue (fun _ n => n)).
  lia.
Defined.


Lemma set_overrides_set_witness :
  DST.set Z.add (SumTree.after 0 42 21 [Calls.CallSet 0 37 73]) 0 37 37 =
  DST.set Z.add (DST.make 0 42 21) 0 37 37 /\
  DST.set Z.add (SumTree.after 0 42 21 [Calls.CallSet 0 37 73]) 0 37 73 =
  Done (SumTree.after 0 42 21 [Calls.CallSet 0 37 73]).
Proof.
  apply (TreeMore.set_overrides_set Z.add (DST.make 0 42 21)).
  reflexivity.
Defined.


Lemma get_error_names_the_key_witness : 100 = 100.
Proof.
  apply (TreeMore.get_error_names_the_key Z.add
           (DST.make 0 42 54) (DST.make (-7) 10 54)
           (DST.make 0 42 54) (DST.make (-7) 10 54) 100 100
           (DST.out_of_range "Get operation for 100, which is out of range."));
    reflexivity.
Defined.
